(** * CB2 room state engine and client mirror: a shallow embedding

    The definitions below follow [server/state.py], [server/messages/*.py],
    [server/schemas/event.py] and [py_client/cb2_client.py].

    Conventions of the embedding:
    - Python [int] is [Z]; actor and prop identifiers are [Z].
    - Python [float] is idealised as an exact rational [Q] (every finite
      float is one); rounding is not modelled.
    - [datetime] is [Z], a number of microseconds; [timedelta(seconds=60)]
      is [60000000].
    - A [dict] keyed by actor id whose iteration order is never observed is a
      [gmap Z _]; the actor table, which the tick loop iterates in insertion
      order, is an association list.
    - [queue.Queue] is a list: [put] appends at the end, [get] removes the
      head.
    - A Python exception ([KeyError], [AttributeError], [ValueError], a
      failed [assert]) is the result [None] of an [option]-valued function;
      the call is abandoned there, and what it had already written to the
      room is not kept.
    - Logging is not modelled. *)

From Stdlib Require Import ZArith QArith Qabs Bool List String Lia.
From stdpp Require Import base option list gmap strings.
Import ListNotations.

Local Open Scope Z_scope.

(** ** Messages *)

(** Modelled from the spec: [messages/rooms.py] is absent; the spec gives
    [role ∈ {LEADER, FOLLOWER, NONE}]. *)
Module Role.
Inductive t := NONE | LEADER | FOLLOWER.

Definition eqb (a b : t) : bool :=
  match a, b with
  | NONE, NONE | LEADER, LEADER | FOLLOWER, FOLLOWER => true
  | _, _ => false
  end.
End Role.

(** [messages/action.py], [class ActionType(Enum)]. *)
Module ActionType.
Inductive t := INIT | INSTANT | ROTATE | TRANSLATE | OUTLINE | DEATH.

Definition value (a : t) : Z :=
  match a with
  | INIT => 0 | INSTANT => 1 | ROTATE => 2
  | TRANSLATE => 3 | OUTLINE => 4 | DEATH => 5
  end.

Definition eqb (a b : t) : bool := value a =? value b.
End ActionType.

(** [messages/action.py], [class AnimationType(Enum)]. *)
Module AnimationType.
Inductive t :=
  NONE | IDLE | WALKING | INSTANT | TRANSLATE | ACCEL_DECEL | SKIPPING | ROTATE.
End AnimationType.

(** [messages/action.py], [class Color]. *)
Module Color.
Record t := mk { r : Q; g : Q; b : Q; a : Q }.

(** [Color.__eq__]: componentwise float equality. *)
Definition eqb (x y : t) : bool :=
  Qeq_bool (r x) (r y) && Qeq_bool (g x) (g y)
  && Qeq_bool (b x) (b y) && Qeq_bool (a x) (a y).

Definition blue : t := mk 0 0 1 1.
Definition red : t := mk 1 0 0 1.
End Color.

(** Modelled from the spec: [hex.py] is absent; the spec gives a triple
    [(a, r, c)]. *)
Module HecsCoord.
Record t := mk { a : Z; r : Z; c : Z }.

Definition eqb (x y : t) : bool :=
  (a x =? a y) && (r x =? r y) && (c x =? c y).
End HecsCoord.

(** [messages/action.py], [class Action]. *)
Module Action.
Record t := mk {
  id : Z;
  action_type : ActionType.t;
  animation_type : AnimationType.t;
  displacement : HecsCoord.t;
  rotation : Q;
  border_radius : Q;
  border_color : Color.t;
  duration_s : Q;
  expiration : Z
}.
End Action.

(** Modelled from the spec: [messages/turn_state.py] is absent; the spec
    lists the fields of [TurnState]. *)
Module TurnState.
Record t := mk {
  turn : Role.t;
  moves_remaining : Z;
  turns_left : Z;
  turn_end : Z;
  game_start : Z;
  sets_collected : Z;
  score : Z;
  game_over : bool
}.
End TurnState.

(** Modelled from the spec: [TurnUpdate] of the absent
    [messages/turn_state.py] builds the [TurnState] of a game that is not
    over from its seven arguments. *)
Definition TurnUpdate (turn : Role.t) (moves_remaining turns_left turn_end
    game_start sets_collected score : Z) : TurnState.t :=
  TurnState.mk turn moves_remaining turns_left turn_end game_start
    sets_collected score false.

(** [messages/objective.py], [class ObjectiveMessage]. *)
Module ObjectiveMessage.
Record t := mk {
  sender : Role.t;
  text : string;
  uuid : string;
  completed : bool;
  cancelled : bool
}.

Definition set_uuid (u : string) (o : t) : t :=
  mk (sender o) (text o) u (completed o) (cancelled o).

Definition set_completed (c : bool) (o : t) : t :=
  mk (sender o) (text o) (uuid o) c (cancelled o).
End ObjectiveMessage.

(** [messages/objective.py], [class ObjectiveCompleteMessage]. *)
Module ObjectiveCompleteMessage.
Record t := mk { uuid : string }.
End ObjectiveCompleteMessage.

(** ** Event schema *)

(** [schemas/event.py], [class EventOrigin(IntEnum)].  The four names of the
    class body, and the integer each is bound to. *)
Module EventOrigin.
Inductive name := NONE | LEADER | FOLLOWER | SERVER.

Definition value (n : name) : Z :=
  match n with
  | NONE => 0
  | LEADER => 1
  | FOLLOWER => 1
  | SERVER => 2
  end.

Definition names : list name := [NONE; LEADER; FOLLOWER; SERVER].
End EventOrigin.

(** ** Floating-point comparisons of [valid_action] *)

(** [math.sqrt(q) > t] for a threshold [t >= 0]: on the reals this is
    [q > t * t], which stays inside [Q]. *)
Definition sqrt_gt (q t : Q) : bool := negb (Qle_bool q (t * t)).

(** [x > y] on floats. *)
Definition Qgt_bool (x y : Q) : bool := negb (Qle_bool x y).

(** [x ** 2]. *)
Definition Qsquare (x : Q) : Q := (x * x)%Q.

(** The least magnitude that is too large for a float: a result of
    [2^1024 - 2^970] or more rounds to infinity. *)
Definition float_overflow : Q := inject_Z (2 ^ 1024 - 2 ^ 970).

(** [x ** 2] on floats: an [OverflowError] when the square is too large for
    a float, the square otherwise. *)
Definition float_pow2 (x : Q) : option Q :=
  if Qle_bool float_overflow (Qsquare x) then None else Some (Qsquare x).

(** ** Insertion-ordered dictionaries

    [State._actors] is a Python [dict] that the tick loop iterates: keys come
    out in insertion order, assignment to a present key keeps its place and
    assignment to a new key appends. *)
Module odict.
Definition t (V : Type) : Type := list (Z * V).

Definition keys {V} (d : t V) : list Z := map fst d.

Fixpoint get {V} (k : Z) (d : t V) : option V :=
  match d with
  | [] => None
  | (k', v) :: d' => if k =? k' then Some v else get k d'
  end.

Fixpoint set {V} (k : Z) (v : V) (d : t V) : t V :=
  match d with
  | [] => [(k, v)]
  | (k', v') :: d' =>
      if k =? k' then (k', v) :: d' else (k', v') :: set k v d'
  end.

Definition del {V} (k : Z) (d : t V) : t V :=
  List.filter (fun kv => negb (k =? fst kv)) d.

Definition mem {V} (k : Z) (d : t V) : bool :=
  match get k d with Some _ => true | None => false end.
End odict.

(** ** Map provider *)

(** Modelled from the spec: [card.py] is absent; the spec gives [Card] the
    fields [id], [location], [color], [shape], [count], [selected].  The
    three attributes are enumerations there and integers here. *)
Module Card.
Record t := mk {
  id : Z;
  location : HecsCoord.t;
  color : Z;
  shape : Z;
  count : Z;
  selected : bool
}.

Definition set_selected (sel : bool) (c : t) : t :=
  mk (id c) (location c) (color c) (shape c) (count c) sel.
End Card.

(** [messages/map_update.py], [class MapUpdate]; tiles are opaque here and
    the props of a map are its cards. *)
Module MapUpdate.
Record t := mk {
  rows : Z;
  cols : Z;
  tiles : list Z;
  props : list Card.t
}.
End MapUpdate.

(** What the engine consults that is neither in [state.py] nor determined by
    the spec: code of absent modules, and the two sources of
    non-determinism, the wall clock and the random card generator. *)
Class World := {
  (** [HecsCoord.add] of the absent [hex.py]. *)
  HecsCoord_add : HecsCoord.t -> HecsCoord.t -> HecsCoord.t;
  (** [HecsCoord.cartesian] of the absent [hex.py]: the planar [(x, y)]. *)
  HecsCoord_cartesian : HecsCoord.t -> Q * Q;
  (** [GameOverMessage(game_start, sets_collected, score)] of the absent
      [messages/turn_state.py]. *)
  GameOverMessage : Z -> Z -> Z -> TurnState.t;
  (** [CardSelectAction(card_id, selected, color)] of the absent [card.py];
      the colour is optional in the calls of [state.py]. *)
  CardSelectAction : Z -> bool -> option Color.t -> Action.t;
  (** The [n]-th value returned by [datetime.now()]. *)
  datetime_now : nat -> Z;
  (** The [n]-th card produced by the provider's random generator. *)
  random_card : nat -> Card.t
}.

(** [True] when no two elements of the list are equal. *)
Fixpoint all_distinct (l : list Z) : bool :=
  match l with
  | [] => true
  | x :: l' => negb (existsb (Z.eqb x) l') && all_distinct l'
  end.

(** Modelled from the spec: [map_provider.py] is absent.  The spec's section
    on the MapProvider names the operations and says what the two set
    predicates compute; the store is a list of cards, and [drawn] counts the
    cards taken from the random generator so far. *)
Module MapProvider.
Record t := mk {
  rows : Z;
  cols : Z;
  tiles : list Z;
  cards : list Card.t;
  spawn_points : list HecsCoord.t;
  drawn : nat
}.

Definition with_cards (cs : list Card.t) (mp : t) : t :=
  mk (rows mp) (cols mp) (tiles mp) cs (spawn_points mp) (drawn mp).

(** [map() -> MapUpdate]. *)
Definition map (mp : t) : MapUpdate.t :=
  MapUpdate.mk (rows mp) (cols mp) (tiles mp) (cards mp).

(** [card_by_location(h) -> Card?]. *)
Definition card_by_location (h : HecsCoord.t) (mp : t) : option Card.t :=
  List.find (fun c => HecsCoord.eqb (Card.location c) h) (cards mp).

(** [set_selected(id, bool)]. *)
Definition set_selected (id : Z) (sel : bool) (mp : t) : t :=
  with_cards
    (List.map (fun c => if Card.id c =? id then Card.set_selected sel c else c)
       (cards mp)) mp.

(** [remove_card(id)]. *)
Definition remove_card (id : Z) (mp : t) : t :=
  with_cards (List.filter (fun c => negb (Card.id c =? id)) (cards mp)) mp.

(** [add_random_cards(n)]: the next [n] cards of the generator. *)
Definition add_random_cards `{World} (n : nat) (mp : t) : t :=
  mk (rows mp) (cols mp) (tiles mp)
     (cards mp ++ List.map random_card (seq (drawn mp) n))
     (spawn_points mp) (drawn mp + n)%nat.

(** [selected_cards() -> iter<Card>]. *)
Definition selected_cards (mp : t) : list Card.t :=
  List.filter Card.selected (cards mp).

(** No two of the cards share a colour, a shape or a count. *)
Definition pairwise_differ (cs : list Card.t) : bool :=
  all_distinct (List.map Card.color cs)
  && all_distinct (List.map Card.shape cs)
  && all_distinct (List.map Card.count cs).

(** [selected_cards_collide()]: two selected cards share an attribute, or
    more than three cards are selected. *)
Definition selected_cards_collide (mp : t) : bool :=
  negb (pairwise_differ (selected_cards mp))
  || (3 <? length (selected_cards mp))%nat.

(** [selected_valid_set()]: exactly three selected cards, which pairwise
    differ on every attribute. *)
Definition selected_valid_set (mp : t) : bool :=
  (length (selected_cards mp) =? 3)%nat
  && pairwise_differ (selected_cards mp).
End MapProvider.

(** ** Actors *)

(** Modelled from the spec: [assets.py] is absent; [create_actor] names
    these two asset ids. *)
Module AssetId.
Inductive t := PLAYER | FOLLOWER_BOT.
End AssetId.

(** [state.py], [class Actor]. *)
Module Actor.
Record t := mk {
  _actor_id : Z;
  _asset_id : AssetId.t;
  _actions : list Action.t;
  _location : HecsCoord.t;
  _heading_degrees : Q;
  _role : Role.t
}.

Definition __init__ (actor_id : Z) (asset_id : AssetId.t) (role : Role.t)
    (spawn : HecsCoord.t) : t :=
  mk actor_id asset_id [] spawn 0 role.

Definition actor_id (self : t) : Z := _actor_id self.
Definition asset_id (self : t) : AssetId.t := _asset_id self.
Definition role (self : t) : Role.t := _role self.
Definition location (self : t) : HecsCoord.t := _location self.

Definition with_actions (q : list Action.t) (self : t) : t :=
  mk (_actor_id self) (_asset_id self) q (_location self)
     (_heading_degrees self) (_role self).

Definition add_action (action : Action.t) (self : t) : t :=
  with_actions (_actions self ++ [action]) self.

Definition has_actions (self : t) : bool :=
  match _actions self with [] => false | _ :: _ => true end.

(** [self._actions.queue[0]]: an [IndexError] on an empty queue. *)
Definition peek (self : t) : option Action.t := head (_actions self).

Definition step `{World} (self : t) : t :=
  match _actions self with
  | [] => self
  | action :: rest =>
      mk (_actor_id self) (_asset_id self) rest
         (HecsCoord_add (_location self) (Action.displacement action))
         (_heading_degrees self + Action.rotation action)%Q
         (_role self)
  end.

Definition drop (self : t) : t :=
  match _actions self with
  | [] => self
  | _ :: rest => with_actions rest self
  end.
End Actor.

(** ** Messages to clients *)

(** Modelled from the spec: [messages/state_sync.py] is absent; [State.state]
    builds a [StateSync] from the number of actors, one entry per actor and
    the id of the receiving player. *)
Module StateSync.
Record Actor := mkActor {
  actor_id : Z;
  asset_id : AssetId.t;
  location : HecsCoord.t;
  rotation_degrees : Q
}.

Record t := mk {
  population : nat;
  actors : list Actor;
  player_id : Z
}.
End StateSync.

(** Modelled from the spec: [messages/message_from_server.py] is absent; the
    five constructors [drain_message] calls, as one tagged union. *)
Inductive MessageFromServer :=
  | MapUpdateFromServer (map_update : MapUpdate.t)
  | StateSyncFromServer (state : StateSync.t)
  | ActionsFromServer (actions : list Action.t)
  | ObjectivesFromServer (objectives : list ObjectiveMessage.t)
  | GameStateFromServer (turn_state : TurnState.t).

(** ** The room state *)

Definition LEADER_MOVES_PER_TURN : Z := 5.
Definition FOLLOWER_MOVES_PER_TURN : Z := 10.

(** [state.py], [class State]: the attributes set by [__init__], without the
    room id, the id assigner and the loggers.  [now_reads] is not an
    attribute: it counts the calls of [datetime.now()] made so far, so that
    every call reads a value of its own from [datetime_now]. *)
Module State.
Record t := mk {
  _actors : odict.t Actor.t;
  _map_provider : MapProvider.t;
  _objectives : list ObjectiveMessage.t;
  _objectives_stale : gmap Z bool;
  _map_update : MapUpdate.t;
  _map_stale : gmap Z bool;
  _synced : gmap Z bool;
  _action_history : gmap Z (list Action.t);
  _last_tick : Z;
  _turn_history : gmap Z (list TurnState.t);
  _turn_state : TurnState.t;
  _spawn_points : list HecsCoord.t;
  _done : bool;
  now_reads : nat
}.

Definition with_actors v (s : t) : t :=
  mk v (_map_provider s) (_objectives s) (_objectives_stale s)
     (_map_update s) (_map_stale s) (_synced s) (_action_history s)
     (_last_tick s) (_turn_history s) (_turn_state s) (_spawn_points s)
     (_done s) (now_reads s).

Definition with_map_provider v (s : t) : t :=
  mk (_actors s) v (_objectives s) (_objectives_stale s)
     (_map_update s) (_map_stale s) (_synced s) (_action_history s)
     (_last_tick s) (_turn_history s) (_turn_state s) (_spawn_points s)
     (_done s) (now_reads s).

Definition with_objectives v (s : t) : t :=
  mk (_actors s) (_map_provider s) v (_objectives_stale s)
     (_map_update s) (_map_stale s) (_synced s) (_action_history s)
     (_last_tick s) (_turn_history s) (_turn_state s) (_spawn_points s)
     (_done s) (now_reads s).

Definition with_objectives_stale v (s : t) : t :=
  mk (_actors s) (_map_provider s) (_objectives s) v
     (_map_update s) (_map_stale s) (_synced s) (_action_history s)
     (_last_tick s) (_turn_history s) (_turn_state s) (_spawn_points s)
     (_done s) (now_reads s).

Definition with_map_update v (s : t) : t :=
  mk (_actors s) (_map_provider s) (_objectives s) (_objectives_stale s)
     v (_map_stale s) (_synced s) (_action_history s)
     (_last_tick s) (_turn_history s) (_turn_state s) (_spawn_points s)
     (_done s) (now_reads s).

Definition with_map_stale v (s : t) : t :=
  mk (_actors s) (_map_provider s) (_objectives s) (_objectives_stale s)
     (_map_update s) v (_synced s) (_action_history s)
     (_last_tick s) (_turn_history s) (_turn_state s) (_spawn_points s)
     (_done s) (now_reads s).

Definition with_synced v (s : t) : t :=
  mk (_actors s) (_map_provider s) (_objectives s) (_objectives_stale s)
     (_map_update s) (_map_stale s) v (_action_history s)
     (_last_tick s) (_turn_history s) (_turn_state s) (_spawn_points s)
     (_done s) (now_reads s).

Definition with_action_history v (s : t) : t :=
  mk (_actors s) (_map_provider s) (_objectives s) (_objectives_stale s)
     (_map_update s) (_map_stale s) (_synced s) v
     (_last_tick s) (_turn_history s) (_turn_state s) (_spawn_points s)
     (_done s) (now_reads s).

Definition with_last_tick v (s : t) : t :=
  mk (_actors s) (_map_provider s) (_objectives s) (_objectives_stale s)
     (_map_update s) (_map_stale s) (_synced s) (_action_history s)
     v (_turn_history s) (_turn_state s) (_spawn_points s)
     (_done s) (now_reads s).

Definition with_turn_history v (s : t) : t :=
  mk (_actors s) (_map_provider s) (_objectives s) (_objectives_stale s)
     (_map_update s) (_map_stale s) (_synced s) (_action_history s)
     (_last_tick s) v (_turn_state s) (_spawn_points s)
     (_done s) (now_reads s).

Definition with_turn_state v (s : t) : t :=
  mk (_actors s) (_map_provider s) (_objectives s) (_objectives_stale s)
     (_map_update s) (_map_stale s) (_synced s) (_action_history s)
     (_last_tick s) (_turn_history s) v (_spawn_points s)
     (_done s) (now_reads s).

Definition with_spawn_points v (s : t) : t :=
  mk (_actors s) (_map_provider s) (_objectives s) (_objectives_stale s)
     (_map_update s) (_map_stale s) (_synced s) (_action_history s)
     (_last_tick s) (_turn_history s) (_turn_state s) v
     (_done s) (now_reads s).

Definition with_done v (s : t) : t :=
  mk (_actors s) (_map_provider s) (_objectives s) (_objectives_stale s)
     (_map_update s) (_map_stale s) (_synced s) (_action_history s)
     (_last_tick s) (_turn_history s) (_turn_state s) (_spawn_points s)
     v (now_reads s).

Definition with_now_reads v (s : t) : t :=
  mk (_actors s) (_map_provider s) (_objectives s) (_objectives_stale s)
     (_map_update s) (_map_stale s) (_synced s) (_action_history s)
     (_last_tick s) (_turn_history s) (_turn_state s) (_spawn_points s)
     (_done s) v.
End State.

(** Modelled from the spec: [messages/message_to_server.py] is absent; the
    kinds [handle_packet] dispatches on, with the payload each branch reads.
    [OTHER] stands for every kind [handle_packet] does not name. *)
Inductive MessageToServer :=
  | ACTIONS (actions : list Action.t)
  | OBJECTIVE (objective : ObjectiveMessage.t)
  | OBJECTIVE_COMPLETED (objective_complete : ObjectiveCompleteMessage.t)
  | TURN_COMPLETE
  | STATE_SYNC_REQUEST
  | OTHER.

(** ** The engine: methods of [State] *)

Section Engine.
Context `{W : World}.

(** One call of [datetime.now()]. *)
Definition now (s : State.t) : Z * State.t :=
  (datetime_now (State.now_reads s),
   State.with_now_reads (S (State.now_reads s)) s).

Definition turn_duration (role : Role.t) : Z :=
  if Role.eqb role Role.LEADER then 60000000 else 45000000.

Definition moves_per_turn (role : Role.t) : Z :=
  if Role.eqb role Role.LEADER then LEADER_MOVES_PER_TURN
  else FOLLOWER_MOVES_PER_TURN.

(** The queue of [actor_id] in [_turn_history], created empty when the
    key is missing. *)
Definition turn_queue (actor_id : Z) (th : gmap Z (list TurnState.t))
    : list TurnState.t :=
  match th !! actor_id with Some q => q | None => [] end.

Definition record_turn_state (turn_state : TurnState.t) (s : State.t)
    : State.t :=
  let s := State.with_turn_state turn_state s in
  fold_left
    (fun s actor_id =>
       let th := State._turn_history s in
       State.with_turn_history
         (<[actor_id := turn_queue actor_id th ++ [turn_state]]> th) s)
    (odict.keys (State._actors s)) s.

Definition drain_turn_state (actor_id : Z) (s : State.t)
    : option TurnState.t * State.t :=
  let th := State._turn_history s in
  match turn_queue actor_id th with
  | [] => (None, State.with_turn_history (<[actor_id := []]> th) s)
  | turn :: rest =>
      (Some turn, State.with_turn_history (<[actor_id := rest]> th) s)
  end.

Definition end_game (s : State.t) : State.t := State.with_done true s.

(** [record_action]: the action is appended to the outbox of every actor;
    a missing outbox is a [KeyError]. *)
Definition record_action (action : Action.t) (s : State.t)
    : option State.t :=
  fold_left
    (fun acc id =>
       s ← acc;
       actor ← odict.get id (State._actors s);
       history ← State._action_history s !! Actor.actor_id actor;
       Some (State.with_action_history
               (<[Actor.actor_id actor := history ++ [action]]>
                  (State._action_history s)) s))
    (odict.keys (State._actors s)) (Some s).

Definition done (s : State.t) : bool := State._done s.

Definition end_turn_if_over (force_turn_end : bool) (s : State.t)
    : State.t :=
  let ts := State._turn_state s in
  let opposite_role :=
    if Role.eqb (TurnState.turn ts) Role.FOLLOWER
    then Role.LEADER else Role.FOLLOWER in
  let '(t, s) := now s in
  let end_of_turn := (TurnState.turn_end ts <=? t) || force_turn_end in
  let next_role := if end_of_turn then opposite_role else TurnState.turn ts in
  let moves_remaining :=
    if end_of_turn then moves_per_turn next_role
    else Z.max (TurnState.moves_remaining ts - 1) 0 in
  let turns_left :=
    if end_of_turn then TurnState.turns_left ts - 1
    else TurnState.turns_left ts in
  let '(turn_end, s) :=
    if end_of_turn
    then let '(t', s) := now s in (t' + turn_duration next_role, s)
    else (TurnState.turn_end ts, s) in
  record_turn_state
    (TurnUpdate next_role moves_remaining turns_left turn_end
       (TurnState.game_start ts) (TurnState.sets_collected ts)
       (TurnState.score ts)) s.

Definition check_for_stepped_on_cards (actor_id : Z) (action : Action.t)
    (color : Color.t) (s : State.t) : option State.t :=
  actor ← odict.get actor_id (State._actors s);
  match MapProvider.card_by_location (Actor.location actor)
          (State._map_provider s) with
  | Some stepped_on_card =>
      if ActionType.eqb (Action.action_type action) ActionType.TRANSLATE
      then
        let selected := negb (Card.selected stepped_on_card) in
        let s :=
          State.with_map_provider
            (MapProvider.set_selected (Card.id stepped_on_card) selected
               (State._map_provider s)) s in
        record_action
          (CardSelectAction (Card.id stepped_on_card) selected (Some color))
          s
      else Some s
  | None => Some s
  end.

Definition desync (actor_id : Z) (s : State.t) : State.t :=
  State.with_synced (<[actor_id := false]> (State._synced s)) s.

Definition desync_all (s : State.t) : State.t :=
  fold_left
    (fun s a =>
       match odict.get a (State._actors s) with
       | Some actor => desync (Actor.actor_id actor) s
       | None => s
       end)
    (odict.keys (State._actors s)) s.

(** [self._synced[actor_id]]: a [KeyError] for an unknown id. *)
Definition is_synced (actor_id : Z) (s : State.t) : option bool :=
  State._synced s !! actor_id.

Definition handle_action (actor_id : Z) (action : Action.t) (s : State.t)
    : option State.t :=
  if negb (Action.id action =? actor_id) then Some (desync actor_id s)
  else
    actor ← odict.get actor_id (State._actors s);
    Some (State.with_actors
            (odict.set actor_id (Actor.add_action action actor)
               (State._actors s)) s).

(** [for actor_id in self._actors: self._objectives_stale[actor_id] = True] *)
Definition mark_objectives_stale (s : State.t) : State.t :=
  fold_left
    (fun s actor_id =>
       State.with_objectives_stale
         (<[actor_id := true]> (State._objectives_stale s)) s)
    (odict.keys (State._actors s)) s.

(** [handle_objective]; [new_uuid] is the value of [uuid.uuid4().hex]. *)
Definition handle_objective (id : Z) (objective : ObjectiveMessage.t)
    (new_uuid : string) (s : State.t) : option State.t :=
  actor ← odict.get id (State._actors s);
  if negb (Role.eqb (Actor.role actor) Role.LEADER) then Some s
  else
    let objective := ObjectiveMessage.set_uuid new_uuid objective in
    let s := State.with_objectives (State._objectives s ++ [objective]) s in
    Some (mark_objectives_stale s).

(** The [enumerate] loop of [handle_objective_complete]: the first
    objective with the given uuid is completed, then [break]. *)
Fixpoint complete_first (uuid : string) (l : list ObjectiveMessage.t)
    : list ObjectiveMessage.t :=
  match l with
  | [] => []
  | objective :: l' =>
      if String.eqb (ObjectiveMessage.uuid objective) uuid
      then ObjectiveMessage.set_completed true objective :: l'
      else objective :: complete_first uuid l'
  end.

Definition handle_objective_complete (id : Z)
    (objective_complete : ObjectiveCompleteMessage.t) (s : State.t)
    : option State.t :=
  actor ← odict.get id (State._actors s);
  if negb (Role.eqb (Actor.role actor) Role.FOLLOWER) then Some s
  else
    let s :=
      State.with_objectives
        (complete_first (ObjectiveCompleteMessage.uuid objective_complete)
           (State._objectives s)) s in
    Some (mark_objectives_stale s).

Definition handle_turn_complete (id : Z) (s : State.t) : option State.t :=
  actor ← odict.get id (State._actors s);
  if negb (Role.eqb (Actor.role actor) (TurnState.turn (State._turn_state s)))
  then Some s
  else Some (end_turn_if_over true s).

(** [handle_packet]; [new_uuid] is consumed by an [OBJECTIVE]. *)
Definition handle_packet (id : Z) (message : MessageToServer)
    (new_uuid : string) (s : State.t) : option State.t :=
  match message with
  | ACTIONS actions =>
      fold_left (fun acc action => s ← acc; handle_action id action s)
        actions (Some s)
  | OBJECTIVE objective => handle_objective id objective new_uuid s
  | OBJECTIVE_COMPLETED objective_complete =>
      handle_objective_complete id objective_complete s
  | TURN_COMPLETE => handle_turn_complete id s
  | STATE_SYNC_REQUEST => Some (desync id s)
  | OTHER => Some s
  end.

(** [create_actor]; [new_id] is the value of [self._id_assigner.alloc()]
    and [list.pop()] takes the last spawn point. *)
Definition create_actor (role : Role.t) (new_id : Z) (s : State.t)
    : Z * State.t :=
  let '(spawn_point, rest) :=
    match rev (State._spawn_points s) with
    | [] => (HecsCoord.mk 0 0 0, [])
    | p :: front => (p, rev front)
    end in
  let s := State.with_spawn_points rest s in
  let asset_id :=
    if Role.eqb role Role.LEADER then AssetId.PLAYER
    else AssetId.FOLLOWER_BOT in
  let actor := Actor.__init__ new_id asset_id role spawn_point in
  let s :=
    State.with_actors
      (odict.set (Actor.actor_id actor) actor (State._actors s)) s in
  let s :=
    State.with_action_history
      (<[Actor.actor_id actor := []]> (State._action_history s)) s in
  let s :=
    State.with_synced
      (<[Actor.actor_id actor := false]> (State._synced s)) s in
  (Actor.actor_id actor, desync_all s).

Definition free_actor (actor_id : Z) (s : State.t) : State.t :=
  let s := State.with_actors (odict.del actor_id (State._actors s)) s in
  let s :=
    State.with_action_history (delete actor_id (State._action_history s)) s in
  let s :=
    State.with_objectives_stale
      (delete actor_id (State._objectives_stale s)) s in
  let s :=
    State.with_turn_history (delete actor_id (State._turn_history s)) s in
  desync_all s.
End Engine.

Section Drain.
Context `{W : World}.

(** [drain_actions]: the outbox is handed over and replaced by an empty
    one. *)
Definition drain_actions (actor_id : Z) (s : State.t)
    : list Action.t * State.t :=
  match State._action_history s !! actor_id with
  | None => ([], s)
  | Some action_history =>
      (action_history,
       State.with_action_history
         (<[actor_id := []]> (State._action_history s)) s)
  end.

(** [drain_objectives]: a player without a stale bit gets one, set. *)
Definition drain_objectives (actor_id : Z) (s : State.t)
    : list ObjectiveMessage.t * State.t :=
  let stale :=
    match State._objectives_stale s !! actor_id with
    | None => <[actor_id := true]> (State._objectives_stale s)
    | Some _ => State._objectives_stale s
    end in
  let s := State.with_objectives_stale stale s in
  match stale !! actor_id with
  | Some false => ([], s)
  | _ =>
      (State._objectives s,
       State.with_objectives_stale (<[actor_id := false]> stale) s)
  end.

(** [drain_map_update]: a player without a stale bit gets one, set. *)
Definition drain_map_update (actor_id : Z) (s : State.t)
    : option MapUpdate.t * State.t :=
  let stale :=
    match State._map_stale s !! actor_id with
    | None => <[actor_id := true]> (State._map_stale s)
    | Some _ => State._map_stale s
    end in
  let s := State.with_map_stale stale s in
  match stale !! actor_id with
  | Some false => (None, s)
  | _ =>
      (Some (State._map_update s),
       State.with_map_stale (<[actor_id := false]> stale) s)
  end.

(** [Actor.state]. *)
Definition actor_state (actor : Actor.t) : StateSync.Actor :=
  StateSync.mkActor (Actor.actor_id actor) (Actor.asset_id actor)
    (Actor._location actor) (Actor._heading_degrees actor).

(** [State.state]. *)
Definition state (actor_id : Z) (s : State.t) : option StateSync.t :=
  actor_states ←
    fold_left
      (fun acc a =>
         actor_states ← acc;
         actor ← odict.get a (State._actors s);
         Some (actor_states ++ [actor_state actor]))
      (odict.keys (State._actors s)) (Some []);
  Some (StateSync.mk (length (State._actors s)) actor_states actor_id).

Definition sync_message_for_transmission (actor_id : Z) (s : State.t)
    : option (StateSync.t * State.t) :=
  sync_message ← state actor_id s;
  Some (sync_message,
        State.with_synced (<[actor_id := true]> (State._synced s)) s).

(** [len(l) > 0]. *)
Definition nonempty {A} (l : list A) : bool :=
  match l with [] => false | _ :: _ => true end.

(** [drain_message]: [None] is an exception, [Some (None, _)] is the
    Python value [None], nothing to send. *)
Definition drain_message (player_id : Z) (s : State.t)
    : option (option MessageFromServer * State.t) :=
  let '(map_update, s) := drain_map_update player_id s in
  match map_update with
  | Some map_update => Some (Some (MapUpdateFromServer map_update), s)
  | None =>
      synced ← is_synced player_id s;
      if negb synced then
        '(state_sync, s) ← sync_message_for_transmission player_id s;
        Some (Some (StateSyncFromServer state_sync), s)
      else
        let '(actions, s) := drain_actions player_id s in
        if nonempty actions then Some (Some (ActionsFromServer actions), s)
        else
          let '(objectives, s) := drain_objectives player_id s in
          if nonempty objectives
          then Some (Some (ObjectivesFromServer objectives), s)
          else
            let '(turn_state, s) := drain_turn_state player_id s in
            match turn_state with
            | Some turn_state =>
                Some (Some (GameStateFromServer turn_state), s)
            | None => Some (None, s)
            end
  end.

(** [valid_action].  The norm test [math.sqrt(x**2 + y**2) > 1.001] and the
    rotation test [rotation > 60.01] are on exact rationals; [None] is the
    [OverflowError] of [x**2] or [y**2], which nothing catches. *)
Definition valid_action (actor_id : Z) (action : Action.t) : option bool :=
  let rotate_check :=
    if ActionType.eqb (Action.action_type action) ActionType.ROTATE then
      if Qgt_bool (Action.rotation action) (6001 # 100) then false else true
    else true in
  if ActionType.eqb (Action.action_type action) ActionType.TRANSLATE then
    let cartesian := HecsCoord_cartesian (Action.displacement action) in
    x2 ← float_pow2 (fst cartesian);
    y2 ← float_pow2 (snd cartesian);
    if sqrt_gt (x2 + y2) (1001 # 1000)
    then Some false
    else Some rotate_check
  else Some rotate_check.
End Drain.

(** ** The tick loop: [State.update] *)

Section Update.
Context `{W : World}.

(** The body of [for actor_id in self._actors] in [update]. *)
Definition update_actor (current_set_invalid : bool) (actor_id : Z)
    (s : State.t) : option State.t :=
  actor ← odict.get actor_id (State._actors s);
  if Actor.has_actions actor then
    proposed_action ← Actor.peek actor;
    if negb (Role.eqb (TurnState.turn (State._turn_state s))
               (Actor.role actor))
    then
      let s :=
        State.with_actors
          (odict.set actor_id (Actor.drop actor) (State._actors s)) s in
      Some (desync actor_id s)
    else if TurnState.moves_remaining (State._turn_state s) =? 0 then
      let s :=
        State.with_actors
          (odict.set actor_id (Actor.drop actor) (State._actors s)) s in
      Some (desync actor_id s)
    else
      valid ← valid_action actor_id proposed_action;
      if valid : bool then
        let s :=
          State.with_actors
            (odict.set actor_id (Actor.step actor) (State._actors s)) s in
        s ← record_action proposed_action s;
        let color :=
          if negb current_set_invalid then Color.blue else Color.red in
        s ← check_for_stepped_on_cards actor_id proposed_action color s;
        Some (end_turn_if_over false s)
      else
        let s :=
          State.with_actors
            (odict.set actor_id (Actor.drop actor) (State._actors s)) s in
        Some (desync actor_id s)
  else Some s.

(** The whole [for actor_id in self._actors] loop. *)
Definition update_actors (current_set_invalid : bool) (s : State.t)
    : option State.t :=
  fold_left
    (fun acc actor_id => s ← acc; update_actor current_set_invalid actor_id s)
    (odict.keys (State._actors s)) (Some s).

(** [for card in selected_cards: record_action(CardSelectAction(card.id,
    True, color))]. *)
Definition outline_cards (selected_cards : list Card.t) (color : Color.t)
    (s : State.t) : option State.t :=
  fold_left
    (fun acc card =>
       s ← acc;
       record_action (CardSelectAction (Card.id card) true (Some color)) s)
    selected_cards (Some s).

(** The loop that clears the winning set: de-select, announce, remove. *)
Definition clear_cards (selected_cards : list Card.t) (s : State.t)
    : option State.t :=
  fold_left
    (fun acc card =>
       s ← acc;
       let s :=
         State.with_map_provider
           (MapProvider.set_selected (Card.id card) false
              (State._map_provider s)) s in
       s ← record_action (CardSelectAction (Card.id card) false None) s;
       Some (State.with_map_provider
               (MapProvider.remove_card (Card.id card)
                  (State._map_provider s)) s))
    selected_cards (Some s).

Definition added_turns (sets_collected : Z) : Z :=
  if sets_collected =? 0 then 5
  else if (sets_collected =? 1) || (sets_collected =? 2) then 4
  else if (sets_collected =? 3) || (sets_collected =? 4) then 3
  else 0.

(** [for actor_id in self._actors: self._map_stale[actor_id] = True] *)
Definition mark_map_stale (s : State.t) : State.t :=
  fold_left
    (fun s actor_id =>
       State.with_map_stale (<[actor_id := true]> (State._map_stale s)) s)
    (odict.keys (State._actors s)) s.

(** The [if self._map_provider.selected_valid_set()] block of [update]. *)
Definition collect_set (selected_cards : list Card.t) (s : State.t)
    : option State.t :=
  let ts := State._turn_state s in
  let new_turn_state :=
    TurnUpdate (TurnState.turn ts) (TurnState.moves_remaining ts)
      (TurnState.turns_left ts + added_turns (TurnState.sets_collected ts))
      (TurnState.turn_end ts) (TurnState.game_start ts)
      (TurnState.sets_collected ts + 1) (TurnState.score ts + 1) in
  let s := record_turn_state new_turn_state s in
  s ← clear_cards selected_cards s;
  Some (State.with_map_provider
          (MapProvider.add_random_cards 3 (State._map_provider s)) s).

(** The card logic of one iteration of [update], from
    [selected_cards = list(...)] to the end of the loop body.  The result
    carries the new value of the local [current_set_invalid]. *)
Definition update_cards (current_set_invalid : bool) (s : State.t)
    : option (bool * State.t) :=
  let selected_cards := MapProvider.selected_cards (State._map_provider s) in
  let cards_changed := false in
  '(current_set_invalid, cards_changed, s) ←
    (if MapProvider.selected_cards_collide (State._map_provider s)
        && negb current_set_invalid
     then s ← outline_cards selected_cards Color.red s; Some (true, true, s)
     else Some (current_set_invalid, cards_changed, s));
  '(current_set_invalid, cards_changed, s) ←
    (if negb (MapProvider.selected_cards_collide (State._map_provider s))
        && current_set_invalid
     then s ← outline_cards selected_cards Color.blue s; Some (false, true, s)
     else Some (current_set_invalid, cards_changed, s));
  '(current_set_invalid, cards_changed, s) ←
    (if MapProvider.selected_valid_set (State._map_provider s)
     then s ← collect_set selected_cards s; Some (false, true, s)
     else Some (current_set_invalid, cards_changed, s));
  if cards_changed : bool then
    let s :=
      State.with_map_update (MapProvider.map (State._map_provider s)) s in
    Some (current_set_invalid, mark_map_stale s)
  else Some (current_set_invalid, s).

(** One iteration of [while not self._done] in [update]. *)
Definition update_iteration (current_set_invalid : bool) (s : State.t)
    : option (bool * State.t) :=
  let ts := State._turn_state s in
  if TurnState.turns_left ts =? -1 then
    let game_over_message :=
      GameOverMessage (TurnState.game_start ts)
        (TurnState.sets_collected ts) (TurnState.score ts) in
    Some (current_set_invalid,
          end_game (record_turn_state game_over_message s))
  else
    let '(t, s) := now s in
    let s :=
      if State._last_tick s + 1000000 <? t then
        let '(t', s) := now s in
        let s := State.with_last_tick t' s in
        let ts := State._turn_state s in
        record_turn_state
          (TurnUpdate (TurnState.turn ts) (TurnState.moves_remaining ts)
             (TurnState.turns_left ts) (TurnState.turn_end ts)
             (TurnState.game_start ts) (TurnState.sets_collected ts)
             (TurnState.score ts)) s
      else s in
    let '(t, s) := now s in
    let s :=
      if TurnState.turn_end (State._turn_state s) <=? t
      then end_turn_if_over false s else s in
    s ← update_actors current_set_invalid s;
    update_cards current_set_invalid s.

(** [update]: at most [fuel] iterations of the loop. *)
Fixpoint update (fuel : nat) (current_set_invalid : bool) (s : State.t)
    : option (bool * State.t) :=
  match fuel with
  | O => Some (current_set_invalid, s)
  | S fuel' =>
      if State._done s then Some (current_set_invalid, s)
      else
        '(current_set_invalid, s) ← update_iteration current_set_invalid s;
        update fuel' current_set_invalid s
  end.
End Update.

Section Init.
Context `{W : World}.

(** [State.__init__]; the provider and the shuffled spawn points are
    given. *)
Definition State_init (map_provider : MapProvider.t)
    (shuffled_spawn_points : list HecsCoord.t) : State.t :=
  let last_tick := datetime_now 0 in
  let initial_turn :=
    TurnUpdate Role.LEADER LEADER_MOVES_PER_TURN 6
      (datetime_now 1 + turn_duration Role.LEADER) (datetime_now 2) 0 0 in
  let s :=
    State.mk [] map_provider [] ∅ (MapProvider.map map_provider) ∅ ∅ ∅
      last_tick ∅ initial_turn shuffled_spawn_points false 3 in
  record_turn_state initial_turn s.
End Init.

(** ** The client mirror: [py_client/cb2_client.py] *)

Module Client.
(** Modelled from the spec: [py_client/client_messages.py] and
    [messages/message_to_server.py] are absent; one constructor per
    message the client builds. *)
Inductive ToServer :=
  | ActionsToServer (actions : list Action.t)
  | EndTurnMessage
  | InterruptMessage
  | InstructionMessage (text : string)
  | InstructionDoneMessage (uuid : string)
  | PositiveFeedbackMessage
  | NegativeFeedbackMessage
  | PongMessage
  | LeaveMessage.

(** Modelled from the spec: the kinds of [MessageFromServer] that
    [_handle_message] tests, with the payload it reads. *)
Inductive FromServer :=
  | ACTIONS (actions : list Action.t)
  | STATE_SYNC (state : StateSync.t)
  | GAME_STATE (turn_state : TurnState.t)
  | MAP_UPDATE (map_update : MapUpdate.t)
  | OBJECTIVE (objectives : list ObjectiveMessage.t)
  | PING
  | LIVE_FEEDBACK
  | STATE_MACHINE_TICK
  | ROOM_MANAGEMENT
  | PROP_UPDATE.

(** What [ws.receive] returns: a timeout, or a frame by [WSMsgType]. *)
Inductive Frame :=
  | NoFrame
  | ERROR
  | CLOSED
  | BINARY
  | TEXT (response : FromServer).

(** [LeadAction.ActionCode], [LeadFeedbackAction.ActionCode] and
    [FollowAction.ActionCode], with the arguments of the constructors. *)
Inductive LeadActionCode :=
  | L_NONE | L_FORWARDS | L_BACKWARDS | L_TURN_LEFT | L_TURN_RIGHT
  | L_END_TURN | L_INTERRUPT | L_SEND_INSTRUCTION (instruction : string)
  | L_MAX.
Inductive LeadFeedbackActionCode :=
  | F_NONE | F_POSITIVE_FEEDBACK | F_NEGATIVE_FEEDBACK | F_MAX.
Inductive FollowActionCode :=
  | W_NONE | W_FORWARDS | W_BACKWARDS | W_TURN_LEFT | W_TURN_RIGHT
  | W_INSTRUCTION_DONE (instruction_uuid : string) | W_MAX.

(** The argument of [Game.step]. *)
Inductive StepAction :=
  | LeadAction (code : LeadActionCode)
  | LeadFeedbackAction (code : LeadFeedbackActionCode)
  | FollowAction (code : FollowActionCode).

(** The web socket as the client sees it: whether it is closed, the
    messages written so far, oldest first, and the frames still to be
    received. *)
Record Socket := mkSocket {
  closed : bool;
  sent : list ToServer;
  inbox : list Frame
}.

(** [class Game] after [_initialize]; [actors] maps an actor id to the
    queue of actions of the mirrored actor.  The attribute [actor], which
    [_reset] sets to [None] and nothing assigns afterwards, is not a field:
    see [message_to_server]. *)
Record Game := mkGame {
  map_update : MapUpdate.t;
  actors : odict.t (list Action.t);
  turn_state : TurnState.t;
  objectives : list ObjectiveMessage.t;
  queued_messages : list ToServer;
  player_id : Z;
  _player_role : Role.t
}.

(** [Cb2Client._send_message]. *)
Definition _send_message (message : ToServer) (ws : Socket) : Socket :=
  if closed ws then ws
  else mkSocket (closed ws) (sent ws ++ [message]) (inbox ws).

(** The [ACTIONS] branch of [_handle_message]. *)
Definition enqueue_action (self : Game) (action : Action.t) : Game :=
  if Action.id action =? player_id self then self
  else
    match odict.get (Action.id action) (actors self) with
    | None => self
    | Some q =>
        mkGame (map_update self)
          (odict.set (Action.id action) (q ++ [action]) (actors self))
          (turn_state self) (objectives self) (queued_messages self)
          (player_id self) (_player_role self)
    end.

(** [Game._handle_message].  [_handle_state_sync] reads [self.state_sync]
    and the [LIVE_FEEDBACK] branch calls [self._live_feedback_handler];
    [Game] has neither attribute, so both raise. *)
Definition _handle_message (message : FromServer) (self : Game)
    : option Game :=
  match message with
  | ACTIONS actions => Some (fold_left enqueue_action actions self)
  | STATE_SYNC _ => None
  | GAME_STATE ts =>
      Some (mkGame (map_update self) (actors self) ts (objectives self)
              (queued_messages self) (player_id self) (_player_role self))
  | MAP_UPDATE m =>
      Some (mkGame m (actors self) (turn_state self) (objectives self)
              (queued_messages self) (player_id self) (_player_role self))
  | OBJECTIVE o =>
      Some (mkGame (map_update self) (actors self) (turn_state self) o
              (queued_messages self) (player_id self) (_player_role self))
  | PING =>
      Some (mkGame (map_update self) (actors self) (turn_state self)
              (objectives self) (queued_messages self ++ [PongMessage])
              (player_id self) (_player_role self))
  | LIVE_FEEDBACK => None
  | STATE_MACHINE_TICK | ROOM_MANAGEMENT | PROP_UPDATE => Some self
  end.

Definition is_tick (message : FromServer) : bool :=
  match message with STATE_MACHINE_TICK => true | _ => false end.

(** [Cb2Client._wait_for_tick] over the frames still to come; running out
    of frames is the timeout.  The result is [waited], the frames left
    and the game. *)
Fixpoint _wait_for_tick (frames : list Frame) (game : Game)
    : option (bool * list Frame * Game) :=
  match frames with
  | [] => Some (false, [], game)
  | NoFrame :: rest | ERROR :: rest | BINARY :: rest =>
      _wait_for_tick rest game
  | CLOSED :: rest => Some (false, rest, game)
  | TEXT response :: rest =>
      game ← _handle_message response game;
      if is_tick response then Some (true, rest, game)
      else _wait_for_tick rest game
  end.

Definition _can_act (self : Game) : bool :=
  Role.eqb (_player_role self) (TurnState.turn (turn_state self))
  || Role.eqb (_player_role self) Role.LEADER.

(** [action.message_to_server(self.actor)]: the outer [None] is an
    exception, the inner one the Python value [None].  The four movement
    codes call a method of [self.actor], which is [None]. *)
Definition message_to_server (action : StepAction)
    : option (option ToServer) :=
  match action with
  | LeadAction L_END_TURN => Some (Some EndTurnMessage)
  | LeadAction L_INTERRUPT => Some (Some InterruptMessage)
  | LeadAction (L_SEND_INSTRUCTION i) => Some (Some (InstructionMessage i))
  | LeadAction (L_FORWARDS | L_BACKWARDS | L_TURN_LEFT | L_TURN_RIGHT) =>
      None
  | LeadAction (L_NONE | L_MAX) => Some None
  | LeadFeedbackAction F_POSITIVE_FEEDBACK =>
      Some (Some PositiveFeedbackMessage)
  | LeadFeedbackAction F_NEGATIVE_FEEDBACK =>
      Some (Some NegativeFeedbackMessage)
  | LeadFeedbackAction (F_NONE | F_MAX) => Some None
  | FollowAction (W_INSTRUCTION_DONE u) =>
      Some (Some (InstructionDoneMessage u))
  | FollowAction (W_FORWARDS | W_BACKWARDS | W_TURN_LEFT | W_TURN_RIGHT) =>
      None
  | FollowAction (W_NONE | W_MAX) => Some None
  end.

(** The role and turn checks at the head of [step]: [false] is a
    [ValueError]. *)
Definition step_allowed (action : StepAction) (self : Game) : bool :=
  let turn := TurnState.turn (turn_state self) in
  match action with
  | FollowAction _ =>
      Role.eqb (_player_role self) Role.FOLLOWER
      && Role.eqb turn Role.FOLLOWER
  | LeadAction _ =>
      Role.eqb (_player_role self) Role.LEADER && Role.eqb turn Role.LEADER
  | LeadFeedbackAction _ =>
      Role.eqb (_player_role self) Role.LEADER
      && Role.eqb turn Role.FOLLOWER
  end.

(** [while not self._can_act(): waited, reason = _wait_for_tick();
    assert waited].  Every successful wait consumes a frame, so
    [S (length frames)] rounds are enough. *)
Fixpoint wait_until_can_act (fuel : nat) (frames : list Frame) (game : Game)
    : option (list Frame * Game) :=
  if _can_act game then Some (frames, game)
  else
    match fuel with
    | O => None
    | S fuel' =>
        '(waited, frames, game) ← _wait_for_tick frames game;
        if waited : bool then wait_until_can_act fuel' frames game
        else None
    end.

(** [Game.step]: the new socket and game; the returned observation is
    the game's [_state()]. *)
Definition step (action : StepAction) (ws : Socket) (self : Game)
    : option (Socket * Game) :=
  if negb (step_allowed action self) then None
  else
    message ← message_to_server action;
    let ws :=
      match message with
      | Some message => _send_message message ws
      | None => ws
      end in
    let ws :=
      fold_left (fun ws message => _send_message message ws)
        (queued_messages self) ws in
    '(waited, frames, self) ← _wait_for_tick (inbox ws) self;
    if waited : bool then
      '(frames, self) ←
        wait_until_can_act (S (length frames)) frames self;
      Some (mkSocket (closed ws) (sent ws) frames, self)
    else None.
End Client.

(** ** Notions used to state the properties *)

(** The square of the Cartesian norm of a displacement: [x**2 + y**2]. *)
Definition cartesian_norm_sq `{W : World} (d : HecsCoord.t) : Q :=
  (Qsquare (fst (HecsCoord_cartesian d))
   + Qsquare (snd (HecsCoord_cartesian d)))%Q.

(** "The Cartesian norm of the displacement is at most 1.001", on squares. *)
Definition norm_le_1_001 `{W : World} (d : HecsCoord.t) : Prop :=
  (cartesian_norm_sq d <= (1001 # 1000) * (1001 # 1000))%Q.

(** ** A concrete world for examples

    A square grid stands in for the hexagonal one: the projection of
    [(a, r, c)] is [(c, r)] and addition is componentwise.  The clock
    advances one millisecond per reading. *)
Definition example_clock (n : nat) : Z := Z.of_nat n * 1000.

Definition example_world_with_clock (clock : nat -> Z) : World := {|
  HecsCoord_add := fun x y =>
    HecsCoord.mk (HecsCoord.a x + HecsCoord.a y) (HecsCoord.r x + HecsCoord.r y)
      (HecsCoord.c x + HecsCoord.c y);
  HecsCoord_cartesian := fun h =>
    (inject_Z (HecsCoord.c h), inject_Z (HecsCoord.r h));
  GameOverMessage := fun game_start sets_collected score =>
    TurnState.mk Role.NONE 0 0 0 game_start sets_collected score true;
  CardSelectAction := fun card_id selected color =>
    Action.mk card_id ActionType.OUTLINE AnimationType.NONE
      (HecsCoord.mk 0 0 0) 0 (if selected then 6 # 100 else 0)
      (match color with Some c => c | None => Color.blue end) (2 # 10) 0;
  datetime_now := clock;
  random_card := fun n =>
    Card.mk (1000 + Z.of_nat n) (HecsCoord.mk 0 (Z.of_nat n) 100)
      (Z.of_nat n) (Z.of_nat n) (Z.of_nat n) false
|}.

Definition example_world : World := example_world_with_clock example_clock.

(** A movement or presentation action of the given type. *)
Definition example_action (id : Z) (ty : ActionType.t) (d : HecsCoord.t)
    (rotation : Q) : Action.t :=
  Action.mk id ty AnimationType.NONE d rotation 0 (Color.mk 0 0 0 0) 0 0.

Definition example_turn : TurnState.t :=
  TurnUpdate Role.LEADER 5 6 60000000 0 0 0.

Definition example_provider : MapProvider.t :=
  MapProvider.mk 10 10 [] [] [] 0.

(** A leader (id 1) and a follower (id 2), both admitted, drained and idle. *)
Definition example_leader : Actor.t :=
  Actor.__init__ 1 AssetId.PLAYER Role.LEADER (HecsCoord.mk 0 0 0).
Definition example_follower : Actor.t :=
  Actor.__init__ 2 AssetId.FOLLOWER_BOT Role.FOLLOWER (HecsCoord.mk 0 5 5).

Definition example_state : State.t :=
  State.mk [(1, example_leader); (2, example_follower)] example_provider []
    (<[1 := false]> (<[2 := false]> ∅))
    (MapProvider.map example_provider)
    (<[1 := false]> (<[2 := false]> ∅))
    (<[1 := true]> (<[2 := true]> ∅))
    (<[1 := []]> (<[2 := []]> ∅))
    0
    (<[1 := []]> (<[2 := []]> ∅))
    example_turn [] false 3.

(** The part of the room that objective handling must not touch: the turn
    state and its per-actor queues, the actor table (hence every actor's
    location and heading), and the map provider with the map derived from
    it. *)
Definition same_turn_and_map (s s' : State.t) : Prop :=
  State._turn_state s' = State._turn_state s
  /\ State._turn_history s' = State._turn_history s
  /\ State._actors s' = State._actors s
  /\ State._map_provider s' = State._map_provider s
  /\ State._map_update s' = State._map_update s
  /\ State._map_stale s' = State._map_stale s.

(** Every actor of the room has its objectives marked stale. *)
Definition objectives_stale_for_all (s : State.t) : Prop :=
  forall actor_id, In actor_id (odict.keys (State._actors s)) ->
    State._objectives_stale s !! actor_id = Some true.

(** ** What a drain depends on *)

(** The player's map is stale; a player without a bit counts as stale. *)
Definition map_is_stale (player_id : Z) (s : State.t) : bool :=
  match State._map_stale s !! player_id with
  | Some false => false
  | _ => true
  end.

(** The player's objectives are stale; a player without a bit counts as
    stale. *)
Definition objectives_are_stale (player_id : Z) (s : State.t) : bool :=
  match State._objectives_stale s !! player_id with
  | Some false => false
  | _ => true
  end.

(** The player's outbox of pending actions. *)
Definition outbox (player_id : Z) (s : State.t) : list Action.t :=
  match State._action_history s !! player_id with
  | Some actions => actions
  | None => []
  end.

(** The drain priority as the specification words it: map update, state
    sync, actions, objectives when stale, one turn state, nothing. *)
Definition specified_drain (player_id : Z) (s : State.t)
    : option MessageFromServer :=
  if map_is_stale player_id s
  then Some (MapUpdateFromServer (State._map_update s))
  else if negb (bool_decide (State._synced s !! player_id = Some true))
  then StateSyncFromServer <$> state player_id s
  else if nonempty (outbox player_id s)
  then Some (ActionsFromServer (outbox player_id s))
  else if objectives_are_stale player_id s
  then Some (ObjectivesFromServer (State._objectives s))
  else GameStateFromServer <$> head (turn_queue player_id (State._turn_history s)).

(** The drain priority of the code: as above, but stale objectives are sent
    only when the list of objectives is not empty. *)
Definition drain_priority (player_id : Z) (s : State.t)
    : option MessageFromServer :=
  if map_is_stale player_id s
  then Some (MapUpdateFromServer (State._map_update s))
  else if negb (bool_decide (State._synced s !! player_id = Some true))
  then StateSyncFromServer <$> state player_id s
  else if nonempty (outbox player_id s)
  then Some (ActionsFromServer (outbox player_id s))
  else if objectives_are_stale player_id s && nonempty (State._objectives s)
  then Some (ObjectivesFromServer (State._objectives s))
  else GameStateFromServer <$> head (turn_queue player_id (State._turn_history s)).

(** The message of a drain is a state sync. *)
Definition is_state_sync (m : option MessageFromServer) : bool :=
  match m with Some (StateSyncFromServer _) => true | _ => false end.

(** The result of a drain, with the room marked done afterwards. *)
Definition then_end_game {A} (r : A * State.t) : A * State.t :=
  (r.1, end_game r.2).

(** The leader's objectives are stale, no objective was ever sent, and one
    turn state waits in the leader's queue. *)
Definition example_state_stale_objectives : State.t :=
  State.with_turn_history (<[1 := [example_turn]]> (<[2 := []]> ∅))
    (State.with_objectives_stale (<[1 := true]> (<[2 := false]> ∅))
       example_state).

(** The room of [example_state] when the game has run out of turns. *)
Definition example_state_out_of_turns : State.t :=
  State.with_turn_state (TurnUpdate Role.FOLLOWER 10 (-1) 60000000 0 0 0)
    example_state.

(** The leader of [example_state], on its own turn and with moves left, has
    queued a TRANSLATE two cells long. *)
Definition example_long_step : Action.t :=
  example_action 1 ActionType.TRANSLATE (HecsCoord.mk 0 0 2) 0.

Definition example_state_long_step : State.t :=
  State.with_actors
    [(1, Actor.add_action example_long_step example_leader);
     (2, example_follower)]
    example_state.

(** The same leader has queued a TRANSLATE whose displacement is
    [HecsCoord(0, 0, 10**155)]: a well-formed coordinate, far beyond any
    map, whose square does not fit a float. *)
Definition example_huge_step : Action.t :=
  example_action 1 ActionType.TRANSLATE (HecsCoord.mk 0 0 (10 ^ 155)) 0.

Definition example_state_huge_step : State.t :=
  State.with_actors
    [(1, Actor.add_action example_huge_step example_leader);
     (2, example_follower)]
    example_state.

(** The leader of [example_state] with a fresh map but everything else
    pending: not synced, an action in the outbox, stale objectives with one
    objective, and a queued turn state. *)
Definition example_objective : ObjectiveMessage.t :=
  ObjectiveMessage.mk Role.LEADER "go north" "u1" false false.

Definition example_state_busy : State.t :=
  State.with_synced (<[1 := false]> (<[2 := true]> ∅))
    (State.with_action_history
       (<[1 := [example_action 1 ActionType.TRANSLATE (HecsCoord.mk 0 0 1) 0]]>
          (<[2 := []]> ∅))
       (State.with_objectives [example_objective]
          example_state_stale_objectives)).

(** ** Well-formed rooms *)

(** Every actor of the room is filed under its own id and has an outbox, as
    [create_actor] arranges and [free_actor] preserves; [record_action]
    relies on it. *)
Definition outboxes_ready (s : State.t) : Prop :=
  forall k actor, odict.get k (State._actors s) = Some actor ->
    Actor.actor_id actor = k /\ is_Some (State._action_history s !! k).

(** The ids of a list of cards. *)
Definition card_ids (cs : list Card.t) : list Z := List.map Card.id cs.

(** The cards whose id is not in [ids]. *)
Definition cards_without (ids : list Z) (cs : list Card.t) : list Card.t :=
  List.filter (fun c => negb (existsb (Z.eqb (Card.id c)) ids)) cs.

(** The provider after [remove_card] for each of the cards, in order. *)
Definition removal (cs : list Card.t) (mp : MapProvider.t) : MapProvider.t :=
  fold_left (fun mp c => MapProvider.remove_card (Card.id c) mp) cs mp.

(** The turn state [update] records when a set is collected. *)
Definition turn_state_after_set (ts : TurnState.t) : TurnState.t :=
  TurnUpdate (TurnState.turn ts) (TurnState.moves_remaining ts)
    (TurnState.turns_left ts + added_turns (TurnState.sets_collected ts))
    (TurnState.turn_end ts) (TurnState.game_start ts)
    (TurnState.sets_collected ts + 1) (TurnState.score ts + 1).

(** The bonus table of the specification: 0 -> 5, 1 or 2 -> 4, 3 or 4 -> 3,
    otherwise 0. *)
Definition bonus_table (sets_collected bonus : Z) : Prop :=
  (sets_collected = 0 -> bonus = 5)
  /\ (sets_collected = 1 \/ sets_collected = 2 -> bonus = 4)
  /\ (sets_collected = 3 \/ sets_collected = 4 -> bonus = 3)
  /\ (sets_collected < 0 \/ 4 < sets_collected -> bonus = 0).

(** Every actor of the room has its map marked stale. *)
Definition map_stale_for_all (s : State.t) : Prop :=
  forall actor_id, In actor_id (odict.keys (State._actors s)) ->
    State._map_stale s !! actor_id = Some true.

(** The newest entry of every actor's turn queue is [ts]. *)
Definition turn_state_queued_for_all (ts : TurnState.t) (s : State.t) : Prop :=
  forall actor_id, In actor_id (odict.keys (State._actors s)) ->
    exists q, State._turn_history s !! actor_id = Some (q ++ [ts]).

(** The room of [example_state] with four cards on the map, the first three
    selected and pairwise different in colour, shape and count. *)
Definition example_cards : list Card.t :=
  [Card.mk 11 (HecsCoord.mk 0 1 1) 0 0 1 true;
   Card.mk 12 (HecsCoord.mk 0 2 2) 1 1 2 true;
   Card.mk 13 (HecsCoord.mk 0 3 3) 2 2 3 true;
   Card.mk 14 (HecsCoord.mk 0 4 4) 0 1 2 false].

Definition example_state_valid_set : State.t :=
  State.with_map_provider (MapProvider.mk 10 10 [] example_cards [] 0)
    example_state.

(** ** Reachable rooms *)

(** The invariant of the turn state. *)
Definition moves_ok (s : State.t) : Prop :=
  0 <= TurnState.moves_remaining (State._turn_state s).

(** The states a room goes through: it starts from [State.__init__], and
    every entry point of the engine takes it further: an iteration of the
    tick loop while the room is not done, a packet from a client, the
    admission or departure of an actor, a drain. *)
Inductive reachable `{W : World} : State.t -> Prop :=
  | reachable_init map_provider spawn_points :
      reachable (State_init map_provider spawn_points)
  | reachable_update current_set_invalid s current_set_invalid' s' :
      reachable s ->
      State._done s = false ->
      update_iteration current_set_invalid s = Some (current_set_invalid', s') ->
      reachable s'
  | reachable_handle_packet id message new_uuid s s' :
      reachable s ->
      handle_packet id message new_uuid s = Some s' ->
      reachable s'
  | reachable_create_actor role new_id s :
      reachable s ->
      reachable (create_actor role new_id s).2
  | reachable_free_actor actor_id s :
      reachable s ->
      reachable (free_actor actor_id s)
  | reachable_drain_message player_id s message s' :
      reachable s ->
      drain_message player_id s = Some (message, s') ->
      reachable s'.

(** The role that is not [role], as [end_turn_if_over] computes it. *)
Definition opposite_role (role : Role.t) : Role.t :=
  if Role.eqb role Role.FOLLOWER then Role.LEADER else Role.FOLLOWER.

(** The invariant carried along every reachable room. *)
Definition room_ok (s : State.t) : Prop := moves_ok s /\ outboxes_ready s.

(** [s'] has the turn state and the actors of [s] and an outbox wherever [s]
    has one: what the operations that only send or mark things guarantee. *)
Definition keeps_room (s s' : State.t) : Prop :=
  State._turn_state s' = State._turn_state s
  /\ State._actors s' = State._actors s
  /\ forall k, is_Some (State._action_history s !! k) ->
               is_Some (State._action_history s' !! k).

(** A clock that reaches the end of the first turn, one minute after the
    room was created, on its sixth reading. *)
Definition expiry_clock (n : nat) : Z :=
  match n with
  | 0%nat | 1%nat | 2%nat => 0
  | 3%nat => 100
  | 4%nat => 59999999
  | _ => 60000000
  end.

Definition expiry_world : World := example_world_with_clock expiry_clock.

(** A unit step of actor 1. *)
Definition example_walk : Action.t :=
  example_action 1 ActionType.TRANSLATE (HecsCoord.mk 0 0 1) 0.

(** A fresh room that the leader has joined as actor 1, and where the
    leader's client has submitted [example_walk]. *)
Definition example_room_with_walk `{W : World} : option State.t :=
  handle_packet 1 (ACTIONS [example_walk]) ""
    (create_actor Role.LEADER 1
       (State_init example_provider [HecsCoord.mk 0 0 0])).2.

(** ** A concrete client session *)

(** The number of Pong messages among the messages written to the socket. *)
Definition count_pongs (l : list Client.ToServer) : nat :=
  length (List.filter
            (fun m => match m with Client.PongMessage => true | _ => false end)
            l).

(** The number of PING frames among the frames received. *)
Definition count_pings (l : list Client.Frame) : nat :=
  length (List.filter
            (fun f =>
               match f with Client.TEXT Client.PING => true | _ => false end)
            l).

(** The leader's mirror at the start of the leader's turn. *)
Definition example_game : Client.Game :=
  Client.mkGame (MapProvider.map example_provider) [(1, []); (2, [])]
    example_turn [] [] 1 Role.LEADER.

(** An open socket on which the server sends one PING and then three
    ticks. *)
Definition example_socket : Client.Socket :=
  Client.mkSocket false []
    [Client.TEXT Client.PING;
     Client.TEXT Client.STATE_MACHINE_TICK;
     Client.TEXT Client.STATE_MACHINE_TICK;
     Client.TEXT Client.STATE_MACHINE_TICK].

(** Three calls of [step], each sending an instruction. *)
Definition example_three_steps : option (Client.Socket * Client.Game) :=
  '(ws, game) ←
    Client.step (Client.LeadAction (Client.L_SEND_INSTRUCTION "one"))
      example_socket example_game;
  '(ws, game) ←
    Client.step (Client.LeadAction (Client.L_SEND_INSTRUCTION "two")) ws game;
  Client.step (Client.LeadAction (Client.L_SEND_INSTRUCTION "three")) ws game.

(** Every outbox of [h] is still in [h'], with further actions behind the
    old ones; for the ids in [keys] these include all of [needed]. *)
Definition outboxes_extended (needed : list Action.t) (keys : list Z)
    (h h' : gmap Z (list Action.t)) : Prop :=
  forall k old, h !! k = Some old ->
    exists extra,
      h' !! k = Some (old ++ extra)
      /\ (In k keys -> forall a, In a needed -> In a extra).

(** The de-select actions [update] emits for the cards of a collected
    set. *)
Definition deselect_actions `{W : World} (cs : list Card.t) : list Action.t :=
  List.map (fun c => CardSelectAction (Card.id c) false None) cs.

(** ** Code beside the entry points above *)

(** [dataclasses.replace(action, border_color=...)]. *)
Definition with_border_color (c : Color.t) (action : Action.t) : Action.t :=
  Action.mk (Action.id action) (Action.action_type action)
    (Action.animation_type action) (Action.displacement action)
    (Action.rotation action) (Action.border_radius action) c
    (Action.duration_s action) (Action.expiration action).

(** [messages/action.py], [CensorActionForFollower]; the follower is only
    printed. *)
Definition CensorActionForFollower (action : Action.t) : Action.t :=
  if Color.eqb (Action.border_color action) Color.red
  then with_border_color Color.blue action
  else action.

(** [n] calls of [Actor.step] in a row. *)
Fixpoint step_n `{W : World} (n : nat) (actor : Actor.t) : Actor.t :=
  match n with
  | O => actor
  | S n' => step_n n' (Actor.step actor)
  end.

(** [State.has_pending_messages]: the loop returns at the first actor with
    something pending; a missing outbox, stale bit or turn queue is a
    [KeyError]. *)
Definition has_pending_messages (s : State.t) : option bool :=
  fold_left
    (fun acc actor_id =>
       found ← acc;
       if found : bool then Some true
       else
         synced ← is_synced actor_id s;
         if negb synced then Some true
         else
           history ← State._action_history s !! actor_id;
           if nonempty history then Some true
           else
             stale ← State._objectives_stale s !! actor_id;
             if stale : bool then Some true
             else
               queue ← State._turn_history s !! actor_id;
               if nonempty queue then Some true else Some false)
    (odict.keys (State._actors s)) (Some false).

(** What is still to be drained for a player: one for a stale map, one for
    a missing sync, one for a non-empty outbox, one for stale objectives,
    and one for each queued turn state. *)
Definition pending (player_id : Z) (s : State.t) : nat :=
  ((if map_is_stale player_id s then 1 else 0)
   + (if bool_decide (State._synced s !! player_id = Some true) then 0 else 1)
   + (if nonempty (outbox player_id s) then 1 else 0)
   + (if objectives_are_stale player_id s then 1 else 0)
   + length (turn_queue player_id (State._turn_history s)))%nat.

(** The actor table is a dictionary keyed by the actors' own ids, and every
    actor has an outbox and a synced bit. *)
Definition table_ok (s : State.t) : Prop :=
  NoDup (odict.keys (State._actors s))
  /\ forall k actor, odict.get k (State._actors s) = Some actor ->
       Actor.actor_id actor = k
       /\ is_Some (State._action_history s !! k)
       /\ is_Some (State._synced s !! k).

(** [s'] has the actors of [s] under the same keys, each with the id it had,
    and an outbox and a synced bit wherever [s] has one. *)
Definition keeps_table (s s' : State.t) : Prop :=
  odict.keys (State._actors s') = odict.keys (State._actors s)
  /\ (forall k actor', odict.get k (State._actors s') = Some actor' ->
        exists actor,
          odict.get k (State._actors s) = Some actor
          /\ Actor.actor_id actor' = Actor.actor_id actor)
  /\ (forall k, is_Some (State._action_history s !! k) ->
                is_Some (State._action_history s' !! k))
  /\ (forall k, is_Some (State._synced s !! k) ->
                is_Some (State._synced s' !! k)).

(** A frame that [_wait_for_tick] reads without returning: anything but a
    close and a tick. *)
Definition passed_frame (f : Client.Frame) : Prop :=
  f <> Client.CLOSED /\ f <> Client.TEXT Client.STATE_MACHINE_TICK.

(** [db_tools/print_instructions.py], the line-filling loop of
    [draw_wrapped]: [words] is [instruction_text.split(" ")] and the result
    is the list [lines] that is then rendered, one line under the other.
    The rendering with pygame is not modelled. *)
Definition draw_wrapped_lines (words : list string) (max_width : nat)
    : list string :=
  let '(lines, current_line) :=
    fold_left
      (fun '(lines, current_line) word =>
         if (max_width <? String.length current_line + String.length word)%nat
         then (lines ++ [current_line], word)
         else (lines, String.append current_line (String.append " " word)))
      words ([], EmptyString) in
  lines ++ [current_line].

(** * Properties *)

(** ** Basic facts about the enumerations and the float tests *)

Lemma Role_eqb_spec (x y : Role.t) : reflect (x = y) (Role.eqb x y).
Proof. destruct x, y; constructor; congruence. Qed.

Lemma Role_eqb_refl (x : Role.t) : Role.eqb x x = true.
Proof. now destruct x. Qed.

Lemma ActionType_eqb_spec (x y : ActionType.t) :
  reflect (x = y) (ActionType.eqb x y).
Proof. destruct x, y; constructor; congruence. Qed.

Lemma sqrt_gt_false (q t : Q) : sqrt_gt q t = false <-> (q <= t * t)%Q.
Proof.
  unfold sqrt_gt. rewrite negb_false_iff. apply Qle_bool_iff.
Qed.

Lemma Qgt_bool_true (x y : Q) : Qgt_bool x y = true <-> (y < x)%Q.
Proof.
  unfold Qgt_bool. rewrite negb_true_iff.
  split.
  - intros Hb. apply Qnot_le_lt. intros Hle.
    apply Qle_bool_iff in Hle. congruence.
  - intros Hlt. destruct (Qle_bool x y) eqn:E; [|reflexivity].
    apply Qle_bool_iff in E. exfalso. exact (Qlt_not_le _ _ Hlt E).
Qed.

Lemma Qgt_bool_false (x y : Q) : Qgt_bool x y = false <-> (x <= y)%Q.
Proof.
  unfold Qgt_bool. rewrite negb_false_iff. apply Qle_bool_iff.
Qed.

(** ** C1: action validation *)

Lemma Qsquare_nonneg (x : Q) : (0 <= Qsquare x)%Q.
Proof.
  unfold Qsquare, Qle. destruct x as [n d]. simpl. nia.
Qed.

Lemma float_pow2_Some (x q : Q) :
  float_pow2 x = Some q -> q = Qsquare x /\ (Qsquare x < float_overflow)%Q.
Proof.
  unfold float_pow2.
  destruct (Qle_bool float_overflow (Qsquare x)) eqn:E; [discriminate|].
  intros [= <-]. split; [reflexivity|].
  apply Qnot_le_lt. intros Hle. apply Qle_bool_iff in Hle. congruence.
Qed.

Lemma float_pow2_small (x : Q) :
  (Qsquare x < float_overflow)%Q -> float_pow2 x = Some (Qsquare x).
Proof.
  intros Hlt. unfold float_pow2.
  destruct (Qle_bool float_overflow (Qsquare x)) eqn:E; [|reflexivity].
  apply Qle_bool_iff in E. exfalso. exact (Qlt_not_le _ _ Hlt E).
Qed.

Lemma float_pow2_None (x : Q) :
  float_pow2 x = None <-> (float_overflow <= Qsquare x)%Q.
Proof.
  unfold float_pow2. rewrite <- Qle_bool_iff.
  destruct (Qle_bool float_overflow (Qsquare x)); split; congruence.
Qed.

Section ValidAction.
Context `{W : World}.

Lemma valid_action_translate actor_id action :
  Action.action_type action = ActionType.TRANSLATE ->
  valid_action actor_id action
  = (x2 ← float_pow2 (fst (HecsCoord_cartesian (Action.displacement action)));
     y2 ← float_pow2 (snd (HecsCoord_cartesian (Action.displacement action)));
     Some (negb (sqrt_gt (x2 + y2) (1001 # 1000)))).
Proof.
  intros Hty. unfold valid_action. rewrite Hty. simpl.
  destruct (float_pow2 _) as [x2|]; simpl; [|reflexivity].
  destruct (float_pow2 _) as [y2|]; simpl; [|reflexivity].
  now destruct (sqrt_gt _ _).
Qed.

(** A displacement within the step length is far from the overflow. *)
Lemma norm_le_no_overflow (d : HecsCoord.t) :
  norm_le_1_001 d ->
  float_pow2 (fst (HecsCoord_cartesian d))
  = Some (Qsquare (fst (HecsCoord_cartesian d)))
  /\ float_pow2 (snd (HecsCoord_cartesian d))
     = Some (Qsquare (snd (HecsCoord_cartesian d))).
Proof.
  unfold norm_le_1_001, cartesian_norm_sq. intros Hle.
  pose proof (Qsquare_nonneg (fst (HecsCoord_cartesian d))) as Hx.
  pose proof (Qsquare_nonneg (snd (HecsCoord_cartesian d))) as Hy.
  assert (Hb : ((1001 # 1000) * (1001 # 1000) < float_overflow)%Q)
    by (vm_compute; reflexivity).
  split; apply float_pow2_small.
  - eapply Qle_lt_trans; [|exact Hb]. eapply Qle_trans; [|exact Hle].
    rewrite <- (Qplus_0_r (Qsquare (fst (HecsCoord_cartesian d)))) at 1.
    apply Qplus_le_compat; [apply Qle_refl|exact Hy].
  - eapply Qle_lt_trans; [|exact Hb]. eapply Qle_trans; [|exact Hle].
    rewrite <- (Qplus_0_l (Qsquare (snd (HecsCoord_cartesian d)))) at 1.
    apply Qplus_le_compat; [exact Hx|apply Qle_refl].
Qed.

(** [valid_action] raises exactly on a TRANSLATE one of whose squares
    overflows. *)
Lemma valid_action_raises actor_id action :
  valid_action actor_id action = None
  <-> Action.action_type action = ActionType.TRANSLATE
      /\ ((float_overflow
           <= Qsquare (fst (HecsCoord_cartesian (Action.displacement action))))%Q
          \/ (float_overflow
              <= Qsquare
                   (snd (HecsCoord_cartesian (Action.displacement action))))%Q).
Proof.
  unfold valid_action.
  destruct (ActionType_eqb_spec (Action.action_type action)
              ActionType.TRANSLATE) as [Hty|Hty].
  - rewrite <- !float_pow2_None.
    destruct (float_pow2 (fst _)) as [x2|]; simpl.
    + destruct (float_pow2 (snd _)) as [y2|]; simpl.
      * destruct (sqrt_gt _ _); split; try discriminate;
          intros [_ [H|H]]; discriminate H.
      * split; auto.
    + split; auto.
  - split; [discriminate|]. intros [H _]. contradiction.
Qed.

Lemma valid_action_rotate actor_id action :
  Action.action_type action = ActionType.ROTATE ->
  valid_action actor_id action
  = Some (negb (Qgt_bool (Action.rotation action) (6001 # 100))).
Proof.
  intros Hty. unfold valid_action. rewrite Hty. simpl.
  now destruct (Qgt_bool _ _).
Qed.

Lemma valid_action_other actor_id action :
  Action.action_type action <> ActionType.TRANSLATE ->
  Action.action_type action <> ActionType.ROTATE ->
  valid_action actor_id action = Some true.
Proof.
  intros Ht Hr. unfold valid_action.
  destruct (Action.action_type action); simpl; congruence.
Qed.

(** C1 (amended).  [valid_action] accepts a TRANSLATE exactly when the
    Cartesian norm of its displacement is at most 1.001; it accepts a ROTATE
    whose rotation is at most 60.01 in absolute value and rejects one whose
    rotation exceeds 60.01; and it accepts every action of any other type. *)
Theorem valid_action_by_type actor_id action :
  (Action.action_type action = ActionType.TRANSLATE ->
   (valid_action actor_id action = Some true
    <-> norm_le_1_001 (Action.displacement action)))
  /\ (Action.action_type action = ActionType.ROTATE ->
      ((Qabs (Action.rotation action) <= 6001 # 100)%Q ->
       valid_action actor_id action = Some true)
      /\ ((6001 # 100 < Action.rotation action)%Q ->
          valid_action actor_id action = Some false))
  /\ (Action.action_type action <> ActionType.TRANSLATE ->
      Action.action_type action <> ActionType.ROTATE ->
      valid_action actor_id action = Some true).
Proof.
  split; [|split].
  - intros Hty. rewrite (valid_action_translate _ _ Hty). split.
    + destruct (float_pow2 (fst _)) as [x2|] eqn:Ex; [|discriminate].
      destruct (float_pow2 (snd _)) as [y2|] eqn:Ey; [|discriminate].
      simpl. intros [= Hb]. apply negb_true_iff in Hb.
      apply float_pow2_Some in Ex. apply float_pow2_Some in Ey.
      destruct Ex as [-> _]. destruct Ey as [-> _].
      now apply sqrt_gt_false.
    + intros Hle. destruct (norm_le_no_overflow _ Hle) as [-> ->]. simpl.
      f_equal. apply negb_true_iff. now apply sqrt_gt_false.
  - intros Hty. rewrite (valid_action_rotate _ _ Hty). split.
    + intros Habs. f_equal. rewrite negb_true_iff. apply Qgt_bool_false.
      eapply Qle_trans; [apply Qle_Qabs | exact Habs].
    + intros Hgt. f_equal. rewrite negb_false_iff. now apply Qgt_bool_true.
  - apply valid_action_other.
Qed.

End ValidAction.

(** C1, as stated, fails: an INIT action is neither a TRANSLATE nor a
    ROTATE, and [valid_action] accepts it. *)
Lemma valid_action_accepts_INIT :
  let action :=
    example_action 1 ActionType.INIT (HecsCoord.mk 0 40 40) 0 in
  @valid_action example_world 1 action = Some true
  /\ ~ ((Action.action_type action = ActionType.TRANSLATE
         /\ @norm_le_1_001 example_world (Action.displacement action))
        \/ (Action.action_type action = ActionType.ROTATE
            /\ (Qabs (Action.rotation action) <= 6001 # 100)%Q)).
Proof.
  split; [reflexivity|].
  intros [[Hty _] | [Hty _]]; discriminate Hty.
Qed.

(** The instance of C1's theorem at a unit step, a quarter turn and a
    DEATH action. *)
Lemma valid_action_by_type_witness :
  @valid_action example_world 1
    (example_action 1 ActionType.TRANSLATE (HecsCoord.mk 0 0 1) 0) = Some true
  /\ @valid_action example_world 1
       (example_action 1 ActionType.ROTATE (HecsCoord.mk 0 0 0) 90)
     = Some false
  /\ @valid_action example_world 1
       (example_action 1 ActionType.DEATH (HecsCoord.mk 0 0 0) 0) = Some true.
Proof.
  split; [|split].
  - apply (proj1 (@valid_action_by_type example_world 1 _)); [reflexivity|].
    unfold norm_le_1_001. vm_compute. discriminate.
  - apply (proj1 (proj2 (@valid_action_by_type example_world 1 _)));
      [reflexivity|]. reflexivity.
  - apply (proj2 (proj2 (@valid_action_by_type example_world 1 _)));
      discriminate.
Defined.

(** ** C9: discriminants of the event-origin enumeration *)

(** C9 (the code at the failing pair).  LEADER and FOLLOWER are two names of
    [EventOrigin] bound to the same integer; every other pair of distinct
    names has distinct integers. *)
Theorem EventOrigin_value_collision :
  EventOrigin.LEADER <> EventOrigin.FOLLOWER
  /\ EventOrigin.value EventOrigin.LEADER
     = EventOrigin.value EventOrigin.FOLLOWER
  /\ forall x y : EventOrigin.name,
       x <> y -> EventOrigin.value x = EventOrigin.value y ->
       (x = EventOrigin.LEADER /\ y = EventOrigin.FOLLOWER)
       \/ (x = EventOrigin.FOLLOWER /\ y = EventOrigin.LEADER).
Proof.
  split; [discriminate|]. split; [reflexivity|].
  intros x y Hne Hv. destruct x, y; simpl in Hv; try discriminate Hv;
    try (exfalso; apply Hne; reflexivity); auto.
Qed.

(** ** Dictionaries *)

Lemma odict_get_set_eq {V} (k : Z) (v : V) (d : odict.t V) :
  odict.get k (odict.set k v d) = Some v.
Proof.
  induction d as [|[k' v'] d IH]; simpl.
  - now rewrite Z.eqb_refl.
  - destruct (k =? k') eqn:E; simpl; rewrite E; auto.
Qed.

Lemma odict_get_set_ne {V} (k j : Z) (v : V) (d : odict.t V) :
  k <> j -> odict.get j (odict.set k v d) = odict.get j d.
Proof.
  intros Hne. induction d as [|[k' v'] d IH]; simpl.
  - destruct (j =? k) eqn:E; [apply Z.eqb_eq in E; congruence | reflexivity].
  - destruct (k =? k') eqn:E; simpl.
    + apply Z.eqb_eq in E. subst k'.
      destruct (j =? k) eqn:E'; [apply Z.eqb_eq in E'; congruence|reflexivity].
    + destruct (j =? k'); auto.
Qed.

Lemma odict_keys_set_present {V} (k : Z) (v : V) (d : odict.t V) :
  odict.mem k d = true -> odict.keys (odict.set k v d) = odict.keys d.
Proof.
  unfold odict.mem, odict.keys.
  induction d as [|[k' v'] d IH]; simpl; [discriminate|].
  destruct (k =? k') eqn:E; simpl; [reflexivity|].
  intros H. f_equal. now apply IH.
Qed.

Lemma odict_mem_get {V} (k : Z) (v : V) (d : odict.t V) :
  odict.get k d = Some v -> odict.mem k d = true.
Proof. unfold odict.mem. now intros ->. Qed.

Lemma odict_get_keys {V} (k : Z) (d : odict.t V) :
  In k (odict.keys d) -> exists v, odict.get k d = Some v.
Proof.
  unfold odict.keys. induction d as [|[k' v'] d IH]; simpl; [tauto|].
  intros [Heq | Hin].
  - subst. rewrite Z.eqb_refl. eauto.
  - destruct (k =? k'); eauto.
Qed.

(** ** C10: actions submitted for another actor *)

(** C10.  An action whose id differs from the submitter's is discarded:
    [handle_action] returns the state with only the submitter's synced bit
    cleared, so no actor's queue changes.  Whenever [handle_action] changes
    the actor table the ids agree, and when they agree the action is
    appended to the submitter's own queue. *)
Theorem handle_action_checks_id (actor_id : Z) (action : Action.t)
    (s : State.t) :
  (Action.id action <> actor_id ->
   handle_action actor_id action s = Some (desync actor_id s)
   /\ State._actors (desync actor_id s) = State._actors s
   /\ State._synced (desync actor_id s) !! actor_id = Some false)
  /\ (forall s', handle_action actor_id action s = Some s' ->
        State._actors s' <> State._actors s -> Action.id action = actor_id)
  /\ (Action.id action = actor_id ->
      forall actor, odict.get actor_id (State._actors s) = Some actor ->
        handle_action actor_id action s
        = Some (State.with_actors
                  (odict.set actor_id
                     (Actor.with_actions (Actor._actions actor ++ [action])
                        actor)
                     (State._actors s)) s)).
Proof.
  unfold handle_action. split; [|split].
  - intros Hne. apply Z.eqb_neq in Hne. rewrite Hne. simpl.
    split; [reflexivity|]. split; [reflexivity|].
    apply lookup_insert_eq.
  - intros s' Hs' Hchg.
    destruct (Action.id action =? actor_id) eqn:E.
    + now apply Z.eqb_eq in E.
    + simpl in Hs'. injection Hs' as <-. now elim Hchg.
  - intros Heq actor Hget. apply Z.eqb_eq in Heq. rewrite Heq. simpl.
    rewrite Hget. reflexivity.
Qed.

(** C10 at a concrete room: the leader (id 1) submits an action addressed to
    the follower (id 2); both queues stay empty and the leader is
    desynced. *)
Lemma handle_action_checks_id_witness :
  let action :=
    example_action 2 ActionType.TRANSLATE (HecsCoord.mk 0 0 1) 0 in
  handle_action 1 action example_state
  = Some (desync 1 example_state)
  /\ State._actors (desync 1 example_state) = State._actors example_state
  /\ State._synced (desync 1 example_state) !! 1 = Some false.
Proof.
  apply (proj1 (handle_action_checks_id 1 _ example_state)).
  discriminate.
Defined.

(** ** C7: objectives leave the turn and the map alone *)

Lemma fold_insert_lookup_notin {V} (v : V) (l : list Z) (m : gmap Z V)
    (k : Z) :
  ~ In k l -> fold_left (fun m k => <[k := v]> m) l m !! k = m !! k.
Proof.
  revert m. induction l as [|x l IH]; intros m Hnin; simpl; [reflexivity|].
  rewrite IH by (simpl in Hnin; tauto).
  apply lookup_insert_ne. simpl in Hnin. intros ->. tauto.
Qed.

Lemma fold_insert_lookup_in {V} (v : V) (l : list Z) (m : gmap Z V) (k : Z) :
  In k l -> fold_left (fun m k => <[k := v]> m) l m !! k = Some v.
Proof.
  revert m. induction l as [|x l IH]; intros m Hin; simpl; [destruct Hin|].
  destruct (in_dec Z.eq_dec k l) as [Hl|Hl].
  - now apply IH.
  - destruct Hin as [->|Hin]; [|tauto].
    rewrite fold_insert_lookup_notin by assumption.
    apply lookup_insert_eq.
Qed.

Lemma mark_objectives_stale_eq (s : State.t) :
  mark_objectives_stale s
  = State.with_objectives_stale
      (fold_left (fun m k => <[k := true]> m) (odict.keys (State._actors s))
         (State._objectives_stale s)) s.
Proof.
  unfold mark_objectives_stale.
  generalize (odict.keys (State._actors s)) as l.
  intros l. revert s. induction l as [|k l IH]; intros s; simpl.
  - now destruct s.
  - rewrite IH. now destruct s.
Qed.

Lemma mark_objectives_stale_frame (s : State.t) :
  same_turn_and_map s (mark_objectives_stale s)
  /\ State._objectives (mark_objectives_stale s) = State._objectives s
  /\ objectives_stale_for_all (mark_objectives_stale s).
Proof.
  rewrite mark_objectives_stale_eq. unfold same_turn_and_map.
  repeat split. intros k Hk. simpl in *.
  now apply fold_insert_lookup_in.
Qed.

(** C7.  For a known actor both handlers return normally.  The state
    returned by [handle_objective] and by [handle_objective_complete] has
    the turn state, the actor table and the map provider of the state it
    started from.  When the sender is the LEADER the objective, with the
    fresh uuid, is appended and every actor's objectives are stale; when it
    is the FOLLOWER the first objective with the given uuid is completed and
    every actor's objectives are stale. *)
Theorem objectives_leave_turn_and_map (id : Z) (objective : ObjectiveMessage.t)
    (new_uuid : string) (objective_complete : ObjectiveCompleteMessage.t)
    (s : State.t) (actor : Actor.t) :
  odict.get id (State._actors s) = Some actor ->
  exists s1 s2,
    handle_objective id objective new_uuid s = Some s1
    /\ handle_objective_complete id objective_complete s = Some s2
    /\ same_turn_and_map s s1
    /\ same_turn_and_map s s2
    /\ (Actor.role actor = Role.LEADER ->
        State._objectives s1
        = State._objectives s
          ++ [ObjectiveMessage.set_uuid new_uuid objective]
        /\ objectives_stale_for_all s1)
    /\ (Actor.role actor = Role.FOLLOWER ->
        State._objectives s2
        = complete_first (ObjectiveCompleteMessage.uuid objective_complete)
            (State._objectives s)
        /\ objectives_stale_for_all s2).
Proof.
  intros Hget. unfold handle_objective, handle_objective_complete.
  rewrite Hget. simpl.
  set (sa := State.with_objectives
               (State._objectives s
                ++ [ObjectiveMessage.set_uuid new_uuid objective]) s).
  set (sb := State.with_objectives
               (complete_first
                  (ObjectiveCompleteMessage.uuid objective_complete)
                  (State._objectives s)) s).
  destruct (mark_objectives_stale_frame sa) as (Fa & Oa & Sa).
  destruct (mark_objectives_stale_frame sb) as (Fb & Ob & Sb).
  assert (Fs : same_turn_and_map s s) by (unfold same_turn_and_map; tauto).
  destruct (Actor.role actor) eqn:Hrole; simpl.
  - exists s, s. repeat split; try apply Fs; discriminate.
  - exists (mark_objectives_stale sa), s.
    split; [reflexivity|]. split; [reflexivity|].
    split; [exact Fa|]. split; [exact Fs|].
    split; [intros _; split; [exact Oa | exact Sa] | discriminate].
  - exists s, (mark_objectives_stale sb).
    split; [reflexivity|]. split; [reflexivity|].
    split; [exact Fs|]. split; [exact Fb|].
    split; [discriminate | intros _; split; [exact Ob | exact Sb]].
Qed.

(** C7 at a concrete room: the leader (id 1) sends an objective. *)
Lemma objectives_leave_turn_and_map_witness :
  exists s1 s2,
    handle_objective 1
      (ObjectiveMessage.mk Role.LEADER "go north" "" false false) "u1"
      example_state = Some s1
    /\ handle_objective_complete 1 (ObjectiveCompleteMessage.mk "u1")
         example_state = Some s2
    /\ same_turn_and_map example_state s1
    /\ same_turn_and_map example_state s2
    /\ State._objectives s1
       = [ObjectiveMessage.mk Role.LEADER "go north" "u1" false false]
    /\ objectives_stale_for_all s1.
Proof.
  destruct (objectives_leave_turn_and_map 1
              (ObjectiveMessage.mk Role.LEADER "go north" "" false false) "u1"
              (ObjectiveCompleteMessage.mk "u1") example_state example_leader
              eq_refl)
    as (s1 & s2 & H1 & H2 & F1 & F2 & HL & _).
  exists s1, s2. destruct (HL eq_refl) as [Ho Hs].
  repeat split; try assumption; apply F1 || apply F2.
Defined.

(** ** C3: the priority of a drain *)

Lemma state_fold_total (d : odict.t Actor.t) (l : list Z)
    (acc : list StateSync.Actor) :
  (forall k, In k l -> In k (odict.keys d)) ->
  exists r,
    fold_left
      (fun acc a =>
         actor_states ← acc;
         actor ← odict.get a d;
         Some (actor_states ++ [actor_state actor]))
      l (Some acc) = Some r.
Proof.
  revert acc. induction l as [|k l IH]; intros acc Hl; simpl.
  - eauto.
  - destruct (odict_get_keys k d) as [v Hv]; [apply Hl; now left|].
    rewrite Hv. simpl. apply IH. intros k' Hk'. apply Hl. now right.
Qed.

(** [State.state] never raises. *)
Lemma state_total (actor_id : Z) (s : State.t) :
  exists sync, state actor_id s = Some sync.
Proof.
  unfold state.
  destruct (state_fold_total (State._actors s)
              (odict.keys (State._actors s)) []) as [r Hr]; [auto|].
  rewrite Hr. simpl. eauto.
Qed.

Lemma drain_turn_state_head (actor_id : Z) (s : State.t) :
  (drain_turn_state actor_id s).1
  = head (turn_queue actor_id (State._turn_history s)).
Proof.
  unfold drain_turn_state.
  now destruct (turn_queue actor_id (State._turn_history s)).
Qed.

Lemma drain_objectives_fst (actor_id : Z) (s : State.t) :
  (drain_objectives actor_id s).1
  = if objectives_are_stale actor_id s then State._objectives s else [].
Proof.
  unfold drain_objectives, objectives_are_stale.
  destruct (State._objectives_stale s !! actor_id) as [[|]|] eqn:Ho; simpl.
  - now rewrite Ho.
  - now rewrite Ho.
  - now rewrite lookup_insert_eq.
Qed.

Lemma drain_objectives_turn_history (actor_id : Z) (s : State.t) :
  State._turn_history (drain_objectives actor_id s).2
  = State._turn_history s.
Proof.
  unfold drain_objectives.
  destruct (State._objectives_stale s !! actor_id) as [[|]|] eqn:Ho; simpl.
  - now rewrite Ho.
  - now rewrite Ho.
  - now rewrite lookup_insert_eq.
Qed.

Lemma drain_objectives_clears (actor_id : Z) (s : State.t) :
  objectives_are_stale actor_id (drain_objectives actor_id s).2 = false
  /\ State._map_stale (drain_objectives actor_id s).2 = State._map_stale s
  /\ State._synced (drain_objectives actor_id s).2 = State._synced s
  /\ State._action_history (drain_objectives actor_id s).2
     = State._action_history s.
Proof.
  unfold drain_objectives, objectives_are_stale.
  destruct (State._objectives_stale s !! actor_id) as [[|]|] eqn:Ho; simpl;
    rewrite ?Ho, ?lookup_insert_eq; simpl;
    rewrite ?Ho, ?lookup_insert_eq; auto.
Qed.

Lemma drain_turn_state_frame (actor_id : Z) (s : State.t) :
  State._objectives_stale (drain_turn_state actor_id s).2
  = State._objectives_stale s
  /\ State._map_stale (drain_turn_state actor_id s).2 = State._map_stale s
  /\ State._synced (drain_turn_state actor_id s).2 = State._synced s
  /\ State._action_history (drain_turn_state actor_id s).2
     = State._action_history s
  /\ turn_queue actor_id (State._turn_history (drain_turn_state actor_id s).2)
     = tl (turn_queue actor_id (State._turn_history s)).
Proof.
  unfold drain_turn_state.
  destruct (turn_queue actor_id (State._turn_history s)) eqn:Hq; simpl;
    repeat split; unfold turn_queue; now rewrite lookup_insert_eq.
Qed.

(** The tail of [drain_message], once the map is fresh, the player synced
    and the outbox empty: the message, and what the tail leaves behind. *)
Lemma drain_message_tail (player_id : Z) (s : State.t) :
  exists s',
    (let '(objectives, s) := drain_objectives player_id s in
     if nonempty objectives
     then Some (Some (ObjectivesFromServer objectives), s)
     else
       let '(turn_state, s) := drain_turn_state player_id s in
       match turn_state with
       | Some turn_state => Some (Some (GameStateFromServer turn_state), s)
       | None => Some (None, s)
       end)
    = Some
        (if objectives_are_stale player_id s && nonempty (State._objectives s)
         then Some (ObjectivesFromServer (State._objectives s))
         else GameStateFromServer <$>
              head (turn_queue player_id (State._turn_history s)),
         s')
    /\ objectives_are_stale player_id s' = false
    /\ State._map_stale s' = State._map_stale s
    /\ State._synced s' = State._synced s
    /\ State._action_history s' = State._action_history s
    /\ turn_queue player_id (State._turn_history s')
       = if objectives_are_stale player_id s && nonempty (State._objectives s)
         then turn_queue player_id (State._turn_history s)
         else tl (turn_queue player_id (State._turn_history s)).
Proof.
  pose proof (drain_objectives_fst player_id s) as Hf.
  pose proof (drain_objectives_turn_history player_id s) as Hh.
  pose proof (drain_objectives_clears player_id s) as (Hc & Hcm & Hcs & Hca).
  destruct (drain_objectives player_id s) as [objectives s1]. simpl in *.
  pose proof (drain_turn_state_head player_id s1) as Ht.
  pose proof (drain_turn_state_frame player_id s1)
    as (Fo & Fm & Fs & Fa & Fq).
  destruct (drain_turn_state player_id s1) as [ts s2]. simpl in *.
  rewrite Hh in Ht, Fq. subst objectives ts.
  assert (Hc2 : objectives_are_stale player_id s2 = false).
  { unfold objectives_are_stale in *. now rewrite Fo. }
  destruct (objectives_are_stale player_id s); simpl.
  - destruct (nonempty (State._objectives s)).
    + exists s1. rewrite Hh. repeat split; auto.
    + exists s2. split; [now destruct (head _)|].
      repeat split; congruence.
  - exists s2. split; [now destruct (head _)|].
    repeat split; congruence.
Qed.

(** C3 (amended).  A drain for a player with a synced bit returns normally
    and yields at most one message, the one [drain_priority] names: the map
    if it is stale, else a state sync if the player is not synced, else the
    pending actions if there are any, else the objectives if they are stale
    and there is at least one, else one queued turn state, else nothing.
    After a state sync the player is synced.  After any drain the map is
    fresh; and once the drain has got past the outbox, with a fresh map, a
    synced player and nothing in the outbox, the objectives are fresh
    afterwards, also when they were stale over an empty list and no
    objectives were sent.  A drain that stops before the turn queue leaves
    it as it is, and one that reaches it takes at most its head. *)
Theorem drain_message_priority (player_id : Z) (s : State.t) (synced : bool) :
  State._synced s !! player_id = Some synced ->
  exists s',
    drain_message player_id s = Some (drain_priority player_id s, s')
    /\ (is_state_sync (drain_priority player_id s) = true ->
        State._synced s' !! player_id = Some true)
    /\ map_is_stale player_id s' = false
    /\ (map_is_stale player_id s = false -> synced = true ->
        nonempty (outbox player_id s) = false ->
        objectives_are_stale player_id s' = false
        /\ turn_queue player_id (State._turn_history s')
           = if objectives_are_stale player_id s
                && nonempty (State._objectives s)
             then turn_queue player_id (State._turn_history s)
             else tl (turn_queue player_id (State._turn_history s)))
    /\ (map_is_stale player_id s = true \/ synced = false
        \/ nonempty (outbox player_id s) = true ->
        State._objectives_stale s' = State._objectives_stale s
        /\ State._turn_history s' = State._turn_history s).
Proof.
  intros Hs.
  unfold drain_message, drain_priority, map_is_stale, drain_map_update.
  destruct (State._map_stale s !! player_id) as [[|]|] eqn:Hm; simpl.
  - rewrite Hm. simpl. eexists; split; [reflexivity|].
    split; [discriminate|]. simpl. rewrite lookup_insert_eq.
    split; [reflexivity|]. split; [discriminate|]. auto.
  - rewrite Hm. simpl. unfold is_synced. simpl. rewrite Hs. simpl.
    destruct synced; simpl.
    + unfold drain_actions, outbox. simpl.
      destruct (State._action_history s !! player_id) as [[|a l]|] eqn:Ha;
        simpl.
      * destruct (drain_message_tail player_id
                    (State.with_action_history
                       (<[player_id := []]> (State._action_history s))
                       (State.with_map_stale (State._map_stale s) s)))
          as (s' & Hs' & Ho' & Hm' & _ & _ & Hq').
        exists s'. split; [exact Hs'|].
        split; [destruct (_ && _); [discriminate|]; now destruct (head _)|].
        simpl in Hm'. rewrite Hm', Hm.
        split; [reflexivity|]. split; [intros _ _ _; auto|].
        intros [H|[H|H]]; discriminate H.
      * eexists; split; [reflexivity|]. split; [discriminate|]. simpl.
        rewrite Hm. split; [reflexivity|]. split; [discriminate|]. auto.
      * destruct (drain_message_tail player_id
                    (State.with_map_stale (State._map_stale s) s))
          as (s' & Hs' & Ho' & Hm' & _ & _ & Hq').
        exists s'. split; [exact Hs'|].
        split; [destruct (_ && _); [discriminate|]; now destruct (head _)|].
        simpl in Hm'. rewrite Hm', Hm.
        split; [reflexivity|]. split; [intros _ _ _; auto|].
        intros [H|[H|H]]; discriminate H.
    + unfold sync_message_for_transmission. simpl.
      change (state player_id (State.with_map_stale (State._map_stale s) s))
        with (state player_id s).
      destruct (state_total player_id s) as [sync Hsync].
      rewrite Hsync. simpl.
      eexists; split; [reflexivity|].
      split; [intros _; simpl; apply lookup_insert_eq|]. simpl. rewrite Hm.
      split; [reflexivity|]. split; [discriminate|]. auto.
  - rewrite lookup_insert_eq. simpl.
    eexists; split; [reflexivity|]. split; [discriminate|]. simpl.
    rewrite lookup_insert_eq.
    split; [reflexivity|]. split; [discriminate|]. auto.
Qed.

(** C3 at two concrete rooms.  In the busy room the leader is not synced
    and has an action, stale objectives and a turn state waiting: the drain
    hands out the state sync, marks the leader synced and leaves the rest
    for later drains.  In the other room the leader's objectives are stale
    over an empty list and a turn state is queued: the drain hands out the
    turn state and the objectives are fresh afterwards. *)
Lemma drain_message_priority_witness :
  (exists sync s',
     drain_message 1 example_state_busy
     = Some (Some (StateSyncFromServer sync), s')
     /\ State._synced s' !! 1 = Some true
     /\ State._objectives_stale s'
        = State._objectives_stale example_state_busy
     /\ State._turn_history s' = State._turn_history example_state_busy)
  /\ exists s',
       drain_message 1 example_state_stale_objectives
       = Some (Some (GameStateFromServer example_turn), s')
       /\ objectives_are_stale 1 s' = false
       /\ turn_queue 1 (State._turn_history s') = [].
Proof.
  split.
  - destruct (drain_message_priority 1 example_state_busy false eq_refl)
      as (s' & Hd & Hsync & _ & _ & Hrest).
    eexists. exists s'. split; [exact Hd|]. split; [now apply Hsync|].
    apply Hrest. right. now left.
  - destruct (drain_message_priority 1 example_state_stale_objectives true
                eq_refl) as (s' & Hd & _ & _ & Hobj & _).
    exists s'. split; [exact Hd|]. now apply Hobj.
Defined.

(** C3, as stated, fails: the leader's objectives are stale, so the
    specified priority names the objectives list; the list is empty and the
    drain returns the queued turn state instead. *)
Lemma drain_message_skips_empty_objectives :
  objectives_are_stale 1 example_state_stale_objectives = true
  /\ specified_drain 1 example_state_stale_objectives
     = Some (ObjectivesFromServer [])
  /\ fst <$> drain_message 1 example_state_stale_objectives
     = Some (Some (GameStateFromServer example_turn)).
Proof.
  split; [reflexivity|]. split; reflexivity.
Qed.

(** ** C6: draining after the end of the game *)

Lemma drain_map_update_done (actor_id : Z) (s : State.t) :
  drain_map_update actor_id (end_game s)
  = then_end_game (drain_map_update actor_id s).
Proof.
  unfold drain_map_update, then_end_game, end_game. simpl.
  now destruct (_ !! actor_id) as [[|]|].
Qed.

Lemma drain_actions_done (actor_id : Z) (s : State.t) :
  drain_actions actor_id (end_game s)
  = then_end_game (drain_actions actor_id s).
Proof.
  unfold drain_actions, then_end_game, end_game. simpl.
  now destruct (State._action_history s !! actor_id).
Qed.

Lemma drain_objectives_done (actor_id : Z) (s : State.t) :
  drain_objectives actor_id (end_game s)
  = then_end_game (drain_objectives actor_id s).
Proof.
  unfold drain_objectives, then_end_game, end_game. simpl.
  now destruct (_ !! actor_id) as [[|]|].
Qed.

Lemma drain_turn_state_done (actor_id : Z) (s : State.t) :
  drain_turn_state actor_id (end_game s)
  = then_end_game (drain_turn_state actor_id s).
Proof.
  unfold drain_turn_state, then_end_game, end_game. simpl.
  now destruct (turn_queue actor_id (State._turn_history s)).
Qed.

Lemma sync_message_for_transmission_done (actor_id : Z) (s : State.t) :
  sync_message_for_transmission actor_id (end_game s)
  = then_end_game <$> sync_message_for_transmission actor_id s.
Proof.
  unfold sync_message_for_transmission, then_end_game, end_game.
  change (state actor_id (State.with_done true s)) with (state actor_id s).
  now destruct (state actor_id s).
Qed.

(** C6 (amended).  [end_game] sets the done flag and [drain_message] never
    reads it: a drain after [end_game] returns the message the same drain
    returns without it, and leaves the room in the same state, done. *)
Theorem drain_message_ignores_done (player_id : Z) (s : State.t) :
  done (end_game s) = true
  /\ drain_message player_id (end_game s)
     = then_end_game <$> drain_message player_id s.
Proof.
  split; [reflexivity|].
  unfold drain_message. rewrite drain_map_update_done.
  destruct (drain_map_update player_id s) as [[m|] s1]; simpl; [reflexivity|].
  change (is_synced player_id (end_game s1)) with (is_synced player_id s1).
  destruct (is_synced player_id s1) as [[|]|]; simpl; [| |reflexivity].
  - rewrite drain_actions_done.
    destruct (drain_actions player_id s1) as [actions s2]; simpl.
    destruct (nonempty actions); [reflexivity|].
    rewrite drain_objectives_done.
    destruct (drain_objectives player_id s2) as [objectives s3]; simpl.
    destruct (nonempty objectives); [reflexivity|].
    rewrite drain_turn_state_done.
    now destruct (drain_turn_state player_id s3) as [[ts|] s4].
  - rewrite sync_message_for_transmission_done.
    now destruct (sync_message_for_transmission player_id s1) as [[m s2]|].
Qed.

(** C6, as stated, fails.  A turn state queued for the leader is still
    drained after [end_game]; and this is how the game ends: when the room
    runs out of turns the tick loop queues the game-over turn state and
    calls [end_game], and the leader's next drain returns that turn state. *)
Lemma drain_message_after_end_game :
  (done (end_game example_state_stale_objectives) = true
   /\ fst <$> drain_message 1 (end_game example_state_stale_objectives)
      = Some (Some (GameStateFromServer example_turn)))
  /\ exists s s',
       @update_iteration example_world false example_state_out_of_turns
       = Some (false, s)
       /\ done s = true
       /\ drain_message 1 s
          = Some (Some (GameStateFromServer
                          (TurnState.mk Role.NONE 0 0 0 0 0 0 true)), s').
Proof.
  split; [split; reflexivity|].
  eexists; eexists. split; [reflexivity|]. split; [reflexivity|].
  vm_compute. reflexivity.
Qed.

(** ** C2: rule violations are dropped and desync the actor *)

Section Rejection.
Context `{W : World}.

Lemma not_norm_le_invalid (actor_id : Z) (action : Action.t) :
  Action.action_type action = ActionType.TRANSLATE ->
  ~ norm_le_1_001 (Action.displacement action) ->
  valid_action actor_id action = Some false
  \/ valid_action actor_id action = None.
Proof.
  intros Hty Hn. rewrite (valid_action_translate _ _ Hty).
  destruct (float_pow2 (fst _)) as [x2|] eqn:Ex; simpl; [|now right].
  destruct (float_pow2 (snd _)) as [y2|] eqn:Ey; simpl; [|now right].
  left. f_equal. apply negb_false_iff.
  destruct (sqrt_gt (x2 + y2) (1001 # 1000)) eqn:E; [reflexivity|].
  apply float_pow2_Some in Ex. apply float_pow2_Some in Ey.
  destruct Ex as [-> _]. destruct Ey as [-> _].
  apply sqrt_gt_false in E. now elim Hn.
Qed.

(** The three reject branches of the actor loop.  Let the tick loop reach an
    actor whose queue starts with [proposed].  If the actor's role is not
    the current turn, or no move remains, or [valid_action] returns
    [False], as it does for a TRANSLATE whose Cartesian norm exceeds 1.001
    unless it raises, then the iteration returns normally and: the actor
    keeps its location and heading and loses only the head of its queue,
    every other actor is untouched, no outbox changes, the turn state and
    the map provider are unchanged, and the actor's synced bit is
    cleared. *)
Lemma update_actor_rejects (current_set_invalid : bool) (actor_id : Z)
    (s : State.t) (actor : Actor.t) (proposed : Action.t)
    (rest : list Action.t) :
  odict.get actor_id (State._actors s) = Some actor ->
  Actor._actions actor = proposed :: rest ->
  TurnState.turn (State._turn_state s) <> Actor.role actor
  \/ TurnState.moves_remaining (State._turn_state s) = 0
  \/ valid_action actor_id proposed = Some false
  \/ (Action.action_type proposed = ActionType.TRANSLATE
      /\ ~ norm_le_1_001 (Action.displacement proposed)
      /\ valid_action actor_id proposed <> None) ->
  exists s',
    update_actor current_set_invalid actor_id s = Some s'
    /\ odict.get actor_id (State._actors s')
       = Some (Actor.mk (Actor._actor_id actor) (Actor._asset_id actor) rest
                 (Actor._location actor) (Actor._heading_degrees actor)
                 (Actor._role actor))
    /\ (forall j, j <> actor_id ->
          odict.get j (State._actors s') = odict.get j (State._actors s))
    /\ State._action_history s' = State._action_history s
    /\ State._turn_state s' = State._turn_state s
    /\ State._map_provider s' = State._map_provider s
    /\ State._synced s' !! actor_id = Some false.
Proof.
  intros Hget Hq Hwhy.
  assert (Hdrop : Actor.drop actor
                  = Actor.mk (Actor._actor_id actor) (Actor._asset_id actor)
                      rest (Actor._location actor)
                      (Actor._heading_degrees actor) (Actor._role actor)).
  { unfold Actor.drop, Actor.with_actions. now rewrite Hq. }
  set (s' := desync actor_id
               (State.with_actors
                  (odict.set actor_id (Actor.drop actor) (State._actors s))
                  s)).
  assert (Hs' : update_actor current_set_invalid actor_id s = Some s').
  { unfold update_actor. rewrite Hget. simpl.
    unfold Actor.has_actions, Actor.peek. rewrite Hq. simpl.
    destruct (Role_eqb_spec (TurnState.turn (State._turn_state s))
                (Actor.role actor)) as [Hturn|Hturn]; simpl; [|reflexivity].
    destruct (TurnState.moves_remaining (State._turn_state s) =? 0) eqn:Hm;
      [reflexivity|].
    apply Z.eqb_neq in Hm.
    destruct Hwhy as [H|[H|[H|(Hty & Hn & Hret)]]]; try contradiction.
    - now rewrite H.
    - destruct (not_norm_le_invalid actor_id proposed Hty Hn) as [H|H];
        [now rewrite H|contradiction]. }
  exists s'. split; [exact Hs'|]. subst s'. simpl.
  split; [rewrite odict_get_set_eq; now rewrite Hdrop|].
  split; [intros j Hj; apply odict_get_set_ne; congruence|].
  repeat split. apply lookup_insert_eq.
Qed.

End Rejection.

(** The reject branches at a concrete room: the leader's two-cell TRANSLATE
    is dropped on the leader's own turn, with five moves left. *)
Lemma update_actor_rejects_witness :
  exists s',
    @update_actor example_world false 1 example_state_long_step = Some s'
    /\ odict.get 1 (State._actors s') = Some example_leader
    /\ State._action_history s'
       = State._action_history example_state_long_step
    /\ State._synced s' !! 1 = Some false.
Proof.
  destruct (@update_actor_rejects example_world false 1
              example_state_long_step
              (Actor.add_action example_long_step example_leader)
              example_long_step [] eq_refl eq_refl)
    as (s' & H1 & H2 & _ & H4 & _ & _ & H7).
  - right. right. right. split; [reflexivity|]. split.
    + unfold norm_le_1_001. vm_compute. intros H. apply H. reflexivity.
    + discriminate.
  - exists s'. repeat split; assumption.
Defined.

(** C2 (the code at the failing input).  On the leader's own turn, with
    five moves left, the leader's queue starts with a TRANSLATE whose
    displacement is [HecsCoord(0, 0, 10**155)]: its Cartesian norm exceeds
    1.001, so the action is to be dropped and the leader desynced.  Instead
    [valid_action] raises on the square of the coordinate, and with it the
    iteration for the leader, the actor loop and [update], however many
    passes it was good for: the call ends in the exception, which is raised
    before any [drop] or [desync]. *)
Theorem update_dies_on_huge_translate :
  Action.action_type example_huge_step = ActionType.TRANSLATE
  /\ ~ @norm_le_1_001 example_world (Action.displacement example_huge_step)
  /\ odict.get 1 (State._actors example_state_huge_step)
     = Some (Actor.add_action example_huge_step example_leader)
  /\ TurnState.turn (State._turn_state example_state_huge_step)
     = Actor.role example_leader
  /\ TurnState.moves_remaining (State._turn_state example_state_huge_step)
     = 5
  /\ @valid_action example_world 1 example_huge_step = None
  /\ @update_actor example_world false 1 example_state_huge_step = None
  /\ @update_actors example_world false example_state_huge_step = None
  /\ forall fuel,
       @update example_world (S fuel) false example_state_huge_step = None.
Proof.
  split; [reflexivity|]. split.
  { unfold norm_le_1_001. vm_compute. intros H. apply H. reflexivity. }
  split; [reflexivity|]. split; [reflexivity|]. split; [reflexivity|].
  split; [vm_compute; reflexivity|].
  split; [vm_compute; reflexivity|].
  split; [vm_compute; reflexivity|].
  intros fuel. vm_compute. reflexivity.
Qed.

(** ** Frames of the recording operations *)

Lemma with_action_history_twice h h' s :
  State.with_action_history h' (State.with_action_history h s)
  = State.with_action_history h' s.
Proof. now destruct s. Qed.

Lemma with_action_history_id s :
  State.with_action_history (State._action_history s) s = s.
Proof. now destruct s. Qed.

Lemma record_action_fold (action : Action.t) (s : State.t) (l : list Z)
    (h : gmap Z (list Action.t)) :
  (forall k actor, odict.get k (State._actors s) = Some actor ->
     Actor.actor_id actor = k /\ is_Some (h !! k)) ->
  (forall k, In k l -> In k (odict.keys (State._actors s))) ->
  exists h',
    fold_left
      (fun acc id =>
         s ← acc;
         actor ← odict.get id (State._actors s);
         history ← State._action_history s !! Actor.actor_id actor;
         Some (State.with_action_history
                 (<[Actor.actor_id actor := history ++ [action]]>
                    (State._action_history s)) s))
      l (Some (State.with_action_history h s))
    = Some (State.with_action_history h' s)
    /\ (forall k, is_Some (h' !! k) <-> is_Some (h !! k))
    /\ outboxes_extended [action] l h h'.
Proof.
  revert h. induction l as [|k l IH]; intros h Hh Hl; simpl.
  - exists h. split; [reflexivity|]. split; [tauto|].
    intros k old Hk. exists []. rewrite app_nil_r.
    split; [exact Hk|intros []].
  - destruct (odict_get_keys k (State._actors s)) as [actor Hget];
      [apply Hl; now left|].
    rewrite Hget. simpl.
    destruct (Hh k actor Hget) as [Hid [history Hhist]].
    rewrite Hid, Hhist. simpl.
    rewrite with_action_history_twice.
    destruct (IH (<[k := history ++ [action]]> h))
      as (h' & Hfold & Hdom & Hext).
    + intros k' actor' Hget'. destruct (Hh k' actor' Hget') as [Hid' Hsome].
      split; [exact Hid'|].
      destruct (decide (k = k')) as [->|Hne].
      * rewrite lookup_insert_eq. eauto.
      * now rewrite lookup_insert_ne.
    + intros k' Hk'. apply Hl. now right.
    + exists h'. split; [exact Hfold|]. split.
      * intros k'. rewrite Hdom.
        destruct (decide (k = k')) as [<-|Hne].
        -- rewrite lookup_insert_eq, Hhist. split; eauto.
        -- now rewrite lookup_insert_ne.
      * intros j old Hj. destruct (decide (k = j)) as [<-|Hne].
        -- rewrite Hhist in Hj. injection Hj as <-.
           destruct (Hext k (history ++ [action])) as (extra & He & _);
             [apply lookup_insert_eq|].
           exists ([action] ++ extra). rewrite He, <- app_assoc.
           split; [reflexivity|]. intros _ a [<-|[]]. now left.
        -- destruct (Hext j old) as (extra & He & Hin);
             [now rewrite lookup_insert_ne|].
           exists extra. split; [exact He|].
           intros [Hk|Hjl]; [congruence|]. now apply Hin.
Qed.

Lemma record_action_ready (action : Action.t) (s : State.t) :
  outboxes_ready s ->
  exists h',
    record_action action s = Some (State.with_action_history h' s)
    /\ (forall k, is_Some (h' !! k) <-> is_Some (State._action_history s !! k))
    /\ outboxes_extended [action] (odict.keys (State._actors s))
         (State._action_history s) h'.
Proof.
  intros Hr. unfold record_action.
  destruct (record_action_fold action s (odict.keys (State._actors s))
              (State._action_history s) Hr (fun _ H => H))
    as (h' & Hfold & Hdom & Hext).
  rewrite with_action_history_id in Hfold. eauto.
Qed.

Lemma outboxes_extended_refl (keys : list Z) (h : gmap Z (list Action.t)) :
  outboxes_extended [] keys h h.
Proof.
  intros k old Hk. exists []. rewrite app_nil_r.
  split; [exact Hk|]. intros _ a [].
Qed.

Lemma outboxes_extended_trans (n1 n2 : list Action.t) (keys : list Z)
    (h h1 h2 : gmap Z (list Action.t)) :
  outboxes_extended n1 keys h h1 -> outboxes_extended n2 keys h1 h2 ->
  outboxes_extended (n1 ++ n2) keys h h2.
Proof.
  intros E1 E2 k old Hk.
  destruct (E1 k old Hk) as (e1 & H1 & I1).
  destruct (E2 k (old ++ e1) H1) as (e2 & H2 & I2).
  exists (e1 ++ e2). rewrite H2, app_assoc. split; [reflexivity|].
  intros Hin a Ha. apply in_app_iff. apply in_app_iff in Ha.
  destruct Ha; [left; now apply I1|right; now apply I2].
Qed.

Lemma outboxes_extended_fewer (n n' : list Action.t) (keys : list Z)
    (h h' : gmap Z (list Action.t)) :
  (forall a, In a n' -> In a n) ->
  outboxes_extended n keys h h' -> outboxes_extended n' keys h h'.
Proof.
  intros Hsub E k old Hk. destruct (E k old Hk) as (e & He & I).
  exists e. split; [exact He|]. intros Hin a Ha. apply I; auto.
Qed.

Lemma record_turn_state_fold (ts : TurnState.t) (l : list Z) (s : State.t) :
  fold_left
    (fun s actor_id =>
       let th := State._turn_history s in
       State.with_turn_history
         (<[actor_id := turn_queue actor_id th ++ [ts]]> th) s) l s
  = State.with_turn_history
      (fold_left (fun th k => <[k := turn_queue k th ++ [ts]]> th) l
         (State._turn_history s)) s.
Proof.
  revert s. induction l as [|k l IH]; intros s; simpl.
  - now destruct s.
  - rewrite IH. now destruct s.
Qed.

Lemma record_turn_state_eq (ts : TurnState.t) (s : State.t) :
  record_turn_state ts s
  = State.with_turn_history
      (fold_left (fun th k => <[k := turn_queue k th ++ [ts]]> th)
         (odict.keys (State._actors s)) (State._turn_history s))
      (State.with_turn_state ts s).
Proof. unfold record_turn_state. now rewrite record_turn_state_fold. Qed.

Lemma mark_map_stale_eq (s : State.t) :
  mark_map_stale s
  = State.with_map_stale
      (fold_left (fun m k => <[k := true]> m) (odict.keys (State._actors s))
         (State._map_stale s)) s.
Proof.
  unfold mark_map_stale.
  generalize (odict.keys (State._actors s)) as l.
  intros l. revert s. induction l as [|k l IH]; intros s; simpl.
  - now destruct s.
  - rewrite IH. now destruct s.
Qed.

(** ** C4: collecting a set *)

Lemma remove_after_set_selected (i : Z) (sel : bool) (mp : MapProvider.t) :
  MapProvider.remove_card i (MapProvider.set_selected i sel mp)
  = MapProvider.remove_card i mp.
Proof.
  unfold MapProvider.remove_card, MapProvider.set_selected,
    MapProvider.with_cards. simpl. f_equal.
  induction (MapProvider.cards mp) as [|c cs IH]; simpl; [reflexivity|].
  destruct (Card.id c =? i) eqn:E; simpl; rewrite E; simpl; now rewrite IH.
Qed.

Lemma removal_cards (cs : list Card.t) (mp : MapProvider.t) :
  removal cs mp
  = MapProvider.with_cards (cards_without (card_ids cs) (MapProvider.cards mp))
      mp.
Proof.
  unfold removal. revert mp. induction cs as [|c cs IH]; intros mp; simpl.
  - unfold cards_without, MapProvider.with_cards. simpl.
    destruct mp; simpl. f_equal.
    induction cards as [|x xs IHx]; simpl; [reflexivity|]. now f_equal.
  - rewrite IH. unfold MapProvider.remove_card, MapProvider.with_cards,
      cards_without. simpl. f_equal.
    induction (MapProvider.cards mp) as [|x xs IHx]; simpl; [reflexivity|].
    destruct (Card.id x =? Card.id c) eqn:E; simpl.
    + exact IHx.
    + destruct (existsb (Z.eqb (Card.id x)) (card_ids cs)); simpl;
        [exact IHx | now f_equal].
Qed.

Lemma cards_without_unselected (cs : list Card.t) :
  forall c,
    In c (cards_without (card_ids (List.filter Card.selected cs)) cs) ->
    Card.selected c = false.
Proof.
  intros c Hin. unfold cards_without in Hin.
  apply List.filter_In in Hin as [Hin Hnot].
  destruct (Card.selected c) eqn:Hsel; [|reflexivity].
  apply negb_true_iff in Hnot.
  assert (Hex : existsb (Z.eqb (Card.id c))
                  (card_ids (List.filter Card.selected cs)) = true).
  { apply existsb_exists. exists (Card.id c). split; [|apply Z.eqb_refl].
    unfold card_ids. apply in_map. apply List.filter_In. now split. }
  congruence.
Qed.

Lemma valid_set_three (mp : MapProvider.t) :
  MapProvider.selected_valid_set mp = true ->
  MapProvider.selected_cards_collide mp = false
  /\ exists c1 c2 c3, MapProvider.selected_cards mp = [c1; c2; c3].
Proof.
  unfold MapProvider.selected_valid_set, MapProvider.selected_cards_collide.
  intros H. apply andb_true_iff in H as [Hlen Hdiff].
  apply Nat.eqb_eq in Hlen. rewrite Hdiff, Hlen. split; [reflexivity|].
  destruct (MapProvider.selected_cards mp) as [|c1 [|c2 [|c3 [|c4 l]]]];
    try discriminate Hlen. eauto.
Qed.

Lemma fold_turn_queue_last (ts : TurnState.t) (l : list Z)
    (th : gmap Z (list TurnState.t)) (k : Z) :
  In k l \/ (exists q, th !! k = Some (q ++ [ts])) ->
  exists q,
    fold_left (fun th k => <[k := turn_queue k th ++ [ts]]> th) l th !! k
    = Some (q ++ [ts]).
Proof.
  revert th. induction l as [|x l IH]; intros th H; simpl.
  - destruct H as [[]|H]. exact H.
  - apply IH. destruct (decide (x = k)) as [->|Hne].
    + right. rewrite lookup_insert_eq. eauto.
    + destruct H as [[Hx|Hin]|Hq]; [congruence|now left|].
      right. now rewrite lookup_insert_ne.
Qed.

Lemma outboxes_ready_same_keys (s s' : State.t) :
  State._actors s' = State._actors s ->
  (forall k, is_Some (State._action_history s' !! k)
             <-> is_Some (State._action_history s !! k)) ->
  outboxes_ready s -> outboxes_ready s'.
Proof.
  intros Ha Hd Hr k actor Hget. rewrite Ha in Hget.
  destruct (Hr k actor Hget) as [Hid Hs]. split; [exact Hid|]. now apply Hd.
Qed.

Section Cards.
Context `{W : World}.

Lemma outline_cards_ready (cs : list Card.t) (color : Color.t) (s : State.t) :
  outboxes_ready s ->
  exists h',
    outline_cards cs color s = Some (State.with_action_history h' s)
    /\ (forall k, is_Some (h' !! k) <-> is_Some (State._action_history s !! k))
    /\ outboxes_extended [] (odict.keys (State._actors s))
         (State._action_history s) h'.
Proof.
  unfold outline_cards. revert s. induction cs as [|c cs IH]; intros s Hr.
  - simpl. exists (State._action_history s).
    rewrite with_action_history_id. split; [reflexivity|].
    split; [tauto|apply outboxes_extended_refl].
  - simpl.
    destruct (record_action_ready
                (CardSelectAction (Card.id c) true (Some color)) s Hr)
      as (h1 & H1 & D1 & X1).
    rewrite H1.
    destruct (IH (State.with_action_history h1 s)) as (h2 & H2 & D2 & X2).
    { eapply outboxes_ready_same_keys; [| |exact Hr]; [reflexivity|exact D1]. }
    rewrite H2, with_action_history_twice. exists h2. split; [reflexivity|].
    split; [intros k; rewrite D2; apply D1|].
    eapply outboxes_extended_fewer;
      [|eapply outboxes_extended_trans; [exact X1|exact X2]].
    intros a [].
Qed.

Lemma clear_cards_ready (cs : list Card.t) (s : State.t) :
  outboxes_ready s ->
  exists h',
    clear_cards cs s
    = Some (State.with_action_history h'
              (State.with_map_provider (removal cs (State._map_provider s)) s))
    /\ (forall k, is_Some (h' !! k) <-> is_Some (State._action_history s !! k))
    /\ outboxes_extended (deselect_actions cs) (odict.keys (State._actors s))
         (State._action_history s) h'.
Proof.
  unfold clear_cards, removal. revert s.
  induction cs as [|c cs IH]; intros s Hr.
  - simpl. exists (State._action_history s).
    split; [now destruct s|]. split; [tauto|apply outboxes_extended_refl].
  - simpl.
    set (sa := State.with_map_provider
                 (MapProvider.set_selected (Card.id c) false
                    (State._map_provider s)) s).
    destruct (record_action_ready
                (CardSelectAction (Card.id c) false None) sa)
      as (h1 & H1 & D1 & X1).
    { eapply outboxes_ready_same_keys; [| |exact Hr]; [reflexivity|tauto]. }
    rewrite H1. simpl.
    rewrite remove_after_set_selected.
    set (sb := State.with_map_provider _ _).
    destruct (IH sb) as (h2 & H2 & D2 & X2).
    { eapply outboxes_ready_same_keys; [| |exact Hr]; [reflexivity|exact D1]. }
    rewrite H2. exists h2. split; [subst sb sa; now destruct s|].
    split; [intros k; rewrite D2; apply D1|].
    exact (outboxes_extended_trans [_] _ _ _ _ _ X1 X2).
Qed.

End Cards.

Lemma added_turns_table (sets_collected : Z) :
  bonus_table sets_collected (added_turns sets_collected).
Proof.
  unfold bonus_table, added_turns. repeat split; intros H.
  - now subst.
  - destruct H; now subst.
  - destruct H; now subst.
  - destruct (sets_collected =? 0) eqn:E0; [lia|].
    destruct (sets_collected =? 1) eqn:E1; [lia|].
    destruct (sets_collected =? 2) eqn:E2; [lia|].
    destruct (sets_collected =? 3) eqn:E3; [lia|].
    destruct (sets_collected =? 4) eqn:E4; [lia|]. reflexivity.
Qed.

Section CollectSet.
Context `{W : World}.

(** C4.  Let the card logic of a tick find a selected valid set, in a room
    whose actors all have an outbox.  Then it returns normally and the
    recorded turn state has [sets_collected] and [score] one higher and
    [turns_left] higher by the bonus of the prior [sets_collected] (0 -> 5,
    1 or 2 -> 4, 3 or 4 -> 3, otherwise 0), the other fields being kept; it
    is queued for every actor.  The three selected cards are gone from the
    provider, what stays of the old cards is unselected, the next three
    cards of the random generator are added, the map is refreshed and every
    actor's map is stale; every actor's outbox has received the de-select
    action of each of the three cards. *)
Theorem update_cards_collects_set (current_set_invalid : bool) (s : State.t) :
  outboxes_ready s ->
  MapProvider.selected_valid_set (State._map_provider s) = true ->
  exists s' c1 c2 c3,
    update_cards current_set_invalid s = Some (false, s')
    /\ MapProvider.selected_cards (State._map_provider s) = [c1; c2; c3]
    /\ State._turn_state s' = turn_state_after_set (State._turn_state s)
    /\ TurnState.sets_collected (State._turn_state s')
       = TurnState.sets_collected (State._turn_state s) + 1
    /\ TurnState.score (State._turn_state s')
       = TurnState.score (State._turn_state s) + 1
    /\ bonus_table (TurnState.sets_collected (State._turn_state s))
         (TurnState.turns_left (State._turn_state s')
          - TurnState.turns_left (State._turn_state s))
    /\ turn_state_queued_for_all (State._turn_state s') s'
    /\ MapProvider.cards (State._map_provider s')
       = cards_without [Card.id c1; Card.id c2; Card.id c3]
           (MapProvider.cards (State._map_provider s))
         ++ List.map random_card
              (seq (MapProvider.drawn (State._map_provider s)) 3)
    /\ (forall c,
          In c (cards_without [Card.id c1; Card.id c2; Card.id c3]
                  (MapProvider.cards (State._map_provider s))) ->
          Card.selected c = false)
    /\ State._map_update s' = MapProvider.map (State._map_provider s')
    /\ map_stale_for_all s'
    /\ outboxes_extended (deselect_actions [c1; c2; c3])
         (odict.keys (State._actors s)) (State._action_history s)
         (State._action_history s').
Proof.
  intros Hr Hvalid.
  destruct (valid_set_three _ Hvalid) as (Hcollide & c1 & c2 & c3 & Hsel).
  (* the state after the two outline blocks *)
  assert (Hpre : exists h1,
    (forall k, is_Some (h1 !! k) <-> is_Some (State._action_history s !! k))
    /\ outboxes_extended [] (odict.keys (State._actors s))
         (State._action_history s) h1
    /\ update_cards current_set_invalid s
       = (s2 ← collect_set (MapProvider.selected_cards (State._map_provider s))
                 (State.with_action_history h1 s);
          Some (false,
                mark_map_stale
                  (State.with_map_update
                     (MapProvider.map (State._map_provider s2)) s2)))).
  { unfold update_cards. rewrite Hcollide. simpl.
    destruct current_set_invalid; simpl.
    - destruct (outline_cards_ready
                  (MapProvider.selected_cards (State._map_provider s))
                  Color.blue s Hr) as (h1 & H1 & D1 & X1).
      rewrite Hcollide. simpl. rewrite H1. simpl. rewrite Hvalid.
      exists h1. split; [exact D1|]. split; [exact X1|].
      now destruct (collect_set _ _).
    - rewrite Hcollide. simpl. rewrite Hvalid.
      exists (State._action_history s). split; [tauto|].
      split; [apply outboxes_extended_refl|].
      rewrite with_action_history_id. now destruct (collect_set _ _). }
  destruct Hpre as (h1 & D1 & X1 & Hupd).
  set (s1 := State.with_action_history h1 s) in *.
  assert (Hr1 : outboxes_ready s1)
    by (eapply outboxes_ready_same_keys; [| |exact Hr]; [reflexivity|exact D1]).
  set (nts := turn_state_after_set (State._turn_state s)).
  assert (Hr2 : outboxes_ready (record_turn_state nts s1)).
  { rewrite record_turn_state_eq.
    eapply outboxes_ready_same_keys; [| |exact Hr1]; [reflexivity|tauto]. }
  destruct (clear_cards_ready
              (MapProvider.selected_cards (State._map_provider s))
              (record_turn_state nts s1) Hr2) as (h2 & H2 & D2 & X2).
  assert (Hcs : collect_set (MapProvider.selected_cards (State._map_provider s))
                  s1
                = Some (State.with_map_provider
                          (MapProvider.add_random_cards 3
                             (removal
                                (MapProvider.selected_cards
                                   (State._map_provider s))
                                (State._map_provider s)))
                          (State.with_action_history h2
                             (record_turn_state nts s1)))).
  { unfold collect_set. fold (turn_state_after_set (State._turn_state s1)).
    change (State._turn_state s1) with (State._turn_state s). fold nts.
    rewrite H2. simpl. rewrite record_turn_state_eq. now destruct s. }
  rewrite Hcs in Hupd. simpl in Hupd.
  eexists. exists c1, c2, c3. split; [exact Hupd|].
  split; [exact Hsel|].
  rewrite mark_map_stale_eq, record_turn_state_eq. simpl.
  split; [reflexivity|]. split; [reflexivity|]. split; [reflexivity|].
  split.
  { replace (_ - _) with (added_turns (TurnState.sets_collected
                                         (State._turn_state s))) by lia.
    apply added_turns_table. }
  split.
  { intros k Hk. simpl in *. apply fold_turn_queue_last. now left. }
  rewrite removal_cards, Hsel. simpl.
  split; [reflexivity|].
  split.
  { intros c Hc. apply (cards_without_unselected
                          (MapProvider.cards (State._map_provider s))).
    change (List.filter Card.selected
              (MapProvider.cards (State._map_provider s)))
      with (MapProvider.selected_cards (State._map_provider s)).
    now rewrite Hsel. }
  split; [reflexivity|].
  split; [intros k Hk; simpl in *; now apply fold_insert_lookup_in|].
  rewrite record_turn_state_eq in X2. simpl in X2. rewrite Hsel in X2.
  exact (outboxes_extended_trans [] _ _ _ _ _ X1 X2).
Qed.

End CollectSet.

Lemma example_state_valid_set_ready : outboxes_ready example_state_valid_set.
Proof.
  intros k actor. simpl.
  destruct (k =? 1) eqn:E1; [|destruct (k =? 2) eqn:E2; [|discriminate]].
  - apply Z.eqb_eq in E1. subst k. intros [= <-]. split; [reflexivity|].
    now eexists.
  - apply Z.eqb_eq in E2. subst k. intros [= <-]. split; [reflexivity|].
    now eexists.
Qed.

(** C4 at a concrete room: the first set of a game is collected with six
    turns left. *)
Lemma update_cards_collects_set_witness :
  exists s',
    @update_cards example_world true example_state_valid_set = Some (false, s')
    /\ TurnState.sets_collected (State._turn_state s') = 1
    /\ TurnState.score (State._turn_state s') = 1
    /\ TurnState.turns_left (State._turn_state s') = 11
    /\ card_ids (MapProvider.cards (State._map_provider s'))
       = [14; 1000; 1001; 1002]
    /\ map_stale_for_all s'.
Proof.
  destruct (@update_cards_collects_set example_world true
              example_state_valid_set example_state_valid_set_ready eq_refl)
    as (s' & c1 & c2 & c3 & Hupd & Hsel & Hts & _ & _ & _ & _ & Hcards & _
        & _ & Hstale & _).
  exists s'. split; [exact Hupd|]. rewrite Hts, Hcards.
  vm_compute in Hsel. injection Hsel as <- <- <-.
  repeat split; try reflexivity. exact Hstale.
Defined.

(** ** C5: moves remaining *)

Lemma fold_option_preserves {A} (P : State.t -> Prop)
    (f : State.t -> A -> option State.t) (l : list A) (s s' : State.t) :
  (forall s x s', f s x = Some s' -> P s -> P s') ->
  fold_left (fun acc x => s ← acc; f s x) l (Some s) = Some s' ->
  P s -> P s'.
Proof.
  intros Hf. revert s. induction l as [|x l IH]; intros s; simpl.
  - now intros [= <-].
  - destruct (f s x) as [s1|] eqn:E.
    + intros H Hs. apply (IH s1 H). exact (Hf _ _ _ E Hs).
    + intros H. exfalso. clear -H.
      induction l as [|y l IHl]; simpl in H; [discriminate|auto].
Qed.

Lemma room_ok_frame (s s' : State.t) :
  State._turn_state s' = State._turn_state s ->
  State._actors s' = State._actors s ->
  (forall k, is_Some (State._action_history s !! k) ->
             is_Some (State._action_history s' !! k)) ->
  room_ok s -> room_ok s'.
Proof.
  intros Ht Ha Hh [Hm Hr]. split.
  - unfold moves_ok. now rewrite Ht.
  - intros k actor Hget. rewrite Ha in Hget.
    destruct (Hr k actor Hget) as [Hid Hs]. auto.
Qed.

Lemma room_ok_set_actor (k : Z) (actor actor' : Actor.t) (s : State.t) :
  odict.get k (State._actors s) = Some actor ->
  Actor.actor_id actor' = Actor.actor_id actor ->
  room_ok s ->
  room_ok (State.with_actors (odict.set k actor' (State._actors s)) s).
Proof.
  intros Hget Hid [Hm Hr]. split; [exact Hm|].
  intros j a Hj. simpl in *.
  destruct (Hr k actor Hget) as [Hk Hs].
  destruct (decide (k = j)) as [<-|Hne].
  - rewrite odict_get_set_eq in Hj. injection Hj as <-.
    split; [congruence|exact Hs].
  - rewrite odict_get_set_ne in Hj by assumption. exact (Hr j a Hj).
Qed.

Lemma record_action_room_ok (action : Action.t) (s s' : State.t) :
  record_action action s = Some s' -> room_ok s -> room_ok s'.
Proof.
  unfold record_action. apply fold_option_preserves.
  clear. intros s id s' H Hok.
  destruct (odict.get id (State._actors s)) as [actor|]; [|discriminate].
  simpl in H.
  destruct (State._action_history s !! Actor.actor_id actor) as [h|] eqn:E;
    [|discriminate].
  simpl in H. injection H as <-.
  apply (room_ok_frame s); try reflexivity; [|exact Hok].
  intros k Hk. simpl.
  destruct (decide (Actor.actor_id actor = k)) as [<-|Hne].
  - rewrite lookup_insert_eq. eauto.
  - now rewrite lookup_insert_ne.
Qed.

Lemma record_action_turn_state (action : Action.t) (s s' : State.t) :
  record_action action s = Some s' ->
  State._turn_state s' = State._turn_state s
  /\ State.now_reads s' = State.now_reads s.
Proof.
  unfold record_action. intros H.
  eapply (fold_option_preserves
            (fun x => State._turn_state x = State._turn_state s
                      /\ State.now_reads x = State.now_reads s));
    [|exact H|tauto].
  clear. intros s0 id s' H Hok. cbv beta in H.
  destruct (odict.get id (State._actors s0)) as [actor|]; [|discriminate].
  simpl in H.
  destruct (State._action_history s0 !! Actor.actor_id actor) as [h|];
    [|discriminate].
  simpl in H. injection H as <-. exact Hok.
Qed.

Lemma record_turn_state_room_ok (ts : TurnState.t) (s : State.t) :
  0 <= TurnState.moves_remaining ts -> room_ok s ->
  room_ok (record_turn_state ts s).
Proof.
  intros Hts [Hm Hr]. rewrite record_turn_state_eq. split.
  - exact Hts.
  - exact Hr.
Qed.

Lemma moves_per_turn_pos (role : Role.t) : 0 <= moves_per_turn role.
Proof. unfold moves_per_turn. now destruct (Role.eqb _ _). Qed.

Section Invariant.
Context `{W : World}.

Lemma end_turn_if_over_room_ok (force : bool) (s : State.t) :
  room_ok s -> room_ok (end_turn_if_over force s).
Proof.
  intros Hok. unfold end_turn_if_over, now. simpl.
  destruct (_ || force); simpl.
  - apply record_turn_state_room_ok; [apply moves_per_turn_pos|].
    apply (room_ok_frame s); auto.
  - apply record_turn_state_room_ok; [simpl; lia|].
    apply (room_ok_frame s); auto.
Qed.

Lemma check_for_stepped_on_cards_room_ok actor_id action color s s' :
  check_for_stepped_on_cards actor_id action color s = Some s' ->
  room_ok s -> room_ok s'.
Proof.
  unfold check_for_stepped_on_cards.
  destruct (odict.get actor_id (State._actors s)) as [actor|]; [|discriminate].
  simpl. destruct (MapProvider.card_by_location _ _) as [card|].
  - destruct (ActionType.eqb _ _).
    + intros H Hok. apply (record_action_room_ok _ _ _ H).
      apply (room_ok_frame s); auto.
    + now intros [= <-].
  - now intros [= <-].
Qed.

Lemma update_actor_room_ok csi actor_id s s' :
  update_actor csi actor_id s = Some s' -> room_ok s -> room_ok s'.
Proof.
  unfold update_actor.
  destruct (odict.get actor_id (State._actors s)) as [actor|] eqn:Hget;
    [|discriminate].
  simpl. destruct (Actor.has_actions actor); [|now intros [= <-]].
  destruct (Actor.peek actor) as [proposed|]; [|discriminate]. simpl.
  assert (Hdrop : room_ok s ->
            room_ok (desync actor_id
                       (State.with_actors
                          (odict.set actor_id (Actor.drop actor)
                             (State._actors s)) s))).
  { intros Hok. eapply room_ok_frame; [.. | apply (room_ok_set_actor actor_id actor (Actor.drop actor) s Hget); [|exact Hok]]; try reflexivity; auto.
    unfold Actor.drop. now destruct (Actor._actions actor). }
  destruct (negb _); [intros [= <-]; exact Hdrop|].
  destruct (_ =? 0); [intros [= <-]; exact Hdrop|].
  destruct (valid_action _ _) as [[|]|]; simpl;
    [|intros [= <-]; exact Hdrop|discriminate].
  destruct (record_action proposed _) as [s1|] eqn:E1; [|discriminate].
  simpl.
  destruct (check_for_stepped_on_cards _ _ _ s1) as [s2|] eqn:E2;
    [|discriminate].
  simpl. intros [= <-] Hok. apply end_turn_if_over_room_ok.
  apply (check_for_stepped_on_cards_room_ok _ _ _ _ _ E2).
  apply (record_action_room_ok _ _ _ E1).
  apply (room_ok_set_actor actor_id actor _ s Hget); [|exact Hok].
  unfold Actor.step. now destruct (Actor._actions actor).
Qed.

Lemma update_actors_room_ok csi s s' :
  update_actors csi s = Some s' -> room_ok s -> room_ok s'.
Proof.
  unfold update_actors. apply fold_option_preserves.
  intros s0 x s1. apply update_actor_room_ok.
Qed.

Lemma outline_cards_room_ok cs color s s' :
  outline_cards cs color s = Some s' -> room_ok s -> room_ok s'.
Proof.
  unfold outline_cards. apply fold_option_preserves.
  intros s0 x s1. apply record_action_room_ok.
Qed.

Lemma clear_cards_room_ok cs s s' :
  clear_cards cs s = Some s' -> room_ok s -> room_ok s'.
Proof.
  unfold clear_cards. apply fold_option_preserves.
  intros s0 c s1 H Hok.
  destruct (record_action _ _) as [s2|] eqn:E; [|discriminate].
  simpl in H. injection H as <-.
  apply (room_ok_frame s2); auto.
  apply (record_action_room_ok _ _ _ E).
  apply (room_ok_frame s0); auto.
Qed.

Lemma collect_set_room_ok cs s s' :
  collect_set cs s = Some s' -> room_ok s -> room_ok s'.
Proof.
  unfold collect_set.
  destruct (clear_cards cs _) as [s1|] eqn:E; [|discriminate].
  simpl. intros [= <-] Hok.
  apply (room_ok_frame s1); auto.
  apply (clear_cards_room_ok _ _ _ E).
  apply record_turn_state_room_ok; [|exact Hok]. apply Hok.
Qed.

Lemma mark_map_stale_room_ok s : room_ok s -> room_ok (mark_map_stale s).
Proof.
  intros Hok. rewrite mark_map_stale_eq. apply (room_ok_frame s); auto.
Qed.

Lemma update_cards_room_ok csi s csi' s' :
  update_cards csi s = Some (csi', s') -> room_ok s -> room_ok s'.
Proof.
  unfold update_cards. intros H Hok.
  set (sel := MapProvider.selected_cards (State._map_provider s)) in *.
  destruct (if MapProvider.selected_cards_collide (State._map_provider s)
               && negb csi
            then s0 ← outline_cards sel Color.red s; Some (true, true, s0)
            else Some (csi, false, s)) as [[[c1 ch1] s1]|] eqn:E1;
    [|discriminate].
  assert (Hok1 : room_ok s1).
  { destruct (_ && negb csi).
    - destruct (outline_cards sel Color.red s) as [s0|] eqn:E; [|discriminate].
      simpl in E1. injection E1 as <- <- <-.
      apply (outline_cards_room_ok _ _ _ _ E Hok).
    - now injection E1 as <- <- <-. }
  simpl in H.
  destruct (if negb (MapProvider.selected_cards_collide (State._map_provider s1))
               && c1
            then s0 ← outline_cards sel Color.blue s1; Some (false, true, s0)
            else Some (c1, ch1, s1)) as [[[c2 ch2] s2]|] eqn:E2;
    [|discriminate].
  assert (Hok2 : room_ok s2).
  { destruct (_ && c1).
    - destruct (outline_cards sel Color.blue s1) as [s0|] eqn:E;
        [|discriminate].
      simpl in E2. injection E2 as <- <- <-.
      apply (outline_cards_room_ok _ _ _ _ E Hok1).
    - now injection E2 as <- <- <-. }
  simpl in H.
  destruct (if MapProvider.selected_valid_set (State._map_provider s2)
            then s0 ← collect_set sel s2; Some (false, true, s0)
            else Some (c2, ch2, s2)) as [[[c3 ch3] s3]|] eqn:E3;
    [|discriminate].
  assert (Hok3 : room_ok s3).
  { destruct (MapProvider.selected_valid_set _).
    - destruct (collect_set sel s2) as [s0|] eqn:E; [|discriminate].
      simpl in E3. injection E3 as <- <- <-.
      apply (collect_set_room_ok _ _ _ E Hok2).
    - now injection E3 as <- <- <-. }
  simpl in H. destruct ch3; injection H as <- <-.
  - apply mark_map_stale_room_ok. apply (room_ok_frame s3); auto.
  - exact Hok3.
Qed.

End Invariant.

Lemma keeps_room_refl (s : State.t) : keeps_room s s.
Proof. unfold keeps_room. auto. Qed.

(** Closes [keeps_room s s'] when [s'] is [s] with other fields updated. *)
Ltac keeps_fields := unfold keeps_room; simpl; auto.

Lemma keeps_room_trans (s1 s2 s3 : State.t) :
  keeps_room s1 s2 -> keeps_room s2 s3 -> keeps_room s1 s3.
Proof.
  intros (T1 & A1 & H1) (T2 & A2 & H2). unfold keeps_room.
  rewrite T2, A2. auto.
Qed.

Lemma keeps_room_ok (s s' : State.t) : keeps_room s s' -> room_ok s -> room_ok s'.
Proof. intros (T & A & H). now apply room_ok_frame. Qed.

Lemma desync_all_fold (s : State.t) (l : list Z) (m : gmap Z bool) :
  exists m',
    fold_left
      (fun s a =>
         match odict.get a (State._actors s) with
         | Some actor => desync (Actor.actor_id actor) s
         | None => s
         end) l (State.with_synced m s)
    = State.with_synced m' s.
Proof.
  revert m. induction l as [|a l IH]; intros m; simpl; [eauto|].
  destruct (odict.get a (State._actors s)) as [actor|].
  - destruct (IH (<[Actor.actor_id actor := false]> m)) as [m' Hm'].
    exists m'. rewrite <- Hm'. now destruct s.
  - apply IH.
Qed.

Lemma desync_all_keeps (s : State.t) : keeps_room s (desync_all s).
Proof.
  unfold desync_all.
  destruct (desync_all_fold s (odict.keys (State._actors s)) (State._synced s))
    as [m' Hm'].
  replace (State.with_synced (State._synced s) s) with s in Hm'
    by now destruct s.
  rewrite Hm'. keeps_fields.
Qed.

Lemma odict_get_del {V} (j k : Z) (d : odict.t V) :
  odict.get j (odict.del k d) = if j =? k then None else odict.get j d.
Proof.
  unfold odict.del. induction d as [|[k' v] d IH]; simpl.
  - now destruct (j =? k).
  - destruct (k =? k') eqn:E; simpl.
    + apply Z.eqb_eq in E. subst k'. rewrite IH.
      now destruct (j =? k).
    + rewrite IH. destruct (j =? k') eqn:E'; [|reflexivity].
      apply Z.eqb_eq in E'. subst k'. destruct (j =? k) eqn:E''; [|reflexivity].
      apply Z.eqb_eq in E''. subst. now rewrite Z.eqb_refl in E.
Qed.

Lemma create_actor_room_ok role new_id s :
  room_ok s -> room_ok (create_actor role new_id s).2.
Proof.
  intros [Hm Hr]. unfold create_actor.
  destruct (match rev (State._spawn_points s) with
            | [] => _ | p :: front => _ end) as [spawn_point rest].
  simpl. apply (keeps_room_ok _ _ (desync_all_keeps _)).
  split; [exact Hm|].
  intros j a Hj. simpl in *.
  destruct (decide (new_id = j)) as [<-|Hne].
  - rewrite odict_get_set_eq in Hj. injection Hj as <-.
    split; [reflexivity|]. rewrite lookup_insert_eq. eauto.
  - rewrite odict_get_set_ne in Hj by assumption.
    destruct (Hr j a Hj) as [Hid Hs]. split; [exact Hid|].
    now rewrite lookup_insert_ne.
Qed.

Lemma free_actor_room_ok actor_id s :
  room_ok s -> room_ok (free_actor actor_id s).
Proof.
  intros [Hm Hr]. unfold free_actor.
  apply (keeps_room_ok _ _ (desync_all_keeps _)).
  split; [exact Hm|].
  intros j a Hj. simpl in *. rewrite odict_get_del in Hj.
  destruct (j =? actor_id) eqn:E; [discriminate|].
  apply Z.eqb_neq in E.
  destruct (Hr j a Hj) as [Hid Hs]. split; [exact Hid|].
  now rewrite lookup_delete_ne.
Qed.

Lemma drain_message_keeps player_id s message s' :
  drain_message player_id s = Some (message, s') -> keeps_room s s'.
Proof.
  unfold drain_message.
  assert (K1 : keeps_room s (drain_map_update player_id s).2).
  { unfold drain_map_update.
    destruct (State._map_stale s !! player_id) as [[|]|] eqn:E; simpl.
    - rewrite E. keeps_fields.
    - rewrite E. keeps_fields.
    - rewrite lookup_insert_eq. keeps_fields. }
  destruct (drain_map_update player_id s) as [[m|] s1]; simpl in *.
  { now intros [= <- <-]. }
  unfold is_synced.
  destruct (State._synced s1 !! player_id) as [[|]|]; simpl; [| |discriminate].
  - assert (K2 : keeps_room s1 (drain_actions player_id s1).2).
    { unfold drain_actions.
      destruct (State._action_history s1 !! player_id) as [h|] eqn:E; simpl.
      - split; [reflexivity|]. split; [reflexivity|]. simpl.
        intros k Hk. destruct (decide (player_id = k)) as [<-|Hne].
        + rewrite lookup_insert_eq. eauto.
        + now rewrite lookup_insert_ne.
      - keeps_fields. }
    destruct (drain_actions player_id s1) as [actions s2]; simpl in *.
    destruct (nonempty actions).
    { intros [= <- <-]. eapply keeps_room_trans; eassumption. }
    assert (K3 : keeps_room s2 (drain_objectives player_id s2).2).
    { unfold drain_objectives.
      destruct (State._objectives_stale s2 !! player_id) as [[|]|] eqn:E;
        simpl.
      - rewrite E. keeps_fields.
      - rewrite E. keeps_fields.
      - rewrite lookup_insert_eq. keeps_fields. }
    destruct (drain_objectives player_id s2) as [objectives s3]; simpl in *.
    assert (K13 : keeps_room s s3)
      by (eapply keeps_room_trans; [|exact K3];
          eapply keeps_room_trans; eassumption).
    destruct (nonempty objectives).
    { now intros [= <- <-]. }
    assert (K4 : keeps_room s3 (drain_turn_state player_id s3).2).
    { unfold drain_turn_state.
      destruct (turn_queue player_id (State._turn_history s3));
        keeps_fields. }
    destruct (drain_turn_state player_id s3) as [[ts|] s4]; simpl in *;
      intros [= <- <-]; eapply keeps_room_trans; eassumption.
  - unfold sync_message_for_transmission.
    destruct (state player_id s1) as [sync|]; [|discriminate]. simpl.
    intros [= <- <-]. eapply keeps_room_trans; [exact K1|].
    keeps_fields.
Qed.

Lemma mark_objectives_stale_keeps s : keeps_room s (mark_objectives_stale s).
Proof. rewrite mark_objectives_stale_eq. keeps_fields. Qed.

Lemma handle_action_room_ok actor_id action s s' :
  handle_action actor_id action s = Some s' -> room_ok s -> room_ok s'.
Proof.
  unfold handle_action. destruct (negb _).
  - intros [= <-] Hok. apply (room_ok_frame s); auto.
  - destruct (odict.get actor_id (State._actors s)) as [actor|] eqn:Hget;
      [|discriminate].
    simpl. intros [= <-].
    now apply (room_ok_set_actor actor_id actor).
Qed.

Lemma now_room_ok `{W : World} (s : State.t) : room_ok s -> room_ok (now s).2.
Proof. intros Hok. apply (room_ok_frame s); auto. Qed.

Section Reachable.
Context `{W : World}.
Hypothesis GameOverMessage_moves :
  forall game_start sets_collected score,
    0 <= TurnState.moves_remaining
           (GameOverMessage game_start sets_collected score).

Lemma update_iteration_room_ok csi s csi' s' :
  update_iteration csi s = Some (csi', s') -> room_ok s -> room_ok s'.
Proof.
  unfold update_iteration. destruct (_ =? -1).
  - intros [= <- <-] Hok.
    apply (keeps_room_ok (record_turn_state
                            (GameOverMessage
                               (TurnState.game_start (State._turn_state s))
                               (TurnState.sets_collected (State._turn_state s))
                               (TurnState.score (State._turn_state s))) s));
      [keeps_fields|].
    now apply record_turn_state_room_ok.
  - intros H Hok.
    pose proof (now_room_ok s Hok) as Hok1.
    destruct (now s) as [t s1]. simpl in Hok1.
    match type of H with
    | (let '(_, _) := now ?x in _) = _ => assert (Hx : room_ok x)
    end.
    { destruct (_ <? t); [|exact Hok1].
      pose proof (now_room_ok s1 Hok1) as Hok2.
      destruct (now s1) as [t' s2]. simpl in Hok2.
      apply record_turn_state_room_ok; [apply Hok2|].
      apply (room_ok_frame s2); auto. }
    match type of H with
    | (let '(_, _) := now ?x in _) = _ =>
        pose proof (now_room_ok x Hx) as Hok3; destruct (now x) as [t3 s3]
    end.
    simpl in Hok3.
    match type of H with
    | (update_actors csi ?x ≫= _) = _ => assert (Hy : room_ok x)
    end.
    { destruct (_ <=? t3); [|exact Hok3].
      now apply end_turn_if_over_room_ok. }
    destruct (update_actors csi _) as [s4|] eqn:E; [|discriminate].
    simpl in H.
    apply (update_cards_room_ok _ _ _ _ H).
    apply (update_actors_room_ok _ _ _ E Hy).
Qed.

Lemma handle_packet_room_ok id message new_uuid s s' :
  handle_packet id message new_uuid s = Some s' -> room_ok s -> room_ok s'.
Proof.
  destruct message; simpl.
  - apply fold_option_preserves. intros s0 x s1. apply handle_action_room_ok.
  - unfold handle_objective.
    destruct (odict.get id (State._actors s)); [|discriminate]. simpl.
    destruct (negb _); intros [= <-]; [tauto|].
    intros Hok. apply (keeps_room_ok _ _ (mark_objectives_stale_keeps _)).
    apply (room_ok_frame s); auto.
  - unfold handle_objective_complete.
    destruct (odict.get id (State._actors s)); [|discriminate]. simpl.
    destruct (negb _); intros [= <-]; [tauto|].
    intros Hok. apply (keeps_room_ok _ _ (mark_objectives_stale_keeps _)).
    apply (room_ok_frame s); auto.
  - unfold handle_turn_complete.
    destruct (odict.get id (State._actors s)); [|discriminate]. simpl.
    destruct (negb _); intros [= <-]; [tauto|].
    apply end_turn_if_over_room_ok.
  - intros [= <-] Hok. apply (room_ok_frame s); auto.
  - now intros [= <-].
Qed.

Lemma State_init_room_ok map_provider spawn_points :
  room_ok (State_init map_provider spawn_points).
Proof.
  unfold State_init. rewrite record_turn_state_eq. split.
  - unfold moves_ok. simpl. unfold LEADER_MOVES_PER_TURN. lia.
  - intros k actor. simpl. discriminate.
Qed.

Lemma reachable_room_ok s : reachable s -> room_ok s.
Proof.
  induction 1.
  - apply State_init_room_ok.
  - eapply update_iteration_room_ok; eassumption.
  - eapply handle_packet_room_ok; eassumption.
  - now apply create_actor_room_ok.
  - now apply free_actor_room_ok.
  - eapply keeps_room_ok; [|eassumption].
    eapply drain_message_keeps; eassumption.
Qed.

End Reachable.

Section Commit.
Context `{W : World}.

Lemma end_turn_if_over_turn_state (force : bool) (s : State.t) :
  State._turn_state (end_turn_if_over force s)
  = let ts := State._turn_state s in
    if (TurnState.turn_end ts <=? datetime_now (State.now_reads s)) || force
    then TurnUpdate (opposite_role (TurnState.turn ts))
           (moves_per_turn (opposite_role (TurnState.turn ts)))
           (TurnState.turns_left ts - 1)
           (datetime_now (S (State.now_reads s))
            + turn_duration (opposite_role (TurnState.turn ts)))
           (TurnState.game_start ts) (TurnState.sets_collected ts)
           (TurnState.score ts)
    else TurnUpdate (TurnState.turn ts)
           (Z.max (TurnState.moves_remaining ts - 1) 0)
           (TurnState.turns_left ts) (TurnState.turn_end ts)
           (TurnState.game_start ts) (TurnState.sets_collected ts)
           (TurnState.score ts).
Proof.
  unfold end_turn_if_over, now, opposite_role. simpl.
  destruct (_ || force); simpl; now rewrite record_turn_state_eq.
Qed.

Lemma end_turn_if_over_actors (force : bool) (s : State.t) :
  State._actors (end_turn_if_over force s) = State._actors s.
Proof.
  unfold end_turn_if_over, now. simpl.
  destruct (_ || force); simpl; now rewrite record_turn_state_eq.
Qed.

(** A valid action of the actor whose turn it is, with a move left, is
    stepped and recorded, and then [end_turn_if_over] runs on a room with
    the same turn state and the same clock position. *)
Lemma update_actor_commits (csi : bool) (actor_id : Z) (s : State.t)
    (actor : Actor.t) (proposed : Action.t) (rest : list Action.t) :
  room_ok s ->
  odict.get actor_id (State._actors s) = Some actor ->
  Actor._actions actor = proposed :: rest ->
  TurnState.turn (State._turn_state s) = Actor.role actor ->
  TurnState.moves_remaining (State._turn_state s) <> 0 ->
  valid_action actor_id proposed = Some true ->
  exists s2,
    update_actor csi actor_id s = Some (end_turn_if_over false s2)
    /\ odict.get actor_id (State._actors s2) = Some (Actor.step actor)
    /\ State._turn_state s2 = State._turn_state s
    /\ State.now_reads s2 = State.now_reads s.
Proof.
  intros Hok Hget Hq Hturn Hmoves Hvalid.
  unfold update_actor. rewrite Hget. simpl.
  unfold Actor.has_actions, Actor.peek. rewrite Hq. simpl.
  rewrite Hturn, Role_eqb_refl. simpl.
  apply Z.eqb_neq in Hmoves. rewrite Hmoves, Hvalid. simpl.
  set (sa := State.with_actors
               (odict.set actor_id (Actor.step actor) (State._actors s)) s).
  assert (Hoka : room_ok sa).
  { apply (room_ok_set_actor actor_id actor _ s Hget); [|exact Hok].
    unfold Actor.step. now rewrite Hq. }
  destruct (record_action_ready proposed sa (proj2 Hoka))
    as (h1 & H1 & D1 & _).
  rewrite H1. simpl.
  set (s1 := State.with_action_history h1 sa).
  assert (Hok1 : room_ok s1).
  { apply (room_ok_frame sa); auto. intros k. apply D1. }
  assert (Hget1 : odict.get actor_id (State._actors s1)
                  = Some (Actor.step actor))
    by apply odict_get_set_eq.
  unfold check_for_stepped_on_cards. rewrite Hget1. simpl.
  destruct (MapProvider.card_by_location _ _) as [card|].
  - destruct (ActionType.eqb _ _).
    + set (sb := State.with_map_provider _ s1).
      assert (Hokb : room_ok sb) by (apply (room_ok_frame s1); auto).
      destruct (record_action_ready
                  (CardSelectAction (Card.id card) (negb (Card.selected card))
                     (Some (if negb csi then Color.blue else Color.red)))
                  sb (proj2 Hokb)) as (h2 & H2 & D2 & _).
      rewrite H2. simpl. eexists. split; [reflexivity|].
      split; [exact Hget1|]. split; reflexivity.
    + simpl. exists s1. split; [reflexivity|].
      split; [exact Hget1|]. split; reflexivity.
  - simpl. exists s1. split; [reflexivity|].
    split; [exact Hget1|]. split; reflexivity.
Qed.

(** C5 (amended).  Provided the game-over turn state of the absent
    [GameOverMessage] has no negative [moves_remaining], every reachable
    room has [moves_remaining >= 0].  In a reachable room a committed move,
    one that passes the turn, moves and validity checks, is stepped, and
    then: if the clock read at the commit is still before [turn_end],
    [moves_remaining] decreases by exactly 1 and the turn stays; if the
    clock has reached [turn_end], the same call ends the turn instead and
    [moves_remaining] becomes the allowance of the other role. *)
Theorem moves_remaining_invariant :
  (forall game_start sets_collected score,
     0 <= TurnState.moves_remaining
            (GameOverMessage game_start sets_collected score)) ->
  (forall s, reachable s ->
     0 <= TurnState.moves_remaining (State._turn_state s))
  /\ (forall csi actor_id s actor proposed rest,
        reachable s ->
        odict.get actor_id (State._actors s) = Some actor ->
        Actor._actions actor = proposed :: rest ->
        TurnState.turn (State._turn_state s) = Actor.role actor ->
        TurnState.moves_remaining (State._turn_state s) <> 0 ->
        valid_action actor_id proposed = Some true ->
        exists s',
          update_actor csi actor_id s = Some s'
          /\ odict.get actor_id (State._actors s') = Some (Actor.step actor)
          /\ (datetime_now (State.now_reads s)
              < TurnState.turn_end (State._turn_state s) ->
              TurnState.moves_remaining (State._turn_state s')
              = TurnState.moves_remaining (State._turn_state s) - 1
              /\ TurnState.turn (State._turn_state s')
                 = TurnState.turn (State._turn_state s))
          /\ (TurnState.turn_end (State._turn_state s)
              <= datetime_now (State.now_reads s) ->
              TurnState.moves_remaining (State._turn_state s')
              = moves_per_turn
                  (opposite_role (TurnState.turn (State._turn_state s)))
              /\ TurnState.turn (State._turn_state s')
                 = opposite_role (TurnState.turn (State._turn_state s)))).
Proof.
  intros Hgo. split.
  - intros s Hs. apply (reachable_room_ok Hgo s Hs).
  - intros csi actor_id s actor proposed rest Hs Hget Hq Hturn Hmoves Hvalid.
    pose proof (reachable_room_ok Hgo s Hs) as Hok.
    destruct (update_actor_commits csi actor_id s actor proposed rest
                Hok Hget Hq Hturn Hmoves Hvalid)
      as (s2 & Hupd & Hget2 & Hts & Hnow).
    exists (end_turn_if_over false s2). split; [exact Hupd|].
    split; [now rewrite end_turn_if_over_actors|].
    rewrite end_turn_if_over_turn_state, Hts, Hnow. simpl.
    rewrite orb_false_r. split.
    + intros Hlt. apply Z.leb_gt in Hlt. rewrite Hlt. simpl.
      destruct Hok as [Hm _]. unfold moves_ok in Hm. split; [lia|reflexivity].
    + intros Hle. apply Z.leb_le in Hle. rewrite Hle. simpl.
      split; reflexivity.
Qed.

End Commit.

(** C5 at a concrete room: the leader's unit step, committed three
    milliseconds into the first turn, takes [moves_remaining] from 5 to 4. *)
Lemma moves_remaining_invariant_witness :
  exists s s',
    @example_room_with_walk example_world = Some s
    /\ TurnState.moves_remaining (State._turn_state s) = 5
    /\ @update_actor example_world false 1 s = Some s'
    /\ TurnState.moves_remaining (State._turn_state s') = 4.
Proof.
  assert (Hgo : forall game_start sets_collected score,
            0 <= TurnState.moves_remaining
                   (@GameOverMessage example_world game_start sets_collected
                      score))
    by (intros; simpl; lia).
  destruct (@example_room_with_walk example_world) as [s|] eqn:Hs;
    [|discriminate Hs].
  assert (Hreach : @reachable example_world s).
  { eapply reachable_handle_packet; [|exact Hs].
    apply reachable_create_actor, reachable_init. }
  vm_compute in Hs. injection Hs as Hs.
  destruct (proj2 (@moves_remaining_invariant example_world Hgo)
              false 1 s
              (Actor.add_action example_walk
                 (Actor.__init__ 1 AssetId.PLAYER Role.LEADER
                    (HecsCoord.mk 0 0 0)))
              example_walk [] Hreach)
    as (s' & Hupd & _ & Hlt & _);
    try (subst s; reflexivity); [subst s; discriminate|].
  exists s, s'. split; [reflexivity|]. split; [subst s; reflexivity|].
  split; [exact Hupd|].
  destruct Hlt as [Hm _]; [subst s; reflexivity|].
  rewrite Hm. subst s. reflexivity.
Defined.

(** C5, as stated, fails: in a reachable room the leader's valid unit step
    is committed (the leader moves, the action is sent to the outbox) while
    the clock reaches [turn_end]; the turn ends at that commit and
    [moves_remaining] goes from 5 to 10 instead of 4. *)
Lemma committed_move_at_turn_end :
  exists s s' leader leader',
    @example_room_with_walk expiry_world = Some s
    /\ @reachable expiry_world s
    /\ TurnState.moves_remaining (State._turn_state s) = 5
    /\ @update_iteration expiry_world false s = Some (false, s')
    /\ odict.get 1 (State._actors s) = Some leader
    /\ Actor.location leader = HecsCoord.mk 0 0 0
    /\ odict.get 1 (State._actors s') = Some leader'
    /\ Actor.location leader' = HecsCoord.mk 0 0 1
    /\ State._action_history s' !! 1 = Some [example_walk]
    /\ TurnState.moves_remaining (State._turn_state s') = 10.
Proof.
  destruct (@example_room_with_walk expiry_world) as [s|] eqn:Hs;
    [|discriminate Hs].
  assert (Hreach : @reachable expiry_world s).
  { eapply reachable_handle_packet; [|exact Hs].
    apply reachable_create_actor, reachable_init. }
  vm_compute in Hs. injection Hs as Hs.
  exists s. subst s.
  eexists. eexists. eexists.
  split; [reflexivity|]. split; [exact Hreach|].
  split; [reflexivity|]. split; [vm_compute; reflexivity|].
  split; [reflexivity|]. split; [reflexivity|].
  split; [reflexivity|]. split; [reflexivity|].
  split; reflexivity.
Qed.

(** ** C8: one Pong per PING on the client mirror *)

Lemma _handle_message_queue (message : Client.FromServer)
    (game game' : Client.Game) :
  Client._handle_message message game = Some game' ->
  exists extra,
    Client.queued_messages game' = Client.queued_messages game ++ extra.
Proof.
  destruct message; simpl; intros [= <-]; simpl;
    try (exists []; now rewrite app_nil_r).
  - exists []. rewrite app_nil_r.
    induction actions as [|a l IH] using rev_ind; [reflexivity|].
    rewrite fold_left_app. simpl. unfold Client.enqueue_action at 1.
    destruct (Action.id a =? _); [exact IH|].
    destruct (odict.get _ _); [exact IH|exact IH].
  - now exists [Client.PongMessage].
Qed.

Lemma _wait_for_tick_queue (frames : list Client.Frame) (game : Client.Game)
    waited frames' game' :
  Client._wait_for_tick frames game = Some (waited, frames', game') ->
  exists extra,
    Client.queued_messages game' = Client.queued_messages game ++ extra.
Proof.
  revert game. induction frames as [|f frames IH]; intros game; simpl.
  - intros [= <- <- <-]. exists []. now rewrite app_nil_r.
  - destruct f as [| | | |response]; try apply IH.
    + intros [= <- <- <-]. exists []. now rewrite app_nil_r.
    + destruct (Client._handle_message response game) as [g1|] eqn:E;
        [|discriminate].
      simpl. destruct (_handle_message_queue _ _ _ E) as [e1 He1].
      destruct (Client.is_tick response).
      * intros [= <- <- <-]. eauto.
      * intros H. destruct (IH _ H) as [e2 He2].
        exists (e1 ++ e2). now rewrite He2, He1, app_assoc.
Qed.

Lemma wait_until_can_act_queue (fuel : nat) (frames : list Client.Frame)
    (game : Client.Game) frames' game' :
  Client.wait_until_can_act fuel frames game = Some (frames', game') ->
  exists extra,
    Client.queued_messages game' = Client.queued_messages game ++ extra.
Proof.
  revert frames game. induction fuel as [|fuel IH]; intros frames game; simpl.
  - destruct (Client._can_act game); [|discriminate].
    intros [= <- <-]. exists []. now rewrite app_nil_r.
  - destruct (Client._can_act game).
    + intros [= <- <-]. exists []. now rewrite app_nil_r.
    + destruct (Client._wait_for_tick frames game) as [[[w f1] g1]|] eqn:E;
        [|discriminate].
      simpl. destruct w; [|discriminate].
      destruct (_wait_for_tick_queue _ _ _ _ _ E) as [e1 He1].
      intros H. destruct (IH _ _ H) as [e2 He2].
      exists (e1 ++ e2). now rewrite He2, He1, app_assoc.
Qed.

Lemma send_all_open (l : list Client.ToServer) (ws : Client.Socket) :
  Client.closed ws = false ->
  fold_left (fun ws message => Client._send_message message ws) l ws
  = Client.mkSocket false (Client.sent ws ++ l) (Client.inbox ws).
Proof.
  revert ws. induction l as [|m l IH]; intros ws Hopen; simpl.
  - rewrite app_nil_r. destruct ws; simpl in *. now subst.
  - rewrite IH.
    + unfold Client._send_message. rewrite Hopen. simpl.
      now rewrite <- app_assoc.
    + unfold Client._send_message. now rewrite Hopen.
Qed.

(** Every call of [step] on an open socket writes the whole of
    [queued_messages] and returns a game whose [queued_messages] still
    starts with all of them: nothing is ever taken off the queue. *)
Lemma step_resends_queue (action : Client.StepAction) (ws ws' : Client.Socket)
    (game game' : Client.Game) :
  Client.closed ws = false ->
  Client.step action ws game = Some (ws', game') ->
  (exists first,
     Client.sent ws' = Client.sent ws ++ first ++ Client.queued_messages game)
  /\ (exists extra,
        Client.queued_messages game'
        = Client.queued_messages game ++ extra)
  /\ Client.closed ws' = false.
Proof.
  intros Hopen. unfold Client.step.
  destruct (negb _); [discriminate|].
  destruct (Client.message_to_server action) as [message|]; [|discriminate].
  simpl.
  set (ws1 := match message with
              | Some m => Client._send_message m ws
              | None => ws
              end).
  assert (H1 : Client.closed ws1 = false
               /\ exists first, Client.sent ws1 = Client.sent ws ++ first).
  { subst ws1. destruct message as [m|].
    - unfold Client._send_message. rewrite Hopen. simpl. eauto.
    - split; [exact Hopen|]. exists []. now rewrite app_nil_r. }
  destruct H1 as [Hopen1 [first Hfirst]].
  rewrite (send_all_open _ ws1 Hopen1). simpl.
  destruct (Client._wait_for_tick (Client.inbox ws1) game)
    as [[[w f1] g1]|] eqn:E; [|discriminate].
  simpl. destruct w; [|discriminate].
  match goal with
  | |- (?x ≫= _) = _ -> _ =>
      change x with (Client.wait_until_can_act (S (length f1)) f1 g1)
  end.
  destruct (Client.wait_until_can_act (S (length f1)) f1 g1)
    as [[f2 g2]|] eqn:E2;
    [|discriminate].
  intros [= <- <-]. simpl.
  split; [exists first; now rewrite Hfirst, app_assoc|].
  split; [|reflexivity].
  destruct (_wait_for_tick_queue _ _ _ _ _ E) as [e1 He1].
  destruct (wait_until_can_act_queue _ _ _ _ _ E2) as [e2 He2].
  exists (e1 ++ e2). now rewrite He2, He1, app_assoc.
Qed.

(** C8 (the code at the failing input).  The server sends one PING.  Three
    calls of [step] later the client has written two Pongs, and the Pong is
    still queued for the next call. *)
Theorem one_ping_two_pongs :
  count_pings (Client.inbox example_socket) = 1%nat
  /\ exists ws game,
       example_three_steps = Some (ws, game)
       /\ count_pongs (Client.sent ws) = 2%nat
       /\ Client.sent ws
          = [Client.InstructionMessage "one";
             Client.InstructionMessage "two"; Client.PongMessage;
             Client.InstructionMessage "three"; Client.PongMessage]
       /\ Client.queued_messages game = [Client.PongMessage].
Proof.
  split; [reflexivity|].
  eexists. eexists. split; [reflexivity|]. repeat split.
Qed.

(** * Further properties of the code *)

(** ** Actors *)

(** X1.  [n] steps of an actor consume the first [n] actions of its queue in
    the order they were added: the location is advanced by their
    displacements and the heading by their rotations, one after the other,
    and the rest of the queue is kept.  Steps beyond the end of the queue
    change nothing, and [drop] removes the head without moving the actor. *)
Theorem step_n_consumes_in_order `{W : World} (n : nat) (actor : Actor.t) :
  step_n n actor
  = Actor.mk (Actor._actor_id actor) (Actor._asset_id actor)
      (skipn n (Actor._actions actor))
      (fold_left (fun l a => HecsCoord_add l (Action.displacement a))
         (firstn n (Actor._actions actor)) (Actor._location actor))
      (fold_left (fun h a => (h + Action.rotation a)%Q)
         (firstn n (Actor._actions actor)) (Actor._heading_degrees actor))
      (Actor._role actor)
  /\ Actor.drop actor
     = Actor.mk (Actor._actor_id actor) (Actor._asset_id actor)
         (skipn 1 (Actor._actions actor)) (Actor._location actor)
         (Actor._heading_degrees actor) (Actor._role actor).
Proof.
  split.
  - revert actor. induction n as [|n IH]; intros actor; simpl.
    + now destruct actor.
    + rewrite IH. unfold Actor.step.
      destruct (Actor._actions actor) as [|a q] eqn:Hq; simpl.
      * rewrite Hq. simpl. now rewrite skipn_nil, firstn_nil.
      * reflexivity.
  - unfold Actor.drop, Actor.with_actions.
    destruct (Actor._actions actor) eqn:Hq; simpl; [|reflexivity].
    destruct actor; simpl in *. now subst.
Qed.

(** ** Censoring actions for the follower *)

(** X2.  [CensorActionForFollower] never returns an action with a red
    border; it changes nothing but the border colour, leaves an action whose
    border is not red as it is, and censoring twice is censoring once. *)
Theorem CensorActionForFollower_hides_red (action : Action.t) :
  Color.eqb (Action.border_color (CensorActionForFollower action)) Color.red
  = false
  /\ with_border_color (Action.border_color action)
       (CensorActionForFollower action) = action
  /\ (Color.eqb (Action.border_color action) Color.red = false ->
      CensorActionForFollower action = action)
  /\ CensorActionForFollower (CensorActionForFollower action)
     = CensorActionForFollower action.
Proof.
  unfold CensorActionForFollower.
  destruct (Color.eqb (Action.border_color action) Color.red) eqn:E.
  - split; [reflexivity|]. split; [now destruct action|].
    split; [discriminate|]. reflexivity.
  - rewrite E. split; [reflexivity|]. split; [now destruct action|].
    split; reflexivity.
Qed.

(** ** The actor table of a reachable room *)

Lemma keeps_table_refl (s : State.t) : keeps_table s s.
Proof. unfold keeps_table. repeat split; eauto. Qed.

Lemma keeps_table_trans (s1 s2 s3 : State.t) :
  keeps_table s1 s2 -> keeps_table s2 s3 -> keeps_table s1 s3.
Proof.
  intros (K1 & A1 & H1 & S1) (K2 & A2 & H2 & S2). unfold keeps_table.
  split; [congruence|]. split; [|split; auto].
  intros k a3 Hk. destruct (A2 k a3 Hk) as (a2 & Hk2 & I2).
  destruct (A1 k a2 Hk2) as (a1 & Hk1 & I1). exists a1. split; congruence.
Qed.

Lemma keeps_table_ok (s s' : State.t) :
  keeps_table s s' -> table_ok s -> table_ok s'.
Proof.
  intros (K & A & H & S) [Hnd Hok]. split; [now rewrite K|].
  intros k a' Hk. destruct (A k a' Hk) as (a & Hka & Hid).
  destruct (Hok k a Hka) as (Hi & Hh & Hs). repeat split; auto. congruence.
Qed.

(** Closes [keeps_table s s'] when [s'] is [s] with fields other than the
    actors updated, outboxes and synced bits at most added. *)
Ltac keeps_table_fields :=
  unfold keeps_table; simpl; repeat split; eauto;
  intros ? ?;
  repeat match goal with
         | |- is_Some (<[?i := _]> _ !! ?j) =>
             destruct (decide (i = j)) as [<-|?];
             [rewrite lookup_insert_eq; eauto
             |rewrite lookup_insert_ne by assumption]
         end; eauto.

Lemma fold_option_keeps_table {A} (f : State.t -> A -> option State.t)
    (l : list A) (s s' : State.t) :
  (forall s x s', f s x = Some s' -> keeps_table s s') ->
  fold_left (fun acc x => s ← acc; f s x) l (Some s) = Some s' ->
  keeps_table s s'.
Proof.
  intros Hf H.
  eapply (fold_option_preserves (keeps_table s)); [|exact H|].
  - intros s0 x s1 E K. eapply keeps_table_trans; [exact K|]. eauto.
  - apply keeps_table_refl.
Qed.

Lemma fold_keeps_table {A} (f : State.t -> A -> State.t) (l : list A)
    (s : State.t) :
  (forall s x, keeps_table s (f s x)) -> keeps_table s (fold_left f l s).
Proof.
  intros Hf. revert s. induction l as [|x l IH]; intros s; simpl.
  - apply keeps_table_refl.
  - eapply keeps_table_trans; [apply Hf|apply IH].
Qed.

Lemma odict_keys_set {V} (k : Z) (v : V) (d : odict.t V) :
  odict.keys (odict.set k v d)
  = if odict.mem k d then odict.keys d else odict.keys d ++ [k].
Proof.
  unfold odict.mem, odict.keys. induction d as [|[k' v'] d IH]; simpl.
  - reflexivity.
  - destruct (k =? k') eqn:E; simpl; [reflexivity|].
    rewrite IH. now destruct (odict.get k d).
Qed.

Lemma odict_mem_keys {V} (k : Z) (d : odict.t V) :
  odict.mem k d = true <-> In k (odict.keys d).
Proof.
  unfold odict.mem, odict.keys. induction d as [|[k' v'] d IH]; simpl.
  - split; [discriminate|tauto].
  - destruct (k =? k') eqn:E.
    + apply Z.eqb_eq in E. subst. tauto.
    + apply Z.eqb_neq in E. rewrite IH. split; [tauto|].
      intros [Heq|Hin]; [congruence|exact Hin].
Qed.

Lemma NoDup_snoc_new (k : Z) (l : list Z) :
  List.NoDup l -> ~ In k l -> List.NoDup (l ++ [k]).
Proof.
  induction 1 as [|x l Hx Hl IH]; simpl; intros Hk.
  - constructor; [intros []|constructor].
  - constructor; [|apply IH; tauto].
    rewrite in_app_iff. simpl. intros [H|[H|[]]]; [tauto|].
    apply Hk. now left.
Qed.

Lemma keeps_table_set_actor (k : Z) (actor actor' : Actor.t) (s : State.t) :
  odict.get k (State._actors s) = Some actor ->
  Actor.actor_id actor' = Actor.actor_id actor ->
  keeps_table s
    (State.with_actors (odict.set k actor' (State._actors s)) s).
Proof.
  intros Hget Hid. unfold keeps_table. simpl.
  split; [apply odict_keys_set_present; eapply odict_mem_get; eauto|].
  split; [|split; auto].
  intros j a' Hj. destruct (decide (k = j)) as [<-|Hne].
  - rewrite odict_get_set_eq in Hj. injection Hj as <-. eauto.
  - rewrite odict_get_set_ne in Hj by assumption. eauto.
Qed.

Lemma record_action_keeps_table (action : Action.t) (s s' : State.t) :
  record_action action s = Some s' -> keeps_table s s'.
Proof.
  unfold record_action. apply fold_option_keeps_table.
  clear. intros s id s' H.
  destruct (odict.get id (State._actors s)) as [actor|]; [|discriminate].
  simpl in H.
  destruct (State._action_history s !! Actor.actor_id actor) as [h|];
    [|discriminate].
  simpl in H. injection H as <-. keeps_table_fields.
Qed.

Lemma record_turn_state_keeps_table (ts : TurnState.t) (s : State.t) :
  keeps_table s (record_turn_state ts s).
Proof. rewrite record_turn_state_eq. keeps_table_fields. Qed.

Lemma desync_keeps_table (actor_id : Z) (s : State.t) :
  keeps_table s (desync actor_id s).
Proof. unfold desync. keeps_table_fields. Qed.

Lemma desync_all_keeps_table (s : State.t) : keeps_table s (desync_all s).
Proof.
  unfold desync_all. apply fold_keeps_table. intros s0 a.
  destruct (odict.get a (State._actors s0)); [apply desync_keeps_table|].
  apply keeps_table_refl.
Qed.

Lemma mark_objectives_stale_keeps_table (s : State.t) :
  keeps_table s (mark_objectives_stale s).
Proof. rewrite mark_objectives_stale_eq. keeps_table_fields. Qed.

Lemma mark_map_stale_keeps_table (s : State.t) :
  keeps_table s (mark_map_stale s).
Proof. rewrite mark_map_stale_eq. keeps_table_fields. Qed.

Lemma handle_action_keeps_table actor_id action s s' :
  handle_action actor_id action s = Some s' -> keeps_table s s'.
Proof.
  unfold handle_action. destruct (negb _).
  - intros [= <-]. apply desync_keeps_table.
  - destruct (odict.get actor_id (State._actors s)) as [actor|] eqn:Hget;
      [|discriminate].
    simpl. intros [= <-]. now apply (keeps_table_set_actor actor_id actor).
Qed.

Lemma drain_message_keeps_table player_id s message s' :
  drain_message player_id s = Some (message, s') -> keeps_table s s'.
Proof.
  unfold drain_message.
  assert (K1 : keeps_table s (drain_map_update player_id s).2).
  { unfold drain_map_update.
    destruct (State._map_stale s !! player_id) as [[|]|] eqn:E; simpl.
    - rewrite E. keeps_table_fields.
    - rewrite E. keeps_table_fields.
    - rewrite lookup_insert_eq. keeps_table_fields. }
  destruct (drain_map_update player_id s) as [[m|] s1]; simpl in *.
  { now intros [= <- <-]. }
  unfold is_synced.
  destruct (State._synced s1 !! player_id) as [[|]|]; simpl; [| |discriminate].
  - assert (K2 : keeps_table s1 (drain_actions player_id s1).2).
    { unfold drain_actions.
      destruct (State._action_history s1 !! player_id) as [h|] eqn:E; simpl.
      - keeps_table_fields.
      - apply keeps_table_refl. }
    destruct (drain_actions player_id s1) as [actions s2]; simpl in *.
    destruct (nonempty actions).
    { intros [= <- <-]. eapply keeps_table_trans; eassumption. }
    assert (K3 : keeps_table s2 (drain_objectives player_id s2).2).
    { unfold drain_objectives.
      destruct (State._objectives_stale s2 !! player_id) as [[|]|] eqn:E;
        simpl.
      - rewrite E. keeps_table_fields.
      - rewrite E. keeps_table_fields.
      - rewrite lookup_insert_eq. keeps_table_fields. }
    destruct (drain_objectives player_id s2) as [objectives s3]; simpl in *.
    assert (K13 : keeps_table s s3)
      by (eapply keeps_table_trans; [|exact K3];
          eapply keeps_table_trans; eassumption).
    destruct (nonempty objectives).
    { now intros [= <- <-]. }
    assert (K4 : keeps_table s3 (drain_turn_state player_id s3).2).
    { unfold drain_turn_state.
      destruct (turn_queue player_id (State._turn_history s3));
        keeps_table_fields. }
    destruct (drain_turn_state player_id s3) as [[ts|] s4]; simpl in *;
      intros [= <- <-]; eapply keeps_table_trans; eassumption.
  - unfold sync_message_for_transmission.
    destruct (state player_id s1) as [sync|]; [|discriminate]. simpl.
    intros [= <- <-]. eapply keeps_table_trans; [exact K1|].
    keeps_table_fields.
Qed.

Section TableInvariant.
Context `{W : World}.

Lemma end_turn_if_over_keeps_table (force : bool) (s : State.t) :
  keeps_table s (end_turn_if_over force s).
Proof.
  unfold end_turn_if_over, now. simpl.
  destruct (_ || force); simpl; rewrite record_turn_state_eq;
    keeps_table_fields.
Qed.

Lemma check_for_stepped_on_cards_keeps_table actor_id action color s s' :
  check_for_stepped_on_cards actor_id action color s = Some s' ->
  keeps_table s s'.
Proof.
  unfold check_for_stepped_on_cards.
  destruct (odict.get actor_id (State._actors s)) as [actor|]; [|discriminate].
  simpl. destruct (MapProvider.card_by_location _ _) as [card|].
  - destruct (ActionType.eqb _ _).
    + intros H. apply record_action_keeps_table in H.
      eapply keeps_table_trans; [|exact H]. keeps_table_fields.
    + intros [= <-]. apply keeps_table_refl.
  - intros [= <-]. apply keeps_table_refl.
Qed.

Lemma update_actor_keeps_table csi actor_id s s' :
  update_actor csi actor_id s = Some s' -> keeps_table s s'.
Proof.
  unfold update_actor.
  destruct (odict.get actor_id (State._actors s)) as [actor|] eqn:Hget;
    [|discriminate].
  simpl. destruct (Actor.has_actions actor);
    [|intros [= <-]; apply keeps_table_refl].
  destruct (Actor.peek actor) as [proposed|]; [|discriminate]. simpl.
  assert (Hdrop : keeps_table s
            (desync actor_id
               (State.with_actors
                  (odict.set actor_id (Actor.drop actor) (State._actors s))
                  s))).
  { eapply keeps_table_trans; [|apply desync_keeps_table].
    apply (keeps_table_set_actor actor_id actor _ s Hget).
    unfold Actor.drop. now destruct (Actor._actions actor). }
  destruct (negb _); [intros [= <-]; exact Hdrop|].
  destruct (_ =? 0); [intros [= <-]; exact Hdrop|].
  destruct (valid_action _ _) as [[|]|]; simpl;
    [|intros [= <-]; exact Hdrop|discriminate].
  destruct (record_action proposed _) as [s1|] eqn:E1; [|discriminate].
  simpl.
  destruct (check_for_stepped_on_cards _ _ _ s1) as [s2|] eqn:E2;
    [|discriminate].
  simpl. intros [= <-].
  eapply keeps_table_trans; [|apply end_turn_if_over_keeps_table].
  eapply keeps_table_trans;
    [|exact (check_for_stepped_on_cards_keeps_table _ _ _ _ _ E2)].
  eapply keeps_table_trans; [|exact (record_action_keeps_table _ _ _ E1)].
  apply (keeps_table_set_actor actor_id actor _ s Hget).
  unfold Actor.step. now destruct (Actor._actions actor).
Qed.

Lemma update_cards_keeps_table csi s csi' s' :
  update_cards csi s = Some (csi', s') -> keeps_table s s'.
Proof.
  assert (Houtline : forall cs color x y,
            outline_cards cs color x = Some y -> keeps_table x y).
  { intros cs color x y. unfold outline_cards.
    apply fold_option_keeps_table.
    intros s0 c s1. apply record_action_keeps_table. }
  assert (Hclear : forall cs x y, clear_cards cs x = Some y -> keeps_table x y).
  { intros cs x y. unfold clear_cards. apply fold_option_keeps_table.
    intros s0 c s1 H.
    destruct (record_action _ _) as [s2|] eqn:E; [|discriminate].
    simpl in H. injection H as <-.
    apply record_action_keeps_table in E.
    eapply keeps_table_trans; [|eapply keeps_table_trans; [exact E|]];
      keeps_table_fields. }
  assert (Hcollect : forall cs x y, collect_set cs x = Some y -> keeps_table x y).
  { intros cs x y. unfold collect_set.
    destruct (clear_cards cs _) as [s1|] eqn:E; [|discriminate].
    simpl. intros [= <-]. apply Hclear in E.
    eapply keeps_table_trans; [apply record_turn_state_keeps_table|].
    eapply keeps_table_trans; [exact E|]. keeps_table_fields. }
  unfold update_cards. intros H.
  set (sel := MapProvider.selected_cards (State._map_provider s)) in *.
  destruct (if MapProvider.selected_cards_collide (State._map_provider s)
               && negb csi
            then s0 ← outline_cards sel Color.red s; Some (true, true, s0)
            else Some (csi, false, s)) as [[[c1 ch1] s1]|] eqn:E1;
    [|discriminate].
  assert (K1 : keeps_table s s1).
  { destruct (_ && negb csi).
    - destruct (outline_cards sel Color.red s) as [s0|] eqn:E; [|discriminate].
      simpl in E1. injection E1 as <- <- <-. eauto.
    - injection E1 as <- <- <-. apply keeps_table_refl. }
  simpl in H.
  destruct (if negb (MapProvider.selected_cards_collide (State._map_provider s1))
               && c1
            then s0 ← outline_cards sel Color.blue s1; Some (false, true, s0)
            else Some (c1, ch1, s1)) as [[[c2 ch2] s2]|] eqn:E2;
    [|discriminate].
  assert (K2 : keeps_table s s2).
  { eapply keeps_table_trans; [exact K1|]. destruct (_ && c1).
    - destruct (outline_cards sel Color.blue s1) as [s0|] eqn:E;
        [|discriminate].
      simpl in E2. injection E2 as <- <- <-. eauto.
    - injection E2 as <- <- <-. apply keeps_table_refl. }
  simpl in H.
  destruct (if MapProvider.selected_valid_set (State._map_provider s2)
            then s0 ← collect_set sel s2; Some (false, true, s0)
            else Some (c2, ch2, s2)) as [[[c3 ch3] s3]|] eqn:E3;
    [|discriminate].
  assert (K3 : keeps_table s s3).
  { eapply keeps_table_trans; [exact K2|].
    destruct (MapProvider.selected_valid_set _).
    - destruct (collect_set sel s2) as [s0|] eqn:E; [|discriminate].
      simpl in E3. injection E3 as <- <- <-. eauto.
    - injection E3 as <- <- <-. apply keeps_table_refl. }
  simpl in H. destruct ch3; injection H as <- <-; [|exact K3].
  eapply keeps_table_trans; [exact K3|].
  eapply keeps_table_trans; [|apply mark_map_stale_keeps_table].
  keeps_table_fields.
Qed.

Lemma now_keeps_table (s : State.t) : keeps_table s (now s).2.
Proof. unfold now. keeps_table_fields. Qed.

Lemma update_iteration_keeps_table csi s csi' s' :
  update_iteration csi s = Some (csi', s') -> keeps_table s s'.
Proof.
  unfold update_iteration. destruct (_ =? -1).
  - intros [= <- <-]. unfold end_game.
    eapply keeps_table_trans; [apply record_turn_state_keeps_table|].
    keeps_table_fields.
  - intros H.
    pose proof (now_keeps_table s) as K1.
    destruct (now s) as [t s1]. simpl in K1.
    match type of H with
    | (let '(_, _) := now ?x in _) = _ => assert (Kx : keeps_table s x)
    end.
    { destruct (_ <? t); [|exact K1].
      pose proof (now_keeps_table s1) as K2.
      destruct (now s1) as [t' s2]. simpl in K2.
      eapply keeps_table_trans; [exact K1|].
      eapply keeps_table_trans; [exact K2|].
      eapply keeps_table_trans; [|apply record_turn_state_keeps_table].
      keeps_table_fields. }
    match type of H with
    | (let '(_, _) := now ?x in _) = _ =>
        pose proof (now_keeps_table x) as K3; destruct (now x) as [t3 s3]
    end.
    simpl in K3.
    match type of H with
    | (update_actors csi ?x ≫= _) = _ => assert (Ky : keeps_table s x)
    end.
    { eapply keeps_table_trans; [exact Kx|].
      eapply keeps_table_trans; [exact K3|].
      destruct (_ <=? t3); [apply end_turn_if_over_keeps_table|].
      apply keeps_table_refl. }
    destruct (update_actors csi _) as [s4|] eqn:E; [|discriminate].
    simpl in H.
    eapply keeps_table_trans; [exact Ky|].
    eapply keeps_table_trans; [|exact (update_cards_keeps_table _ _ _ _ H)].
    revert E. unfold update_actors. apply fold_option_keeps_table.
    intros s0 x s5. apply update_actor_keeps_table.
Qed.

Lemma handle_packet_keeps_table id message new_uuid s s' :
  handle_packet id message new_uuid s = Some s' -> keeps_table s s'.
Proof.
  destruct message; simpl.
  - apply fold_option_keeps_table. intros s0 x s1.
    apply handle_action_keeps_table.
  - unfold handle_objective.
    destruct (odict.get id (State._actors s)); [|discriminate]. simpl.
    destruct (negb _); intros [= <-]; [apply keeps_table_refl|].
    eapply keeps_table_trans; [|apply mark_objectives_stale_keeps_table].
    keeps_table_fields.
  - unfold handle_objective_complete.
    destruct (odict.get id (State._actors s)); [|discriminate]. simpl.
    destruct (negb _); intros [= <-]; [apply keeps_table_refl|].
    eapply keeps_table_trans; [|apply mark_objectives_stale_keeps_table].
    keeps_table_fields.
  - unfold handle_turn_complete.
    destruct (odict.get id (State._actors s)); [|discriminate]. simpl.
    destruct (negb _); intros [= <-]; [apply keeps_table_refl|].
    apply end_turn_if_over_keeps_table.
  - intros [= <-]. apply desync_keeps_table.
  - intros [= <-]. apply keeps_table_refl.
Qed.

Lemma create_actor_table_ok role new_id s :
  table_ok s -> table_ok (create_actor role new_id s).2.
Proof.
  intros [Hnd Hok]. unfold create_actor.
  destruct (match rev (State._spawn_points s) with
            | [] => _ | p :: front => _ end) as [spawn_point rest].
  simpl. apply (keeps_table_ok _ _ (desync_all_keeps_table _)).
  split; simpl.
  - rewrite odict_keys_set.
    destruct (odict.mem new_id (State._actors s)) eqn:E; [exact Hnd|].
    apply NoDup_ListNoDup.
    apply NoDup_snoc_new; [now apply NoDup_ListNoDup|].
    intros Hin. apply odict_mem_keys in Hin. congruence.
  - intros j a Hj. destruct (decide (new_id = j)) as [<-|Hne].
    + rewrite odict_get_set_eq in Hj. injection Hj as <-.
      split; [reflexivity|]. rewrite !lookup_insert_eq. eauto.
    + rewrite odict_get_set_ne in Hj by assumption.
      destruct (Hok j a Hj) as (Hid & Hh & Hs). split; [exact Hid|].
      now rewrite !lookup_insert_ne.
Qed.

Lemma free_actor_table_ok actor_id s :
  table_ok s -> table_ok (free_actor actor_id s).
Proof.
  intros [Hnd Hok]. unfold free_actor.
  apply (keeps_table_ok _ _ (desync_all_keeps_table _)).
  split; simpl.
  - apply NoDup_ListNoDup. apply NoDup_ListNoDup in Hnd.
    unfold odict.keys, odict.del.
    clear Hok. unfold odict.keys in Hnd.
    induction (State._actors s) as [|[k v] d IH]; simpl; [constructor|].
    inversion Hnd as [|? ? Hnotin Hnd']; subst.
    destruct (actor_id =? k); simpl; [now apply IH|].
    constructor; [|now apply IH].
    intros Hin. apply Hnotin. clear -Hin.
    induction d as [|[k' v'] d IHd]; simpl in *; [exact Hin|].
    destruct (actor_id =? k'); simpl in *; [right; now apply IHd|].
    destruct Hin; [now left|right; now apply IHd].
  - intros j a Hj. rewrite odict_get_del in Hj.
    destruct (j =? actor_id) eqn:E; [discriminate|].
    apply Z.eqb_neq in E.
    destruct (Hok j a Hj) as (Hid & Hh & Hs). split; [exact Hid|].
    split; [now rewrite lookup_delete_ne|exact Hs].
Qed.

Lemma reachable_table (s : State.t) : reachable s -> table_ok s.
Proof.
  induction 1.
  - unfold State_init. rewrite record_turn_state_eq. split; simpl.
    + constructor.
    + discriminate.
  - eapply keeps_table_ok; [|eassumption].
    eapply update_iteration_keeps_table; eassumption.
  - eapply keeps_table_ok; [|eassumption].
    eapply handle_packet_keeps_table; eassumption.
  - now apply create_actor_table_ok.
  - now apply free_actor_table_ok.
  - eapply keeps_table_ok; [|eassumption].
    eapply drain_message_keeps_table; eassumption.
Qed.

End TableInvariant.

(** ** Draining until nothing is left *)

Lemma drain_message_quiet_inv (player_id : Z) (s s' : State.t) :
  drain_message player_id s = Some (None, s') ->
  State._map_stale s' !! player_id = Some false
  /\ State._synced s' !! player_id = Some true
  /\ (State._action_history s' !! player_id = None
      \/ State._action_history s' !! player_id = Some [])
  /\ State._objectives_stale s' !! player_id = Some false
  /\ State._turn_history s' !! player_id = Some [].
Proof.
  unfold drain_message, drain_map_update.
  destruct (State._map_stale s !! player_id) as [[|]|] eqn:Hm; simpl;
    [rewrite Hm; discriminate| |rewrite lookup_insert_eq; discriminate].
  rewrite Hm. simpl. unfold is_synced. simpl.
  destruct (State._synced s !! player_id) as [[|]|] eqn:Hs; simpl;
    [| |discriminate].
  2:{ unfold sync_message_for_transmission.
      destruct (state _ _); discriminate. }
  unfold drain_actions. simpl.
  destruct (State._action_history s !! player_id) as [[|a l]|] eqn:Ha; simpl;
    [| discriminate |].
  - unfold drain_objectives. simpl.
    destruct (State._objectives_stale s !! player_id) as [[|]|] eqn:Ho; simpl;
      rewrite ?Ho, ?lookup_insert_eq; simpl;
      try (destruct (State._objectives s); [|discriminate]; simpl);
      unfold drain_turn_state; simpl;
      (destruct (turn_queue player_id (State._turn_history s));
       [|discriminate]); intros [= <-]; simpl;
      rewrite ?lookup_insert_eq; auto.
  - unfold drain_objectives. simpl.
    destruct (State._objectives_stale s !! player_id) as [[|]|] eqn:Ho; simpl;
      rewrite ?Ho, ?lookup_insert_eq; simpl;
      try (destruct (State._objectives s); [|discriminate]; simpl);
      unfold drain_turn_state; simpl;
      (destruct (turn_queue player_id (State._turn_history s));
       [|discriminate]); intros [= <-]; simpl;
      rewrite ?lookup_insert_eq; auto.
Qed.

(** A drain of a room where nothing is pending for the player returns
    nothing and leaves the room as it is. *)
Lemma drain_message_quiet (player_id : Z) (s : State.t) :
  State._map_stale s !! player_id = Some false ->
  State._synced s !! player_id = Some true ->
  (State._action_history s !! player_id = None
   \/ State._action_history s !! player_id = Some []) ->
  State._objectives_stale s !! player_id = Some false ->
  State._turn_history s !! player_id = Some [] ->
  drain_message player_id s = Some (None, s).
Proof.
  intros Hm Hs Ha Ho Ht.
  unfold drain_message, drain_map_update. rewrite Hm. simpl. rewrite Hm. simpl.
  unfold is_synced. simpl. rewrite Hs. simpl.
  unfold drain_actions. simpl.
  destruct Ha as [Ha|Ha]; rewrite Ha; simpl;
    unfold drain_objectives; simpl; rewrite Ho; simpl; rewrite Ho; simpl;
    unfold drain_turn_state, turn_queue; simpl; rewrite Ht; simpl;
    do 2 f_equal; destruct s; simpl in *;
    rewrite ?insert_id by assumption; reflexivity.
Qed.

(** X4.  Once [drain_message] has returned nothing for a player, the room is
    settled for that player: the next drain returns nothing again and does
    not change the room. *)
Theorem drain_message_settles (player_id : Z) (s s' : State.t) :
  drain_message player_id s = Some (None, s') ->
  drain_message player_id s' = Some (None, s').
Proof.
  intros H.
  destruct (drain_message_quiet_inv _ _ _ H) as (Hm & Hs & Ha & Ho & Ht).
  now apply drain_message_quiet.
Qed.

Lemma drain_message_settles_witness :
  drain_message 1 example_state = Some (None, example_state)
  /\ drain_message 1 example_state = Some (None, example_state).
Proof.
  split; [reflexivity|].
  apply (drain_message_settles 1 example_state example_state). reflexivity.
Defined.

Ltac pending_after :=
  unfold pending, map_is_stale, objectives_are_stale, outbox, turn_queue;
  simpl;
  repeat match goal with
         | H : _ !! _ = _ |- _ => rewrite H
         end;
  rewrite ?lookup_insert_eq; simpl; try lia.

(** X5.  Every message that [drain_message] hands out takes something off
    what is pending for the player, and a drain that returns nothing leaves
    nothing pending: draining a player's messages one by one comes to an
    end. *)
Theorem drain_message_reduces_pending (player_id : Z) (s s' : State.t)
    (message : option MessageFromServer) :
  drain_message player_id s = Some (message, s') ->
  (message = None -> pending player_id s' = 0%nat)
  /\ (message <> None -> (pending player_id s' < pending player_id s)%nat).
Proof.
  unfold drain_message, drain_map_update.
  destruct (State._map_stale s !! player_id) as [[|]|] eqn:Hm; simpl.
  - rewrite Hm. intros [= <- <-]. split; [discriminate|intros _].
    pending_after.
  - rewrite Hm. simpl. unfold is_synced. simpl.
    destruct (State._synced s !! player_id) as [[|]|] eqn:Hs; simpl;
      [| |discriminate].
    + unfold drain_actions. simpl.
      destruct (State._action_history s !! player_id) as [[|a l]|] eqn:Ha;
        simpl.
      * unfold drain_objectives. simpl.
        destruct (State._objectives_stale s !! player_id) as [[|]|] eqn:Ho;
          simpl; rewrite ?Ho, ?lookup_insert_eq; simpl.
        -- destruct (State._objectives s) eqn:Hobj; simpl.
           ++ unfold drain_turn_state. simpl.
              destruct (turn_queue player_id (State._turn_history s)) eqn:Hq;
                intros [= <- <-]; (split; [intros E; try discriminate E
                                          |intros E; try congruence]);
                unfold turn_queue in Hq; pending_after.
              all: rewrite ?Hq; simpl; lia.
           ++ intros [= <- <-]. split; [discriminate|intros _].
              pending_after.
        -- unfold drain_turn_state. simpl.
           destruct (turn_queue player_id (State._turn_history s)) eqn:Hq;
             intros [= <- <-]; (split; [intros E; try discriminate E
                                       |intros E; try congruence]);
             unfold turn_queue in Hq; pending_after.
           all: rewrite ?Hq; simpl; lia.
        -- destruct (State._objectives s) eqn:Hobj; simpl.
           ++ unfold drain_turn_state. simpl.
              destruct (turn_queue player_id (State._turn_history s)) eqn:Hq;
                intros [= <- <-]; (split; [intros E; try discriminate E
                                          |intros E; try congruence]);
                unfold turn_queue in Hq; pending_after.
              all: rewrite ?Hq; simpl; lia.
           ++ intros [= <- <-]. split; [discriminate|intros _].
              pending_after.
      * intros [= <- <-]. split; [discriminate|intros _]. pending_after.
      * unfold drain_objectives. simpl.
        destruct (State._objectives_stale s !! player_id) as [[|]|] eqn:Ho;
          simpl; rewrite ?Ho, ?lookup_insert_eq; simpl.
        -- destruct (State._objectives s) eqn:Hobj; simpl.
           ++ unfold drain_turn_state. simpl.
              destruct (turn_queue player_id (State._turn_history s)) eqn:Hq;
                intros [= <- <-]; (split; [intros E; try discriminate E
                                          |intros E; try congruence]);
                unfold turn_queue in Hq; pending_after.
              all: rewrite ?Hq; simpl; lia.
           ++ intros [= <- <-]. split; [discriminate|intros _].
              pending_after.
        -- unfold drain_turn_state. simpl.
           destruct (turn_queue player_id (State._turn_history s)) eqn:Hq;
             intros [= <- <-]; (split; [intros E; try discriminate E
                                       |intros E; try congruence]);
             unfold turn_queue in Hq; pending_after.
           all: rewrite ?Hq; simpl; lia.
        -- destruct (State._objectives s) eqn:Hobj; simpl.
           ++ unfold drain_turn_state. simpl.
              destruct (turn_queue player_id (State._turn_history s)) eqn:Hq;
                intros [= <- <-]; (split; [intros E; try discriminate E
                                          |intros E; try congruence]);
                unfold turn_queue in Hq; pending_after.
              all: rewrite ?Hq; simpl; lia.
           ++ intros [= <- <-]. split; [discriminate|intros _].
              pending_after.
    + unfold sync_message_for_transmission.
      destruct (state player_id _) as [sync|]; [|discriminate]. simpl.
      intros [= <- <-]. split; [discriminate|intros _]. pending_after.
  - rewrite lookup_insert_eq. intros [= <- <-].
    split; [discriminate|intros _]. pending_after.
Qed.

Lemma drain_message_reduces_pending_witness :
  exists s',
    drain_message 1 example_state_stale_objectives
    = Some (Some (GameStateFromServer example_turn), s')
    /\ (pending 1 s' < pending 1 example_state_stale_objectives)%nat.
Proof.
  eexists. split; [reflexivity|].
  apply (drain_message_reduces_pending 1 example_state_stale_objectives _ _
           eq_refl).
  discriminate.
Defined.

(** ** [has_pending_messages] against the drain *)

(** What [has_pending_messages] tests for one actor. *)
Lemma has_pending_messages_fold (s : State.t) (l : list Z) (acc : option bool) :
  fold_left
    (fun acc actor_id =>
       found ← acc;
       if found : bool then Some true
       else
         synced ← is_synced actor_id s;
         if negb synced then Some true
         else
           history ← State._action_history s !! actor_id;
           if nonempty history then Some true
           else
             stale ← State._objectives_stale s !! actor_id;
             if stale : bool then Some true
             else
               queue ← State._turn_history s !! actor_id;
               if nonempty queue then Some true else Some false)
    l acc = Some false ->
  acc = Some false
  /\ forall k, In k l ->
       State._synced s !! k = Some true
       /\ State._action_history s !! k = Some []
       /\ State._objectives_stale s !! k = Some false
       /\ State._turn_history s !! k = Some [].
Proof.
  revert acc. induction l as [|a l IH]; intros acc; simpl.
  - intros ->. split; [reflexivity|]. intros k [].
  - intros H. apply IH in H. destruct H as [Hacc Hl].
    destruct acc as [[|]|]; simpl in Hacc; try discriminate.
    unfold is_synced in Hacc.
    destruct (State._synced s !! a) as [[|]|] eqn:Hs; simpl in Hacc;
      try discriminate.
    destruct (State._action_history s !! a) as [[|x h]|] eqn:Ha;
      simpl in Hacc; try discriminate.
    destruct (State._objectives_stale s !! a) as [[|]|] eqn:Ho;
      simpl in Hacc; try discriminate.
    destruct (State._turn_history s !! a) as [[|y q]|] eqn:Ht;
      simpl in Hacc; try discriminate.
    split; [reflexivity|]. intros k [<-|Hk]; auto.
Qed.

(** X6.  When [has_pending_messages] answers [False], a drain for any actor
    of the room whose map is fresh returns nothing and leaves the room as it
    is.  The map is the one thing [has_pending_messages] does not look
    at. *)
Theorem has_pending_messages_false_drain (player_id : Z) (s : State.t) :
  has_pending_messages s = Some false ->
  In player_id (odict.keys (State._actors s)) ->
  map_is_stale player_id s = false ->
  drain_message player_id s = Some (None, s).
Proof.
  intros H Hin Hmap.
  apply has_pending_messages_fold in H. destruct H as [_ H].
  destruct (H player_id Hin) as (Hs & Ha & Ho & Ht).
  apply drain_message_quiet; auto.
  unfold map_is_stale in Hmap.
  destruct (State._map_stale s !! player_id) as [[|]|]; congruence.
Qed.

Lemma has_pending_messages_false_drain_witness :
  drain_message 2 example_state = Some (None, example_state).
Proof.
  apply (has_pending_messages_false_drain 2 example_state).
  - reflexivity.
  - simpl. auto.
  - reflexivity.
Defined.

(** ** Outboxes and turn queues: what is recorded is what is drained *)

Lemma example_state_table_ok : table_ok example_state.
Proof.
  split.
  - apply NoDup_ListNoDup. simpl.
    repeat constructor; simpl; intros H; repeat destruct H as [H|H];
      try discriminate H; exact H.
  - intros k actor. simpl.
    destruct (k =? 1) eqn:E1; [|destruct (k =? 2) eqn:E2; [|discriminate]].
    + apply Z.eqb_eq in E1. subst k. intros [= <-].
      split; [reflexivity|]. split; now eexists.
    + apply Z.eqb_eq in E2. subst k. intros [= <-].
      split; [reflexivity|]. split; now eexists.
Qed.

Lemma record_action_exact_fold (action : Action.t) (s : State.t) (l : list Z)
    (h : gmap Z (list Action.t)) :
  (forall k actor, odict.get k (State._actors s) = Some actor ->
     Actor.actor_id actor = k /\ is_Some (h !! k)) ->
  (forall k, In k l -> In k (odict.keys (State._actors s))) ->
  List.NoDup l ->
  exists h',
    fold_left
      (fun acc id =>
         s ← acc;
         actor ← odict.get id (State._actors s);
         history ← State._action_history s !! Actor.actor_id actor;
         Some (State.with_action_history
                 (<[Actor.actor_id actor := history ++ [action]]>
                    (State._action_history s)) s))
      l (Some (State.with_action_history h s))
    = Some (State.with_action_history h' s)
    /\ forall j,
         h' !! j = if in_dec Z.eq_dec j l
                   then (fun old => old ++ [action]) <$> h !! j
                   else h !! j.
Proof.
  revert h. induction l as [|k l IH]; intros h Hh Hl Hnd; simpl.
  - exists h. split; [reflexivity|]. reflexivity.
  - destruct (odict_get_keys k (State._actors s)) as [actor Hget];
      [apply Hl; now left|].
    rewrite Hget. simpl.
    destruct (Hh k actor Hget) as [Hid [history Hhist]].
    rewrite Hid, Hhist. simpl.
    rewrite with_action_history_twice.
    apply List.NoDup_cons_iff in Hnd as [Hk Hnd'].
    destruct (IH (<[k := history ++ [action]]> h)) as (h' & Hfold & Hlook).
    + intros k' actor' Hget'. destruct (Hh k' actor' Hget') as [Hid' Hsome].
      split; [exact Hid'|].
      destruct (decide (k = k')) as [->|Hne].
      * rewrite lookup_insert_eq. eauto.
      * now rewrite lookup_insert_ne.
    + intros k' Hk'. apply Hl. now right.
    + exact Hnd'.
    + exists h'. split; [exact Hfold|]. intros j. rewrite Hlook.
      destruct (Z.eq_dec k j) as [<-|Hne].
      * destruct (in_dec Z.eq_dec k l); [contradiction|].
        now rewrite lookup_insert_eq, Hhist.
      * rewrite lookup_insert_ne by assumption.
        destruct (in_dec Z.eq_dec j l); reflexivity.
Qed.

(** X7.  In a well-formed room [record_action] does not raise, and the
    action reaches every actor exactly once: the next [drain_actions] of an
    actor returns what was waiting in its outbox followed by the action, a
    player outside the room gets nothing new, and a second [drain_actions]
    returns the empty list. *)
Theorem record_action_delivered_once (action : Action.t) (s : State.t) :
  table_ok s ->
  exists s',
    record_action action s = Some s'
    /\ forall k,
         (In k (odict.keys (State._actors s)) ->
          (drain_actions k s').1 = outbox k s ++ [action])
         /\ (~ In k (odict.keys (State._actors s)) ->
             (drain_actions k s').1 = outbox k s)
         /\ (drain_actions k (drain_actions k s').2).1 = [].
Proof.
  intros [Hnd Hok].
  destruct (record_action_exact_fold action s (odict.keys (State._actors s))
              (State._action_history s)) as (h' & Hfold & Hlook).
  - intros k actor Hget. destruct (Hok k actor Hget) as (Hid & Hh & _). auto.
  - auto.
  - now apply NoDup_ListNoDup.
  - rewrite with_action_history_id in Hfold.
    exists (State.with_action_history h' s). split; [exact Hfold|].
    intros k. unfold drain_actions, outbox. simpl. rewrite (Hlook k).
    destruct (in_dec Z.eq_dec k (odict.keys (State._actors s))) as [Hin|Hout].
    + destruct (odict_get_keys k (State._actors s) Hin) as [actor Hget].
      destruct (Hok k actor Hget) as (_ & [old Hold] & _).
      rewrite Hold. simpl. rewrite lookup_insert_eq. simpl.
      split; [reflexivity|]. split; [contradiction|reflexivity].
    + destruct (State._action_history s !! k) as [old|] eqn:Hold; simpl;
        rewrite ?lookup_insert_eq, ?(Hlook k);
        destruct (in_dec Z.eq_dec k (odict.keys (State._actors s)));
        try contradiction; rewrite ?Hold; simpl;
        (split; [contradiction|]); split; reflexivity.
Qed.

Lemma record_action_delivered_once_witness :
  exists s',
    record_action example_walk example_state = Some s'
    /\ forall k,
         (In k (odict.keys (State._actors example_state)) ->
          (drain_actions k s').1 = outbox k example_state ++ [example_walk])
         /\ (~ In k (odict.keys (State._actors example_state)) ->
             (drain_actions k s').1 = outbox k example_state)
         /\ (drain_actions k (drain_actions k s').2).1 = [].
Proof.
  apply (record_action_delivered_once example_walk example_state).
  exact example_state_table_ok.
Defined.

Lemma fold_turn_queue_exact (ts : TurnState.t) (l : list Z)
    (th : gmap Z (list TurnState.t)) :
  List.NoDup l ->
  forall j,
    fold_left (fun th k => <[k := turn_queue k th ++ [ts]]> th) l th !! j
    = if in_dec Z.eq_dec j l then Some (turn_queue j th ++ [ts]) else th !! j.
Proof.
  revert th. induction l as [|k l IH]; intros th Hnd j; simpl.
  - reflexivity.
  - apply List.NoDup_cons_iff in Hnd as [Hk Hnd'].
    rewrite (IH _ Hnd'). unfold turn_queue at 1.
    destruct (Z.eq_dec k j) as [<-|Hne].
    + destruct (in_dec Z.eq_dec k l); [contradiction|].
      now rewrite lookup_insert_eq.
    + rewrite lookup_insert_ne by assumption.
      destruct (in_dec Z.eq_dec j l); reflexivity.
Qed.

(** X8.  [record_turn_state] makes the turn state current and puts it at the
    back of the queue of every actor of the room, once, and touches no other
    queue; [drain_turn_state] then hands out the oldest queued state first,
    the new one only when nothing else was waiting. *)
Theorem record_turn_state_queued_once (ts : TurnState.t) (s : State.t)
    (k : Z) :
  NoDup (odict.keys (State._actors s)) ->
  let s' := record_turn_state ts s in
  State._turn_state s' = ts
  /\ (In k (odict.keys (State._actors s)) ->
      turn_queue k (State._turn_history s')
      = turn_queue k (State._turn_history s) ++ [ts]
      /\ (drain_turn_state k s').1
         = Some (hd ts (turn_queue k (State._turn_history s))))
  /\ (~ In k (odict.keys (State._actors s)) ->
      State._turn_history s' !! k = State._turn_history s !! k).
Proof.
  intros Hnd. apply NoDup_ListNoDup in Hnd. simpl.
  rewrite record_turn_state_eq. simpl. split; [reflexivity|].
  pose proof (fold_turn_queue_exact ts _ (State._turn_history s) Hnd k) as Hk.
  split.
  - intros Hin.
    destruct (in_dec Z.eq_dec k (odict.keys (State._actors s)));
      [|contradiction].
    assert (Hq : turn_queue k
                   (fold_left (fun th k => <[k := turn_queue k th ++ [ts]]> th)
                      (odict.keys (State._actors s)) (State._turn_history s))
                 = turn_queue k (State._turn_history s) ++ [ts]).
    { unfold turn_queue at 1. now rewrite Hk. }
    split; [exact Hq|].
    unfold drain_turn_state. simpl. rewrite Hq.
    destruct (turn_queue k (State._turn_history s)); reflexivity.
  - intros Hout.
    destruct (in_dec Z.eq_dec k (odict.keys (State._actors s)));
      [contradiction|exact Hk].
Qed.

Lemma record_turn_state_queued_once_witness :
  turn_queue 2
    (State._turn_history
       (record_turn_state example_turn example_state_stale_objectives))
  = [example_turn]
  /\ turn_queue 1
       (State._turn_history
          (record_turn_state example_turn example_state_stale_objectives))
     = [example_turn; example_turn].
Proof.
  assert (Hnd : NoDup (odict.keys
                         (State._actors example_state_stale_objectives)))
    by exact (proj1 example_state_table_ok).
  split.
  - apply (record_turn_state_queued_once example_turn
             example_state_stale_objectives 2 Hnd). simpl. auto.
  - apply (record_turn_state_queued_once example_turn
             example_state_stale_objectives 1 Hnd). simpl. auto.
Defined.

(** ** The state sync lists the room *)

Lemma odict_get_NoDup {V} (k : Z) (v : V) (d : odict.t V) :
  List.NoDup (odict.keys d) -> In (k, v) d -> odict.get k d = Some v.
Proof.
  unfold odict.keys. induction d as [|[k' v'] d IH]; simpl; intros Hnd Hin.
  - destruct Hin.
  - apply List.NoDup_cons_iff in Hnd as [Hk Hnd'].
    destruct Hin as [[= -> ->]|Hin].
    + now rewrite Z.eqb_refl.
    + destruct (k =? k') eqn:E.
      * apply Z.eqb_eq in E. subst k'. exfalso. apply Hk.
        apply in_map_iff. now exists (k, v).
      * now apply IH.
Qed.

Lemma state_fold_list (d rest : odict.t Actor.t) (acc : list StateSync.Actor) :
  (forall p, In p rest -> odict.get p.1 d = Some p.2) ->
  fold_left
    (fun acc a =>
       actor_states ← acc;
       actor ← odict.get a d;
       Some (actor_states ++ [actor_state actor]))
    (odict.keys rest) (Some acc)
  = Some (acc ++ List.map (fun p => actor_state p.2) rest).
Proof.
  revert acc. induction rest as [|p rest IH]; intros acc Hrest; simpl.
  - now rewrite app_nil_r.
  - rewrite (Hrest p) by now left. simpl.
    rewrite IH by (intros q Hq; apply Hrest; now right).
    now rewrite <- app_assoc.
Qed.

(** X9.  The state sync built for a player names that player, counts the
    actors of the room and lists every actor once, in the order the actors
    joined, with its id, asset, location and heading. *)
Theorem state_lists_every_actor (actor_id : Z) (s : State.t) :
  NoDup (odict.keys (State._actors s)) ->
  state actor_id s
  = Some (StateSync.mk (length (State._actors s))
            (List.map (fun p => actor_state p.2) (State._actors s)) actor_id).
Proof.
  intros Hnd. apply NoDup_ListNoDup in Hnd. unfold state.
  rewrite (state_fold_list (State._actors s) (State._actors s) []).
  - reflexivity.
  - intros [k v] Hin. simpl. now apply odict_get_NoDup.
Qed.

Lemma state_lists_every_actor_witness :
  state 2 example_state
  = Some (StateSync.mk 2
            [actor_state example_leader; actor_state example_follower] 2).
Proof.
  apply (state_lists_every_actor 2 example_state).
  exact (proj1 example_state_table_ok).
Defined.

(** ** Admission and departure *)

Lemma desync_all_fold_lookup (s : State.t) (l : list Z) (m : gmap Z bool) :
  exists m',
    fold_left
      (fun s a =>
         match odict.get a (State._actors s) with
         | Some actor => desync (Actor.actor_id actor) s
         | None => s
         end) l (State.with_synced m s)
    = State.with_synced m' s
    /\ (forall k, m' !! k = Some false \/ m' !! k = m !! k)
    /\ (forall k, m !! k = Some false -> m' !! k = Some false)
    /\ (forall a actor, In a l ->
          odict.get a (State._actors s) = Some actor ->
          m' !! Actor.actor_id actor = Some false)
    /\ (forall k,
          (forall a actor, In a l ->
             odict.get a (State._actors s) = Some actor ->
             Actor.actor_id actor <> k) ->
          m' !! k = m !! k).
Proof.
  revert m. induction l as [|a l IH]; intros m; simpl.
  - exists m. split; [reflexivity|]. split; [now right|].
    split; [auto|]. split; [intros ? ? []|auto].
  - destruct (odict.get a (State._actors s)) as [actor|] eqn:Hget.
    + destruct (IH (<[Actor.actor_id actor := false]> m))
        as (m' & Hm' & Hor & Hkeep & Hin & Hout).
      exists m'. split; [rewrite <- Hm'; now destruct s|].
      split; [|split; [|split]].
      * intros k. destruct (Hor k) as [H|H]; [now left|].
        destruct (decide (Actor.actor_id actor = k)) as [<-|Hne].
        -- left. now rewrite H, lookup_insert_eq.
        -- right. now rewrite H, lookup_insert_ne.
      * intros k Hk. apply Hkeep.
        destruct (decide (Actor.actor_id actor = k)) as [<-|Hne].
        -- apply lookup_insert_eq.
        -- now rewrite lookup_insert_ne.
      * intros a' actor' [<-|Ha'] Hget'.
        -- rewrite Hget in Hget'. injection Hget' as <-.
           apply Hkeep, lookup_insert_eq.
        -- eapply Hin; eassumption.
      * intros k Hk. rewrite Hout.
        -- apply lookup_insert_ne. eapply Hk; [now left|exact Hget].
        -- intros a' actor' Ha'. apply Hk. now right.
    + destruct (IH m) as (m' & Hm' & Hor & Hkeep & Hin & Hout).
      exists m'. split; [exact Hm'|]. split; [exact Hor|].
      split; [exact Hkeep|]. split.
      * intros a' actor' [<-|Ha'] Hget'; [congruence|].
        eapply Hin; eassumption.
      * intros k Hk. apply Hout. intros a' actor' Ha'. apply Hk. now right.
Qed.

Lemma desync_all_lookup (s : State.t) :
  exists m',
    desync_all s = State.with_synced m' s
    /\ (forall k, m' !! k = Some false \/ m' !! k = State._synced s !! k)
    /\ (forall k, State._synced s !! k = Some false -> m' !! k = Some false)
    /\ (forall a actor, odict.get a (State._actors s) = Some actor ->
          m' !! Actor.actor_id actor = Some false)
    /\ (forall k,
          (forall a actor, odict.get a (State._actors s) = Some actor ->
             Actor.actor_id actor <> k) ->
          m' !! k = State._synced s !! k).
Proof.
  destruct (desync_all_fold_lookup s (odict.keys (State._actors s))
              (State._synced s)) as (m' & Hm' & Hor & Hkeep & Hin & Hout).
  replace (State.with_synced (State._synced s) s) with s in Hm'
    by now destruct s.
  exists m'. split; [exact Hm'|]. split; [exact Hor|].
  split; [exact Hkeep|]. split.
  - intros a actor Hget. apply (Hin a actor); [|exact Hget].
    apply odict_mem_keys. unfold odict.mem. now rewrite Hget.
  - intros k Hk. apply Hout. intros a actor _. apply Hk.
Qed.

Lemma state_fold_In (d : odict.t Actor.t) (l : list Z)
    (acc r : list StateSync.Actor) :
  fold_left
    (fun acc a =>
       actor_states ← acc;
       actor ← odict.get a d;
       Some (actor_states ++ [actor_state actor]))
    l (Some acc) = Some r ->
  (forall x, In x acc -> In x r)
  /\ forall k actor, In k l -> odict.get k d = Some actor ->
       In (actor_state actor) r.
Proof.
  revert acc. induction l as [|a l IH]; intros acc; simpl.
  - intros [= <-]. split; [auto|intros ? ? []].
  - destruct (odict.get a d) as [actor|] eqn:Hget; simpl.
    + intros H. destruct (IH _ H) as [Hacc Hl]. split.
      * intros x Hx. apply Hacc, in_app_iff. now left.
      * intros k actor' [<-|Hk] Hget'.
        -- rewrite Hget in Hget'. injection Hget' as <-.
           apply Hacc, in_app_iff. right. now left.
        -- eapply Hl; eassumption.
    + intros H. exfalso. clear -H.
      induction l as [|b l IHl]; simpl in H; [discriminate|auto].
Qed.

(** The last spawn point, or the origin when none is left. *)
Lemma create_actor_spawn (l : list HecsCoord.t) :
  (match rev l with
   | [] => (HecsCoord.mk 0 0 0, [])
   | p :: front => (p, rev front)
   end)
  = (List.last l (HecsCoord.mk 0 0 0), removelast l).
Proof.
  induction l as [|x l IH] using rev_ind; [reflexivity|].
  rewrite rev_app_distr. simpl. rewrite rev_involutive.
  now rewrite last_last, removelast_last.
Qed.

Section Admission.
Context `{W : World}.

(** X10.  [create_actor] returns the id it was given by the id assigner,
    takes the last spawn point off the list, and the new actor's first
    messages are the map, unless the room already holds a fresh map bit for
    that id, and then a state sync that names the player and shows the new
    actor on its spawn point with heading 0; after that the player counts as
    synced. *)
Theorem create_actor_first_messages (role : Role.t) (new_id : Z)
    (s : State.t) :
  let s1 := (create_actor role new_id s).2 in
  let spawn := List.last (State._spawn_points s) (HecsCoord.mk 0 0 0) in
  let asset :=
    if Role.eqb role Role.LEADER then AssetId.PLAYER
    else AssetId.FOLLOWER_BOT in
  (create_actor role new_id s).1 = new_id
  /\ State._spawn_points s1 = removelast (State._spawn_points s)
  /\ exists s2 sync s3,
       (if map_is_stale new_id s
        then drain_message new_id s1
             = Some (Some (MapUpdateFromServer (State._map_update s)), s2)
        else s2 = s1)
       /\ drain_message new_id s2
          = Some (Some (StateSyncFromServer sync), s3)
       /\ StateSync.player_id sync = new_id
       /\ In (StateSync.mkActor new_id asset spawn 0) (StateSync.actors sync)
       /\ is_synced new_id s3 = Some true.
Proof.
  unfold create_actor. rewrite create_actor_spawn. simpl.
  set (actor := Actor.__init__ new_id _ role _).
  set (s0 := State.with_synced _ _).
  destruct (desync_all_lookup s0) as (m' & Hd & _ & Hkeep & _ & _).
  rewrite Hd. split; [reflexivity|]. split; [reflexivity|].
  assert (Hsync : m' !! new_id = Some false).
  { apply Hkeep. subst s0. simpl. apply lookup_insert_eq. }
  set (s1 := State.with_synced m' s0).
  assert (Hstate : forall s2, State._actors s2 = State._actors s1 ->
            exists sync,
              state new_id s2 = Some sync
              /\ StateSync.player_id sync = new_id
              /\ In (actor_state actor) (StateSync.actors sync)).
  { intros s2 Ha. unfold state. rewrite Ha.
    destruct (state_fold_total (State._actors s1)
                (odict.keys (State._actors s1)) []) as [r Hr]; [auto|].
    rewrite Hr. simpl. eexists. split; [reflexivity|].
    split; [reflexivity|]. simpl.
    apply (proj2 (state_fold_In _ _ _ _ Hr) new_id actor).
    - apply odict_mem_keys. unfold odict.mem. subst s1 s0. simpl.
      now rewrite odict_get_set_eq.
    - subst s1 s0. simpl. apply odict_get_set_eq. }
  assert (Hsecond : forall s2,
            State._actors s2 = State._actors s1 ->
            State._map_stale s2 !! new_id = Some false ->
            State._synced s2 !! new_id = Some false ->
            exists sync s3,
              drain_message new_id s2
              = Some (Some (StateSyncFromServer sync), s3)
              /\ StateSync.player_id sync = new_id
              /\ In (actor_state actor) (StateSync.actors sync)
              /\ is_synced new_id s3 = Some true).
  { intros s2 Ha Hm Hs.
    unfold drain_message, drain_map_update. rewrite Hm. simpl. rewrite Hm.
    simpl. unfold is_synced at 1. simpl. rewrite Hs. simpl.
    unfold sync_message_for_transmission.
    destruct (Hstate (State.with_map_stale (State._map_stale s2) s2))
      as (sync & Hsy & Hp & Hin); [exact Ha|].
    rewrite Hsy. simpl. exists sync. eexists. split; [reflexivity|].
    split; [exact Hp|]. split; [exact Hin|].
    unfold is_synced. simpl. apply lookup_insert_eq. }
  unfold map_is_stale.
  destruct (State._map_stale s !! new_id) as [[|]|] eqn:Hm.
  - edestruct (Hsecond
                 (State.with_map_stale (<[new_id := false]> (State._map_stale s))
                    (State.with_map_stale (State._map_stale s) s1)))
      as (sync & s3 & H2 & Hp & Hin & Hs3);
      [reflexivity|apply lookup_insert_eq|exact Hsync|].
    eexists. exists sync, s3. split; [|split; [exact H2|auto]].
    unfold drain_message, drain_map_update. simpl. rewrite Hm. simpl.
    rewrite Hm. reflexivity.
  - destruct (Hsecond s1) as (sync & s3 & H2 & Hp & Hin & Hs3);
      [reflexivity|exact Hm|exact Hsync|].
    exists s1, sync, s3. auto.
  - edestruct (Hsecond
                 (State.with_map_stale
                    (<[new_id := false]>
                       (<[new_id := true]> (State._map_stale s)))
                    (State.with_map_stale
                       (<[new_id := true]> (State._map_stale s)) s1)))
      as (sync & s3 & H2 & Hp & Hin & Hs3);
      [reflexivity|apply lookup_insert_eq|exact Hsync|].
    eexists. exists sync, s3. split; [|split; [exact H2|auto]].
    unfold drain_message, drain_map_update. simpl. rewrite Hm. simpl.
    rewrite lookup_insert_eq. reflexivity.
Qed.
End Admission.

Lemma odict_del_del {V} (k : Z) (d : odict.t V) :
  odict.del k (odict.del k d) = odict.del k d.
Proof.
  unfold odict.del. induction d as [|[k' v] d IH]; simpl; [reflexivity|].
  destruct (negb (k =? k')) eqn:E; simpl; [|exact IH].
  rewrite E. now f_equal.
Qed.

Lemma desync_all_fixed_fold (s : State.t) (l : list Z) :
  (forall a actor, In a l -> odict.get a (State._actors s) = Some actor ->
     State._synced s !! Actor.actor_id actor = Some false) ->
  fold_left
    (fun s a =>
       match odict.get a (State._actors s) with
       | Some actor => desync (Actor.actor_id actor) s
       | None => s
       end) l s = s.
Proof.
  induction l as [|a l IH]; intros H; simpl; [reflexivity|].
  destruct (odict.get a (State._actors s)) as [actor|] eqn:Hget.
  - unfold desync. rewrite insert_id by (eapply H; [now left|exact Hget]).
    replace (State.with_synced (State._synced s) s) with s
      by now destruct s.
    apply IH. intros a' actor' Ha'. apply H. now right.
  - apply IH. intros a' actor' Ha'. apply H. now right.
Qed.

(** X11.  [free_actor] takes the actor out of the table and deletes its
    outbox, its objectives bit and its turn queue; every other actor stays
    in the table, and every actor that stays is marked out of sync.  The
    freed player's synced bit and all map bits are left behind.  Freeing
    the same id again changes nothing. *)
Theorem free_actor_effects (actor_id : Z) (s : State.t) :
  table_ok s ->
  let s' := free_actor actor_id s in
  odict.get actor_id (State._actors s') = None
  /\ State._action_history s' !! actor_id = None
  /\ State._objectives_stale s' !! actor_id = None
  /\ State._turn_history s' !! actor_id = None
  /\ State._synced s' !! actor_id = State._synced s !! actor_id
  /\ State._map_stale s' = State._map_stale s
  /\ (forall k, k <> actor_id ->
        odict.get k (State._actors s') = odict.get k (State._actors s))
  /\ (forall k, In k (odict.keys (State._actors s')) ->
        State._synced s' !! k = Some false)
  /\ free_actor actor_id s' = s'.
Proof.
  intros [Hnd Hok]. unfold free_actor.
  set (s0 := State.with_turn_history _ _).
  destruct (desync_all_lookup s0) as (m' & Hd & Hor & Hkeep & Hin & Hout).
  rewrite Hd. simpl.
  assert (Hids : forall a actor,
            odict.get a (State._actors s0) = Some actor ->
            Actor.actor_id actor = a /\ a <> actor_id).
  { intros a actor. subst s0. simpl. rewrite odict_get_del.
    destruct (a =? actor_id) eqn:E; [discriminate|].
    apply Z.eqb_neq in E. intros Hget.
    destruct (Hok a actor Hget) as [Hid _]. auto. }
  split; [rewrite odict_get_del; now rewrite Z.eqb_refl|].
  split; [apply lookup_delete_eq|].
  split; [apply lookup_delete_eq|].
  split; [apply lookup_delete_eq|].
  split.
  { rewrite Hout; [reflexivity|].
    intros a actor Hget. destruct (Hids a actor Hget). congruence. }
  split; [reflexivity|].
  split.
  { intros k Hk. rewrite odict_get_del.
    apply Z.eqb_neq in Hk. now rewrite Hk. }
  assert (Hall : forall a actor,
            odict.get a (State._actors s0) = Some actor ->
            m' !! Actor.actor_id actor = Some false).
  { exact Hin. }
  split.
  { intros k Hk.
    destruct (odict_get_keys k (State._actors s0) Hk) as [actor Hget].
    destruct (Hids k actor Hget) as [<- _]. now apply (Hall _ _ Hget). }
  rewrite odict_del_del, !delete_delete_eq.
  unfold desync_all.
  match goal with
  | |- fold_left _ _ ?x = ?y => replace x with y by (subst s0; now destruct s)
  end.
  apply desync_all_fixed_fold.
  intros a actor _ Hget. simpl. apply (Hall a actor). exact Hget.
Qed.

Lemma free_actor_effects_witness :
  odict.keys (State._actors (free_actor 1 example_state)) = [2]
  /\ free_actor 1 (free_actor 1 example_state) = free_actor 1 example_state.
Proof.
  split; [reflexivity|].
  apply (free_actor_effects 1 example_state example_state_table_ok).
Defined.

(** ** Ending a turn on request *)

Section TurnComplete.
Context `{W : World}.

Lemma opposite_role_differs (role : Role.t) :
  Role.eqb role (opposite_role role) = false.
Proof. now destruct role. Qed.

(** X12.  A TURN_COMPLETE from the actor whose turn it is passes the turn
    to the other role with that role's full allowance of moves and one turn
    fewer left; from anyone else it changes nothing.  Either way a repeated
    TURN_COMPLETE from the same actor changes nothing: it cannot end the
    other player's turn. *)
Theorem handle_turn_complete_once (id : Z) (s s1 : State.t) (actor : Actor.t) :
  odict.get id (State._actors s) = Some actor ->
  handle_turn_complete id s = Some s1 ->
  let ts := State._turn_state s in
  (Actor.role actor = TurnState.turn ts ->
   TurnState.turn (State._turn_state s1) = opposite_role (TurnState.turn ts)
   /\ TurnState.moves_remaining (State._turn_state s1)
      = moves_per_turn (opposite_role (TurnState.turn ts))
   /\ TurnState.turns_left (State._turn_state s1)
      = TurnState.turns_left ts - 1)
  /\ (Actor.role actor <> TurnState.turn ts -> s1 = s)
  /\ handle_turn_complete id s1 = Some s1.
Proof.
  intros Hget. unfold handle_turn_complete. rewrite Hget. simpl.
  destruct (Role_eqb_spec (Actor.role actor) (TurnState.turn (State._turn_state s)))
    as [Heq|Hne]; simpl; intros [= <-].
  - split; [intros _|split; [congruence|]].
    + rewrite end_turn_if_over_turn_state. simpl.
      rewrite orb_true_r. simpl. auto.
    + rewrite end_turn_if_over_actors, Hget. simpl.
      rewrite end_turn_if_over_turn_state. simpl. rewrite orb_true_r. simpl.
      rewrite Heq, opposite_role_differs. reflexivity.
  - split; [congruence|]. split; [reflexivity|].
    rewrite Hget. simpl.
    destruct (Role_eqb_spec (Actor.role actor)
                (TurnState.turn (State._turn_state s))); [contradiction|].
    reflexivity.
Qed.
End TurnComplete.

Lemma handle_turn_complete_once_witness :
  exists s1,
    @handle_turn_complete example_world 1 example_state = Some s1
    /\ TurnState.turn (State._turn_state s1) = Role.FOLLOWER
    /\ @handle_turn_complete example_world 1 s1 = Some s1.
Proof.
  eexists. split; [reflexivity|].
  destruct (@handle_turn_complete_once example_world 1 example_state _
              example_leader eq_refl eq_refl) as (H1 & _ & H3).
  split; [exact (proj1 (H1 eq_refl))|exact H3].
Defined.

(** ** One queued action per actor and tick *)

Lemma record_action_actors (action : Action.t) (s s' : State.t) :
  record_action action s = Some s' -> State._actors s' = State._actors s.
Proof.
  unfold record_action. intros H.
  eapply (fold_option_preserves
            (fun x => State._actors x = State._actors s)); [|exact H|reflexivity].
  clear. intros s0 id s1 E P. cbv beta in E.
  destruct (odict.get id (State._actors s0)) as [actor|]; [|discriminate].
  simpl in E.
  destruct (State._action_history s0 !! Actor.actor_id actor) as [h|];
    [|discriminate].
  simpl in E. injection E as <-. exact P.
Qed.

Section Tick.
Context `{W : World}.

Lemma check_for_stepped_on_cards_actors actor_id action color s s' :
  check_for_stepped_on_cards actor_id action color s = Some s' ->
  State._actors s' = State._actors s.
Proof.
  unfold check_for_stepped_on_cards.
  destruct (odict.get actor_id (State._actors s)) as [actor|]; [|discriminate].
  simpl. destruct (MapProvider.card_by_location _ _) as [card|].
  - destruct (ActionType.eqb _ _).
    + intros H. now apply record_action_actors in H.
    + now intros [= <-].
  - now intros [= <-].
Qed.

Lemma update_actor_queue csi a s s' :
  update_actor csi a s = Some s' ->
  exists actor actor',
    odict.get a (State._actors s) = Some actor
    /\ odict.get a (State._actors s') = Some actor'
    /\ (forall k, k <> a ->
          odict.get k (State._actors s') = odict.get k (State._actors s))
    /\ Actor._actions actor' = tl (Actor._actions actor)
    /\ Actor.role actor' = Actor.role actor
    /\ Actor.actor_id actor' = Actor.actor_id actor.
Proof.
  unfold update_actor.
  destruct (odict.get a (State._actors s)) as [actor|] eqn:Hget;
    [|discriminate].
  simpl. unfold Actor.has_actions, Actor.peek.
  destruct (Actor._actions actor) as [|proposed rest] eqn:Hq.
  { intros [= <-]. exists actor, actor. rewrite Hq. repeat split; auto. }
  simpl.
  assert (Hdrop : forall s2,
            State._actors s2
            = odict.set a (Actor.drop actor) (State._actors s) ->
            exists actor0 actor',
              Some actor = Some actor0
              /\ odict.get a (State._actors s2) = Some actor'
              /\ (forall k, k <> a ->
                    odict.get k (State._actors s2)
                    = odict.get k (State._actors s))
              /\ Actor._actions actor' = tl (Actor._actions actor0)
              /\ Actor.role actor' = Actor.role actor0
              /\ Actor.actor_id actor' = Actor.actor_id actor0).
  { intros s2 E. exists actor, (Actor.drop actor). rewrite E.
    split; [reflexivity|]. split; [apply odict_get_set_eq|].
    split; [intros k Hk; apply odict_get_set_ne; congruence|].
    unfold Actor.drop. rewrite Hq. simpl. repeat split; auto. }
  destruct (negb _); [intros [= <-]; now apply Hdrop|].
  destruct (_ =? 0); [intros [= <-]; now apply Hdrop|].
  destruct (valid_action _ _) as [[|]|]; simpl;
    [|intros [= <-]; now apply Hdrop|discriminate].
  destruct (record_action proposed _) as [s1|] eqn:E1; [|discriminate].
  simpl.
  destruct (check_for_stepped_on_cards _ _ _ s1) as [s2|] eqn:E2;
    [|discriminate].
  simpl. intros [= <-].
  apply record_action_actors in E1.
  apply check_for_stepped_on_cards_actors in E2.
  exists actor, (Actor.step actor).
  rewrite end_turn_if_over_actors, E2, E1. simpl.
  split; [reflexivity|]. split; [apply odict_get_set_eq|].
  split; [intros k Hk; apply odict_get_set_ne; congruence|].
  unfold Actor.step. rewrite Hq. simpl. repeat split; auto.
Qed.

Lemma update_actors_fold csi (l : list Z) (s s' : State.t) :
  List.NoDup l ->
  fold_left (fun acc actor_id => s ← acc; update_actor csi actor_id s)
    l (Some s) = Some s' ->
  forall k actor, odict.get k (State._actors s) = Some actor ->
    exists actor',
      odict.get k (State._actors s') = Some actor'
      /\ Actor._actions actor'
         = (if in_dec Z.eq_dec k l then tl (Actor._actions actor)
            else Actor._actions actor)
      /\ Actor.role actor' = Actor.role actor
      /\ Actor.actor_id actor' = Actor.actor_id actor.
Proof.
  revert s. induction l as [|a l IH]; intros s Hnd; simpl.
  - intros [= <-] k actor Hget. exists actor. repeat split; auto.
  - apply List.NoDup_cons_iff in Hnd as [Ha Hnd].
    destruct (update_actor csi a s) as [s1|] eqn:E.
    + intros H k actor Hget.
      destruct (update_actor_queue _ _ _ _ E)
        as (actor0 & actor1 & G0 & G1 & Gother & Hq & Hr & Hi).
      destruct (Z.eq_dec a k) as [<-|Hne].
      * rewrite Hget in G0. injection G0 as <-.
        destruct (IH s1 Hnd H a actor1 G1) as (actor' & G' & Hq' & Hr' & Hi').
        exists actor'. split; [exact G'|].
        destruct (in_dec Z.eq_dec a l); [contradiction|].
        split; [congruence|]. split; congruence.
      * assert (G1' : odict.get k (State._actors s1) = Some actor)
          by (rewrite Gother; auto).
        destruct (IH s1 Hnd H k actor G1') as (actor' & G' & Hq' & Hr' & Hi').
        exists actor'. split; [exact G'|]. split; [|auto].
        rewrite Hq'. destruct (in_dec Z.eq_dec k l); reflexivity.
    + intros H. exfalso. clear -H.
      induction l as [|b l IHl]; simpl in H; [discriminate|auto].
Qed.

(** X13.  The actor loop of a tick takes exactly one action, the oldest, off
    the queue of every actor that has one, whether the action is committed
    or rejected, and keeps every actor's id and role; an actor with an empty
    queue keeps it. *)
Theorem update_actors_one_action_each (csi : bool) (s s' : State.t) :
  NoDup (odict.keys (State._actors s)) ->
  update_actors csi s = Some s' ->
  forall k actor, odict.get k (State._actors s) = Some actor ->
    exists actor',
      odict.get k (State._actors s') = Some actor'
      /\ Actor._actions actor' = tl (Actor._actions actor)
      /\ Actor.role actor' = Actor.role actor
      /\ Actor.actor_id actor' = Actor.actor_id actor.
Proof.
  intros Hnd H k actor Hget. apply NoDup_ListNoDup in Hnd.
  destruct (update_actors_fold csi _ s s' Hnd H k actor Hget)
    as (actor' & G & Hq & Hr & Hi).
  exists actor'. split; [exact G|]. split; [|auto].
  rewrite Hq.
  destruct (in_dec Z.eq_dec k (odict.keys (State._actors s))) as [|Hout];
    [reflexivity|].
  exfalso. apply Hout. apply odict_mem_keys. unfold odict.mem.
  now rewrite Hget.
Qed.

(** X14.  When no turn is left, one pass of the tick loop queues the
    game-over turn state for every actor, marks the room done and leaves the
    actors as they are, and the loop stops there however many passes it was
    good for; on a room that is done it does nothing. *)
Theorem update_out_of_turns (fuel : nat) (csi : bool) (s : State.t) :
  (State._done s = true -> update fuel csi s = Some (csi, s))
  /\ (State._done s = false ->
      TurnState.turns_left (State._turn_state s) = -1 ->
      exists s',
        update (S fuel) csi s = Some (csi, s')
        /\ State._done s' = true
        /\ State._actors s' = State._actors s
        /\ State._turn_state s'
           = GameOverMessage (TurnState.game_start (State._turn_state s))
               (TurnState.sets_collected (State._turn_state s))
               (TurnState.score (State._turn_state s))
        /\ turn_state_queued_for_all (State._turn_state s') s').
Proof.
  split.
  - intros Hd. destruct fuel; simpl; [reflexivity|]. now rewrite Hd.
  - intros Hd Hleft. simpl. rewrite Hd. unfold update_iteration.
    rewrite Hleft. simpl.
    set (msg := GameOverMessage _ _ _).
    exists (end_game (record_turn_state msg s)).
    split; [destruct fuel; simpl; reflexivity|].
    split; [reflexivity|].
    unfold end_game. rewrite record_turn_state_eq. simpl.
    split; [reflexivity|]. split; [reflexivity|].
    intros k Hk. simpl in *. apply fold_turn_queue_last. now left.
Qed.
End Tick.

Lemma update_actors_one_action_each_witness :
  exists s' actor',
    @update_actors example_world false example_state_long_step = Some s'
    /\ odict.get 1 (State._actors s') = Some actor'
    /\ Actor._actions actor' = [].
Proof.
  eexists.
  destruct (@update_actors_one_action_each example_world false
              example_state_long_step _ (proj1 example_state_table_ok)
              eq_refl 1 _ eq_refl) as (actor' & G & Hq & _).
  exists actor'. split; [reflexivity|]. split; [exact G|exact Hq].
Defined.

Lemma update_out_of_turns_witness :
  exists s',
    @update example_world 5 false example_state_out_of_turns
    = Some (false, s')
    /\ State._done s' = true.
Proof.
  destruct (proj2 (@update_out_of_turns example_world 4 false
                     example_state_out_of_turns) eq_refl eq_refl)
    as (s' & Hu & Hd & _).
  exists s'. split; [exact Hu|exact Hd].
Defined.

(** ** The client mirror between ticks *)

Lemma enqueue_action_get (game : Client.Game) (a : Action.t) :
  Client.player_id (Client.enqueue_action game a) = Client.player_id game
  /\ odict.keys (Client.actors (Client.enqueue_action game a))
     = odict.keys (Client.actors game)
  /\ Client.turn_state (Client.enqueue_action game a) = Client.turn_state game
  /\ Client.queued_messages (Client.enqueue_action game a)
     = Client.queued_messages game
  /\ forall k,
       odict.get k (Client.actors (Client.enqueue_action game a))
       = if (k =? Client.player_id game) || negb (Action.id a =? k)
         then odict.get k (Client.actors game)
         else (fun q => q ++ [a]) <$> odict.get k (Client.actors game).
Proof.
  unfold Client.enqueue_action.
  destruct (Action.id a =? Client.player_id game) eqn:Eme.
  { repeat split. intros k. apply Z.eqb_eq in Eme.
    destruct (k =? Client.player_id game) eqn:Ek; [reflexivity|].
    destruct (Action.id a =? k) eqn:Ea; [|reflexivity].
    apply Z.eqb_eq in Ea. apply Z.eqb_neq in Ek. congruence. }
  destruct (odict.get (Action.id a) (Client.actors game)) as [q|] eqn:Hq.
  - simpl. split; [reflexivity|].
    split; [apply odict_keys_set_present; eapply odict_mem_get; eauto|].
    split; [reflexivity|]. split; [reflexivity|]. intros k.
    destruct (Action.id a =? k) eqn:Ea.
    + apply Z.eqb_eq in Ea. subst k. rewrite Eme. simpl.
      now rewrite odict_get_set_eq, Hq.
    + apply Z.eqb_neq in Ea. rewrite odict_get_set_ne by assumption.
      now rewrite orb_true_r.
  - repeat split. intros k.
    destruct (k =? Client.player_id game); [reflexivity|].
    destruct (Action.id a =? k) eqn:Ea; [|reflexivity].
    apply Z.eqb_eq in Ea. subst k. now rewrite Hq.
Qed.

(** X15.  An ACTIONS message never fails on the client.  It leaves the set
    of mirrored actors, the turn state and the queued messages alone, skips
    the player's own actions and those of unknown actors, and appends every
    other action to the queue of the actor it names, in the order of the
    message. *)
Theorem _handle_message_actions (actions : list Action.t) (game : Client.Game) :
  exists game',
    Client._handle_message (Client.ACTIONS actions) game = Some game'
    /\ Client.player_id game' = Client.player_id game
    /\ odict.keys (Client.actors game') = odict.keys (Client.actors game)
    /\ Client.turn_state game' = Client.turn_state game
    /\ Client.queued_messages game' = Client.queued_messages game
    /\ forall k,
         odict.get k (Client.actors game')
         = if k =? Client.player_id game
           then odict.get k (Client.actors game)
           else (fun q =>
                   q ++ List.filter (fun a => Action.id a =? k) actions)
                <$> odict.get k (Client.actors game).
Proof.
  simpl. eexists. split; [reflexivity|].
  revert game. induction actions as [|a l IH]; intros game; simpl.
  - repeat split. intros k. destruct (k =? _); [reflexivity|].
    destruct (odict.get k _); simpl; [|reflexivity].
    now rewrite app_nil_r.
  - destruct (IH (Client.enqueue_action game a)) as (Hp & Hk & Ht & Hq & Hg).
    destruct (enqueue_action_get game a) as (Hp' & Hk' & Ht' & Hq' & Hg').
    split; [congruence|]. split; [congruence|]. split; [congruence|].
    split; [congruence|]. intros k. rewrite Hg, Hp', Hg'.
    destruct (k =? Client.player_id game); simpl; [reflexivity|].
    destruct (Action.id a =? k); simpl; [|reflexivity].
    destruct (odict.get k (Client.actors game)); simpl; [|reflexivity].
    now rewrite <- app_assoc.
Qed.

Lemma _handle_message_pong (message : Client.FromServer)
    (game game' : Client.Game) :
  Client._handle_message message game = Some game' ->
  Client.queued_messages game'
  = Client.queued_messages game
    ++ repeat Client.PongMessage (count_pings [Client.TEXT message]).
Proof.
  destruct message; simpl; intros [= <-]; simpl;
    rewrite ?app_nil_r; try reflexivity.
  revert game. induction actions as [|a l IH]; intros game; simpl;
    [reflexivity|].
  rewrite IH. apply enqueue_action_get.
Qed.

Lemma count_pings_cons (f : Client.Frame) (l : list Client.Frame) :
  count_pings (f :: l) = (count_pings [f] + count_pings l)%nat.
Proof.
  unfold count_pings. simpl.
  destruct f as [| | | |[]]; reflexivity.
Qed.

Lemma _wait_for_tick_split (frames rest : list Client.Frame)
    (game game' : Client.Game) (waited : bool) :
  Client._wait_for_tick frames game = Some (waited, rest, game') ->
  exists before,
    (forall f, In f before -> passed_frame f)
    /\ (if waited
        then frames = before ++ Client.TEXT Client.STATE_MACHINE_TICK :: rest
        else (frames = before /\ rest = [])
             \/ frames = before ++ Client.CLOSED :: rest)
    /\ Client.queued_messages game'
       = Client.queued_messages game
         ++ repeat Client.PongMessage (count_pings before).
Proof.
  revert game. induction frames as [|f frames IH]; intros game; simpl.
  - intros [= <- <- <-]. exists []. split; [intros f []|].
    split; [now left|]. simpl. now rewrite app_nil_r.
  - assert (Hskip : forall g1,
              passed_frame f ->
              Client.queued_messages g1
              = Client.queued_messages game
                ++ repeat Client.PongMessage (count_pings [f]) ->
              Client._wait_for_tick frames g1 = Some (waited, rest, game') ->
              exists before,
                (forall f0, In f0 before -> passed_frame f0)
                /\ (if waited
                    then f :: frames
                         = before ++ Client.TEXT Client.STATE_MACHINE_TICK
                                     :: rest
                    else (f :: frames = before /\ rest = [])
                         \/ f :: frames = before ++ Client.CLOSED :: rest)
                /\ Client.queued_messages game'
                   = Client.queued_messages game
                     ++ repeat Client.PongMessage (count_pings before)).
    { intros g1 Hf Hg H. destruct (IH _ H) as (before & Hb & Hw & Hq).
      exists (f :: before). split; [|split].
      - intros f0 [<-|H0]; auto.
      - destruct waited.
        + simpl. now rewrite Hw.
        + destruct Hw as [[-> ->] | ->]; [now left|now right].
      - rewrite Hq, Hg, (count_pings_cons f before), repeat_app, app_assoc.
        reflexivity. }
    destruct f as [| | | |response];
      try (apply Hskip; [split; discriminate|simpl; now rewrite app_nil_r]).
    + intros [= <- <- <-]. exists []. split; [intros f []|].
      split; [now right|]. simpl. now rewrite app_nil_r.
    + destruct (Client._handle_message response game) as [g1|] eqn:E;
        [|discriminate].
      simpl. destruct (Client.is_tick response) eqn:Et.
      * intros [= <- <- <-]. exists []. split; [intros f []|].
        destruct response; try discriminate Et.
        simpl in E. injection E as <-.
        split; [reflexivity|]. simpl. now rewrite app_nil_r.
      * apply Hskip.
        -- split; [discriminate|]. intros [= ->]. discriminate Et.
        -- now apply _handle_message_pong.
Qed.

(** X16.  [_wait_for_tick] reads frames up to and including the first tick
    and reports success, leaving every later frame unread; it reports
    failure when the socket closes or runs dry before a tick, having read up
    to the close.  On the way it queues one Pong for every PING it has
    read. *)
Theorem _wait_for_tick_first_tick (frames rest : list Client.Frame)
    (game game' : Client.Game) (waited : bool) :
  Client._wait_for_tick frames game = Some (waited, rest, game') ->
  exists before,
    (forall f, In f before -> passed_frame f)
    /\ (if waited
        then frames = before ++ Client.TEXT Client.STATE_MACHINE_TICK :: rest
        else (frames = before /\ rest = [])
             \/ frames = before ++ Client.CLOSED :: rest)
    /\ Client.queued_messages game'
       = Client.queued_messages game
         ++ repeat Client.PongMessage (count_pings before).
Proof. apply _wait_for_tick_split. Qed.

Lemma _wait_for_tick_first_tick_witness :
  exists game' before,
    Client._wait_for_tick (Client.inbox example_socket) example_game
    = Some (true,
            [Client.TEXT Client.STATE_MACHINE_TICK;
             Client.TEXT Client.STATE_MACHINE_TICK], game')
    /\ Client.inbox example_socket
       = before ++ Client.TEXT Client.STATE_MACHINE_TICK
                   :: [Client.TEXT Client.STATE_MACHINE_TICK;
                       Client.TEXT Client.STATE_MACHINE_TICK]
    /\ Client.queued_messages game'
       = repeat Client.PongMessage (count_pings before).
Proof.
  eexists.
  destruct (_wait_for_tick_first_tick (Client.inbox example_socket) _
              example_game _ true eq_refl) as (before & _ & Hw & Hq).
  exists before. split; [reflexivity|]. split; [exact Hw|exact Hq].
Defined.

Lemma send_all_inbox (l : list Client.ToServer) (ws : Client.Socket) :
  let ws' := fold_left (fun ws message => Client._send_message message ws) l ws in
  Client.inbox ws' = Client.inbox ws
  /\ Client.closed ws' = Client.closed ws
  /\ (Client.closed ws = true -> Client.sent ws' = Client.sent ws).
Proof.
  revert ws. induction l as [|m l IH]; intros ws; simpl; [auto|].
  destruct (IH (Client._send_message m ws)) as (Hi & Hc & Hs).
  unfold Client._send_message in *.
  destruct (Client.closed ws) eqn:E; simpl in *.
  - rewrite Hi, Hc. split; [reflexivity|]. split; [exact E|].
    intros _. apply Hs. exact E.
  - rewrite Hi, Hc. split; [reflexivity|]. split; [reflexivity|].
    discriminate.
Qed.

Lemma wait_until_can_act_done (fuel : nat) (frames frames' : list Client.Frame)
    (game game' : Client.Game) :
  Client.wait_until_can_act fuel frames game = Some (frames', game') ->
  Client._can_act game' = true
  /\ exists read, frames = read ++ frames'.
Proof.
  revert frames game. induction fuel as [|fuel IH]; intros frames game; simpl.
  - destruct (Client._can_act game) eqn:E; [|discriminate].
    intros [= <- <-]. split; [exact E|]. now exists [].
  - destruct (Client._can_act game) eqn:E.
    + intros [= <- <-]. split; [exact E|]. now exists [].
    + destruct (Client._wait_for_tick frames game) as [[[w f1] g1]|] eqn:Ew;
        [|discriminate].
      simpl. destruct w; [|discriminate]. intros H.
      destruct (IH _ _ H) as [Hc [read Hr]]. split; [exact Hc|].
      destruct (_wait_for_tick_split _ _ _ _ _ Ew) as (before & _ & Hb & _).
      exists (before ++ Client.TEXT Client.STATE_MACHINE_TICK :: read).
      rewrite Hb, Hr, <- app_assoc. reflexivity.
Qed.

(** X17.  A call of [step] that returns was allowed for the player's role
    and the turn, has read the socket at least up to the first tick, and
    returns only once the player can act: on the player's own turn, or at
    any tick for the leader.  It never reopens or closes the socket, and
    on a closed socket it writes nothing. *)
Theorem step_returns_able_to_act (action : Client.StepAction)
    (ws ws' : Client.Socket) (game game' : Client.Game) :
  Client.step action ws game = Some (ws', game') ->
  Client.step_allowed action game = true
  /\ Client._can_act game' = true
  /\ Client.closed ws' = Client.closed ws
  /\ (Client.closed ws = true -> Client.sent ws' = Client.sent ws)
  /\ exists before read,
       (forall f, In f before -> passed_frame f)
       /\ Client.inbox ws
          = before ++ Client.TEXT Client.STATE_MACHINE_TICK
                      :: read ++ Client.inbox ws'.
Proof.
  unfold Client.step.
  destruct (Client.step_allowed action game); [|discriminate]. simpl.
  destruct (Client.message_to_server action) as [message|]; [|discriminate].
  simpl.
  set (ws1 := match message with
              | Some m => Client._send_message m ws
              | None => ws
              end).
  assert (H1 : Client.inbox ws1 = Client.inbox ws
               /\ Client.closed ws1 = Client.closed ws
               /\ (Client.closed ws = true ->
                   Client.sent ws1 = Client.sent ws)).
  { subst ws1. destruct message as [m|]; [|auto].
    unfold Client._send_message.
    destruct (Client.closed ws) eqn:E; simpl; auto.
    repeat split. discriminate. }
  destruct H1 as (Hi1 & Hc1 & Hs1).
  destruct (send_all_inbox (Client.queued_messages game) ws1)
    as (Hi2 & Hc2 & Hs2).
  set (ws2 := fold_left _ (Client.queued_messages game) ws1) in *.
  destruct (Client._wait_for_tick (Client.inbox ws2) game)
    as [[[w f1] g1]|] eqn:E; [|discriminate].
  simpl. destruct w; [|discriminate].
  match goal with
  | |- (?x ≫= _) = _ -> _ =>
      change x with (Client.wait_until_can_act (S (length f1)) f1 g1)
  end.
  destruct (Client.wait_until_can_act (S (length f1)) f1 g1)
    as [[f2 g2]|] eqn:E2; [|discriminate].
  intros [= <- <-]. simpl.
  destruct (wait_until_can_act_done _ _ _ _ _ E2) as [Hcan [read Hread]].
  destruct (_wait_for_tick_split _ _ _ _ _ E) as (before & Hb & Hw & _).
  split; [reflexivity|]. split; [exact Hcan|].
  split; [congruence|]. split.
  - intros Hc. rewrite Hs2 by congruence. now apply Hs1.
  - exists before, read. split; [exact Hb|].
    rewrite <- Hi1, <- Hi2, Hw, Hread. reflexivity.
Qed.

Lemma step_returns_able_to_act_witness :
  exists ws' game',
    Client.step (Client.LeadAction (Client.L_SEND_INSTRUCTION "one"))
      example_socket example_game = Some (ws', game')
    /\ Client._can_act game' = true.
Proof.
  eexists. eexists. split; [reflexivity|].
  apply (step_returns_able_to_act
           (Client.LeadAction (Client.L_SEND_INSTRUCTION "one"))
           example_socket _ example_game _ eq_refl).
Defined.

(** ** Packets of actions *)

Lemma with_actions_same (actor : Actor.t) :
  Actor.with_actions (Actor._actions actor) actor = actor.
Proof. now destruct actor. Qed.

Section Packets.
Context `{W : World}.

(** X18.  An ACTIONS packet from a player in the room never raises.  It
    queues exactly the actions that carry the sender's id, in the order of
    the packet and behind what the actor had queued; no other actor's queue
    changes.  If an action carries another id the sender is marked out of
    sync, otherwise the sender's synced bit is as before. *)
Theorem handle_packet_actions (id : Z) (actions : list Action.t)
    (new_uuid : string) (s : State.t) (actor : Actor.t) :
  odict.get id (State._actors s) = Some actor ->
  exists s',
    handle_packet id (ACTIONS actions) new_uuid s = Some s'
    /\ odict.get id (State._actors s')
       = Some (Actor.with_actions
                 (Actor._actions actor
                  ++ List.filter (fun a => Action.id a =? id) actions) actor)
    /\ (forall k, k <> id ->
          odict.get k (State._actors s') = odict.get k (State._actors s)
          /\ State._synced s' !! k = State._synced s !! k)
    /\ State._synced s' !! id
       = if forallb (fun a => Action.id a =? id) actions
         then State._synced s !! id else Some false.
Proof.
  simpl. revert s actor. induction actions as [|a l IH]; intros s actor Hget;
    simpl.
  - exists s. split; [reflexivity|].
    rewrite app_nil_r, with_actions_same. auto.
  - unfold handle_action at 2.
    destruct (Action.id a =? id) eqn:E; simpl.
    + rewrite Hget. simpl.
      set (s1 := State.with_actors _ s).
      destruct (IH s1 (Actor.add_action a actor)) as (s' & Hf & Hg & Ho & Hs).
      { subst s1. simpl. apply odict_get_set_eq. }
      exists s'. split; [exact Hf|]. split.
      * rewrite Hg. unfold Actor.add_action, Actor.with_actions. simpl.
        now rewrite <- app_assoc.
      * split; [|exact Hs].
        intros k Hk. destruct (Ho k Hk) as [Ho1 Ho2].
        split; [|exact Ho2]. rewrite Ho1. subst s1. simpl.
        apply odict_get_set_ne. congruence.
    + destruct (IH (desync id s) actor Hget) as (s' & Hf & Hg & Ho & Hs).
      exists s'. split; [exact Hf|]. split; [exact Hg|]. split.
      * intros k Hk. destruct (Ho k Hk) as [Ho1 Ho2].
        split; [exact Ho1|]. rewrite Ho2. unfold desync. simpl.
        apply lookup_insert_ne. congruence.
      * rewrite Hs. unfold desync. simpl. rewrite lookup_insert_eq.
        now destruct (forallb _ l).
Qed.
End Packets.

Lemma handle_packet_actions_witness :
  exists s',
    @handle_packet example_world 1 (ACTIONS [example_walk; example_action 2
                                ActionType.TRANSLATE (HecsCoord.mk 0 0 1) 0])
      "" example_state = Some s'
    /\ odict.get 1 (State._actors s')
       = Some (Actor.with_actions [example_walk] example_leader)
    /\ State._synced s' !! 1 = Some false.
Proof.
  destruct (@handle_packet_actions example_world 1
              [example_walk;
               example_action 2 ActionType.TRANSLATE (HecsCoord.mk 0 0 1) 0]
              "" example_state example_leader eq_refl)
    as (s' & Hf & Hg & _ & Hs).
  exists s'. split; [exact Hf|]. split; [exact Hg|exact Hs].
Defined.

(** ** No [KeyError] in a reachable room *)

Lemma drain_message_total (player_id : Z) (s : State.t) :
  is_Some (State._synced s !! player_id) ->
  is_Some (drain_message player_id s).
Proof.
  intros [b Hb]. unfold drain_message, drain_map_update.
  assert (Hrest : forall m,
            is_Some
              (synced ← is_synced player_id (State.with_map_stale m s);
               if negb synced
               then '(state_sync, s0) ←
                      sync_message_for_transmission player_id
                        (State.with_map_stale m s);
                    Some (Some (StateSyncFromServer state_sync), s0)
               else
                 let '(actions, s0) :=
                   drain_actions player_id (State.with_map_stale m s) in
                 if nonempty actions
                 then Some (Some (ActionsFromServer actions), s0)
                 else
                   let '(objectives, s1) := drain_objectives player_id s0 in
                   if nonempty objectives
                   then Some (Some (ObjectivesFromServer objectives), s1)
                   else
                     let '(turn_state, s2) := drain_turn_state player_id s1 in
                     match turn_state with
                     | Some turn_state =>
                         Some (Some (GameStateFromServer turn_state), s2)
                     | None => Some (None, s2)
                     end)).
  { intros m. unfold is_synced. simpl. rewrite Hb. simpl.
    destruct b; simpl.
    - destruct (drain_actions _ _) as [actions s0].
      destruct (nonempty actions); [eauto|].
      destruct (drain_objectives _ _) as [objectives s1].
      destruct (nonempty objectives); [eauto|].
      destruct (drain_turn_state _ _) as [[ts|] s2]; eauto.
    - unfold sync_message_for_transmission.
      destruct (state_total player_id (State.with_map_stale m s))
        as [sync Hsync].
      rewrite Hsync. simpl. eauto. }
  destruct (State._map_stale s !! player_id) as [[|]|] eqn:Hm; simpl;
    rewrite ?Hm, ?lookup_insert_eq; simpl; eauto.
Qed.

Section NoKeyError.
Context `{W : World}.

(** X3.  In every reachable room the actor table is a dictionary keyed by
    the actors' own ids, without repeated ids, and every actor has an outbox
    and a synced bit; so [record_action] does not raise, and neither does
    [drain_message] for an actor of the room. *)
Theorem reachable_table_ok (s : State.t) :
  reachable s ->
  table_ok s
  /\ (forall action, is_Some (record_action action s))
  /\ (forall player_id, In player_id (odict.keys (State._actors s)) ->
        is_Some (drain_message player_id s)).
Proof.
  intros H. apply reachable_table in H. split; [exact H|].
  destruct H as [Hnd Hok]. split.
  - intros action.
    destruct (record_action_ready action s) as (h' & Hr & _).
    + intros k actor Hget. destruct (Hok k actor Hget) as (? & ? & _). auto.
    + rewrite Hr. eauto.
  - intros k Hk. apply drain_message_total.
    destruct (odict_get_keys k _ Hk) as [actor Hget].
    now destruct (Hok k actor Hget) as (_ & _ & Hs).
Qed.
End NoKeyError.

Lemma reachable_table_ok_witness :
  table_ok (create_actor Role.LEADER 1
              (@State_init example_world example_provider
                 [HecsCoord.mk 0 0 0])).2.
Proof.
  apply (@reachable_table_ok example_world).
  apply reachable_create_actor, reachable_init.
Defined.

(** ** Wrapping an instruction for display *)

Lemma string_append_assoc (a b c : string) :
  String.append (String.append a b) c = String.append a (String.append b c).
Proof.
  induction a as [|x a IH]; [reflexivity|].
  change (String x (String.append (String.append a b) c)
          = String x (String.append a (String.append b c))).
  now rewrite IH.
Qed.

Lemma string_length_append (a b : string) :
  String.length (String.append a b) = (String.length a + String.length b)%nat.
Proof.
  induction a as [|x a IH]; [reflexivity|].
  change (S (String.length (String.append a b))
          = S (String.length a + String.length b)).
  now rewrite IH.
Qed.

Lemma string_concat_snoc (sep : string) (l : list string) (x : string) :
  String.concat sep (l ++ [x])
  = match l with
    | [] => x
    | _ :: _ => String.append (String.concat sep l) (String.append sep x)
    end.
Proof.
  induction l as [|y l IH]; [reflexivity|].
  destruct l as [|z l].
  - reflexivity.
  - change (String.append y (String.append sep
              (String.concat sep ((z :: l) ++ [x])))
            = String.append
                (String.append y (String.append sep (String.concat sep (z :: l))))
                (String.append sep x)).
    rewrite IH. now rewrite !string_append_assoc.
Qed.

Lemma draw_wrapped_fold (words : list string) (max_width : nat) :
  let '(lines, current_line) :=
    fold_left
      (fun '(lines, current_line) word =>
         if (max_width <? String.length current_line + String.length word)%nat
         then (lines ++ [current_line], word)
         else (lines, String.append current_line (String.append " " word)))
      words ([], EmptyString) in
  String.concat " " (lines ++ [current_line])
  = match words with
    | [] => EmptyString
    | _ :: _ => String.append " " (String.concat " " words)
    end
  /\ forall line, In line (lines ++ [current_line]) ->
       (String.length line <= max_width + 1)%nat \/ In line words.
Proof.
  induction words as [|w ws IH] using rev_ind.
  - simpl. split; [reflexivity|].
    intros line [<-|[]]. left. simpl. lia.
  - rewrite fold_left_app. simpl.
    destruct (fold_left _ ws ([], EmptyString)) as [lines cur].
    destruct IH as [Hjoin Hlen].
    assert (Hj : String.append (String.concat " " (lines ++ [cur]))
                   (String.append " " w)
                 = match ws ++ [w] with
                   | [] => EmptyString
                   | _ :: _ =>
                       String.append " " (String.concat " " (ws ++ [w]))
                   end).
    { rewrite Hjoin, string_concat_snoc.
      destruct ws as [|v ws]; simpl; [reflexivity|].
      now rewrite string_append_assoc. }
    destruct (max_width <? String.length cur + String.length w)%nat eqn:E.
    + split.
      * rewrite <- Hj, string_concat_snoc.
        destruct (lines ++ [cur]) eqn:El; [|reflexivity].
        now destruct lines.
      * intros line Hin. apply in_app_iff in Hin.
        destruct Hin as [Hin|[<-|[]]].
        -- destruct (Hlen line Hin) as [H|H]; [now left|].
           right. apply in_app_iff. now left.
        -- right. apply in_app_iff. right. now left.
    + apply Nat.ltb_ge in E. split.
      * rewrite <- Hj, !string_concat_snoc.
        destruct lines as [|l0 lines]; [reflexivity|].
        now rewrite string_append_assoc.
      * intros line Hin. apply in_app_iff in Hin.
        destruct Hin as [Hin|[<-|[]]].
        -- destruct (Hlen line) as [H|H];
             [apply in_app_iff; now left|now left|].
           right. apply in_app_iff. now left.
        -- left. rewrite !string_length_append. simpl. lia.
Qed.

(** X19.  The lines [draw_wrapped] makes out of the words of an instruction
    lose nothing: joined by single spaces they give back the words joined by
    single spaces, behind one leading space.  A line is at most
    [max_width + 1] characters long, the separator not being counted when a
    word is fitted in, unless the line is a single word of the text. *)
Theorem draw_wrapped_lines_keep_text (words : list string) (max_width : nat) :
  String.concat " " (draw_wrapped_lines words max_width)
  = match words with
    | [] => EmptyString
    | _ :: _ => String.append " " (String.concat " " words)
    end
  /\ forall line, In line (draw_wrapped_lines words max_width) ->
       (String.length line <= max_width + 1)%nat \/ In line words.
Proof.
  unfold draw_wrapped_lines.
  pose proof (draw_wrapped_fold words max_width) as H.
  destruct (fold_left _ words ([], EmptyString)) as [lines cur]. exact H.
Qed.

Lemma send_all_closed (l : list Client.ToServer) (ws : Client.Socket) :
  Client.closed ws = true ->
  fold_left (fun ws message => Client._send_message message ws) l ws = ws.
Proof.
  intros Hc. induction l as [|m l IH]; simpl; [reflexivity|].
  unfold Client._send_message at 2. now rewrite Hc.
Qed.

(** X20.  What a returning call of [step] has written is exactly the
    message of the action, if it has one, followed by the queued messages
    in their order, and nothing at all on a closed socket.  The message of
    the action is never a movement: for the four movement codes [step]
    raises before anything is written. *)
Theorem step_writes (action : Client.StepAction) (ws ws' : Client.Socket)
    (game game' : Client.Game) :
  Client.step action ws game = Some (ws', game') ->
  exists message,
    Client.message_to_server action = Some message
    /\ (forall actions, message <> Some (Client.ActionsToServer actions))
    /\ Client.sent ws'
       = Client.sent ws
         ++ (if Client.closed ws then []
             else option_list message ++ Client.queued_messages game).
Proof.
  unfold Client.step.
  destruct (negb _); [discriminate|].
  destruct (Client.message_to_server action) as [message|] eqn:Hm;
    [|discriminate].
  simpl. intros H. exists message. split; [reflexivity|]. split.
  { intros actions ->.
    destruct action as [[]|[]|[]]; discriminate Hm. }
  revert H.
  set (ws1 := match message with
              | Some m => Client._send_message m ws
              | None => ws
              end).
  destruct (Client.closed ws) eqn:Hc.
  - assert (H1 : ws1 = ws).
    { subst ws1. destruct message; [|reflexivity].
      unfold Client._send_message. now rewrite Hc. }
    rewrite H1, (send_all_closed _ ws Hc).
    destruct (Client._wait_for_tick (Client.inbox ws) game)
      as [[[w f1] g1]|]; [|discriminate].
    simpl. destruct w; [|discriminate].
    match goal with
    | |- (?x ≫= _) = _ -> _ =>
        change x with (Client.wait_until_can_act (S (length f1)) f1 g1)
    end.
    destruct (Client.wait_until_can_act (S (length f1)) f1 g1)
      as [[f2 g2]|]; [|discriminate].
    intros [= <- <-]. simpl. now rewrite app_nil_r.
  - assert (H1 : Client.closed ws1 = false
                 /\ Client.sent ws1 = Client.sent ws ++ option_list message).
    { subst ws1. destruct message as [m|]; simpl.
      - unfold Client._send_message. rewrite Hc. simpl. auto.
      - rewrite app_nil_r. auto. }
    destruct H1 as [Hc1 Hs1].
    rewrite (send_all_open _ ws1 Hc1). simpl.
    destruct (Client._wait_for_tick (Client.inbox ws1) game)
      as [[[w f1] g1]|]; [|discriminate].
    simpl. destruct w; [|discriminate].
    match goal with
    | |- (?x ≫= _) = _ -> _ =>
        change x with (Client.wait_until_can_act (S (length f1)) f1 g1)
    end.
    destruct (Client.wait_until_can_act (S (length f1)) f1 g1)
      as [[f2 g2]|]; [|discriminate].
    intros [= <- <-]. simpl. now rewrite Hs1, app_assoc.
Qed.

Lemma step_writes_witness :
  exists ws' game',
    Client.step (Client.LeadAction (Client.L_SEND_INSTRUCTION "one"))
      example_socket example_game = Some (ws', game')
    /\ Client.sent ws' = [Client.InstructionMessage "one"].
Proof.
  eexists. eexists. split; [reflexivity|].
  destruct (step_writes (Client.LeadAction (Client.L_SEND_INSTRUCTION "one"))
              example_socket _ example_game _ eq_refl)
    as (message & Hm & _ & Hs).
  injection Hm as <-. exact Hs.
Defined.

(** ** Completing an objective *)

(** X21.  The loop of [handle_objective_complete] changes at most one
    objective: when no objective carries the uuid the list stays as it is;
    otherwise the first objective with the uuid, and only that one, is
    marked completed, with its sender, text, uuid and cancelled flag kept.
    The list never changes in length or order, and a second completion with
    the same uuid changes nothing. *)
Theorem complete_first_first_match (uuid : string)
    (l : list ObjectiveMessage.t) :
  ((forall o, In o l -> ObjectiveMessage.uuid o <> uuid)
   /\ complete_first uuid l = l
   \/ exists before o after,
        l = before ++ o :: after
        /\ (forall o', In o' before -> ObjectiveMessage.uuid o' <> uuid)
        /\ ObjectiveMessage.uuid o = uuid
        /\ complete_first uuid l
           = before ++ ObjectiveMessage.set_completed true o :: after)
  /\ length (complete_first uuid l) = length l
  /\ complete_first uuid (complete_first uuid l) = complete_first uuid l.
Proof.
  induction l as [|x l (IH & Hlen & Hidem)]; simpl.
  - split; [left; split; [intros o []|reflexivity]|]. split; reflexivity.
  - destruct (String.eqb_spec (ObjectiveMessage.uuid x) uuid) as [Heq|Hne].
    + split; [|split; [reflexivity|]].
      * right. exists [], x, l. repeat split; auto.
      * simpl. destruct (String.eqb_spec (ObjectiveMessage.uuid x) uuid);
          [|contradiction].
        now destruct x.
    + split; [|split; [simpl; now rewrite Hlen|]].
      * destruct IH as [[Hnone Hsame]|(before & o & after & -> & Hb & Ho & Hc)].
        -- left. split; [|now rewrite Hsame].
           intros o [<-|Hin]; auto.
        -- right. exists (x :: before), o, after.
           split; [reflexivity|]. split; [|split; [exact Ho|]].
           ++ intros o' [<-|Hin]; auto.
           ++ simpl. now rewrite Hc.
      * simpl. destruct (String.eqb_spec (ObjectiveMessage.uuid x) uuid);
          [contradiction|].
        now rewrite Hidem.
Qed.
